(** * Bracket progression engine of the Serotonin tournament software

    A shallow embedding of the bracket engine of [src/app.py]: the
    double-elimination generator ([create_serpentine_matches],
    [generate_double_elim_bracket]), the advancement router
    ([advance_players]), the match resolver ([update_match]) and the Swiss
    stage controller ([generate_swiss_bracket], [advance_swiss_stage],
    [go_back_swiss]), followed by the properties stated about them.

    Python dictionaries with a fixed set of keys are records; a key that may
    be missing is an [option] field.  Lists are [list]; a list indexed by a
    request-supplied integer is read and written with Python's rules
    (negative indices count from the end, anything else out of range raises
    [IndexError]).  The process-wide [db] dictionary is an explicit [State]
    threaded through every handler; a handler returns the state it leaves
    behind together with its HTTP outcome, so that writes made before an
    exception are visible.  [copy.deepcopy] is the identity on values.
    Writing the configuration file ([save_config]) has no effect on [db] and
    is not modelled.

    A request carries integers for its scores and indices, the JSON numbers
    the front end sends, so [int(scores[i])] is [scores[i]]; other JSON
    values are outside the model.  [match["winners"]] lists player
    dictionaries of the match itself; every call that writes their scores
    rebuilds the list before it returns, so between calls the list is a
    list of values. *)

From stdpp Require Import gmap strings list pretty sorting.

Open Scope string_scope.
Open Scope nat_scope.
Open Scope list_scope.

(** ** Python list primitives *)

Inductive exn := IndexError | TypeError | KeyError.

(** Outcome of an expression that may raise. *)
Inductive result (A : Type) :=
  | Ok (a : A)
  | Raise (e : exn).
Arguments Ok {A} a.
Arguments Raise {A} e.

(** [x ← r; k] runs [k] on the value of [r] and passes an exception on. *)
Global Instance result_bind : MBind result := λ A B k r,
  match r with
  | Ok a => k a
  | Raise e => Raise e
  end.

(** Position addressed by [l[i]]: [i] itself when [0 <= i < len(l)],
    [i + len(l)] when [-len(l) <= i < 0]. *)
Definition py_index {A} (l : list A) (i : Z) : option nat :=
  let n := Z.of_nat (length l) in
  if bool_decide (0 ≤ i < n)%Z then Some (Z.to_nat i)
  else if bool_decide (- n ≤ i < 0)%Z then Some (Z.to_nat (i + n))
  else None.

(** [l[i]] *)
Definition py_get {A} (l : list A) (i : Z) : option A :=
  k ← py_index l i; l !! k.

(** [l[i] = x] *)
Definition py_set {A} (l : list A) (i : Z) (x : A) : option (list A) :=
  k ← py_index l i; Some (<[k:=x]> l).

(** [l[i]] updated in place by [f], for the nested writes [l[i][..] = ..]. *)
Definition py_alter {A} (f : A → option A) (l : list A) (i : Z) : option (list A) :=
  k ← py_index l i; x ← l !! k; y ← f x; Some (<[k:=y]> l).

(** [sorted] and [list.sort] are stable.  [before x y] says that [x] may
    stand in front of [y]: [key x <= key y] for an ascending sort,
    [key y <= key x] with [reverse=True].  Inserting from the right, an
    element goes in front of the elements it ties with, which keeps the
    original order among equal keys. *)
Fixpoint insert_sorted {A} (before : A → A → bool) (x : A) (l : list A) : list A :=
  match l with
  | [] => [x]
  | y :: l' => if before x y then x :: l else y :: insert_sorted before x l'
  end.

Definition stable_sort {A} (before : A → A → bool) (l : list A) : list A :=
  foldr (insert_sorted before) [] l.

(** [math.ceil(n / d)] for a list length [n]; the float quotient by 4.0 or
    2.0 is exact. *)
Definition ceil_div (n d : nat) : nat := (n + (d - 1)) / d.

(** ** Data model *)

(** A player dictionary.  [trackmania_id] is [None] for a JSON null; the
    keys [score] and [is_winner] are absent when [None]. *)
Record Player := mkPlayer {
  trackmania_id : option string;
  trackmania_name : string;
  display_bracket_name : string;
  seed : option Z;
  score : option Z;
  is_winner : option bool
}.

Global Instance Player_eq_dec : EqDecision Player.
Proof. solve_decision. Defined.

Definition BYE : Player := mkPlayer (Some "BYE") "BYE" "BYE" None None None.
Definition TBD : Player := mkPlayer (Some "TBD") "TBD" "TBD" None None None.

(** The placeholder with its [score] key, as the lower bracket and the
    grand final are filled. *)
Definition TBD_slot : Player := mkPlayer (Some "TBD") "TBD" "TBD" None (Some 0%Z) None.

(** [{"trackmania_id": p[..], "trackmania_name": p[..],
      "display_bracket_name": p[..], "seed": p[..], "score": 0}] *)
Definition entrant_slot (p : Player) : Player :=
  mkPlayer (trackmania_id p) (trackmania_name p) (display_bracket_name p)
           (seed p) (Some 0%Z) None.

(** [p.get('score', 0)] *)
Definition get_score (p : Player) : Z := default 0%Z (score p).

Record Match := mkMatch {
  match_id : string;
  players : list Player;
  winners : list Player;
  is_complete : bool
}.

Record Round := mkRound {
  round_name : string;
  matches : list Match
}.

(** [{"upper": {"rounds": ..}, "lower": {"rounds": ..}, "grand_final": ..}] *)
Record DEBracket := mkDE {
  upper : list Round;
  lower : list Round;
  grand_final : Round
}.

(** ** Bracket generator: double elimination *)

Definition is_bye (p : Player) : Prop := trackmania_id p = Some "BYE".

Global Instance is_bye_dec p : Decision (is_bye p).
Proof. unfold is_bye. apply _. Defined.

(** [padded_players[k]]; every index used below is within the padded list
    (lemma [serpentine_index_in_range]). *)
Definition at_pos (l : list Player) (k : nat) : Player := default BYE (l !! k).

Definition pad_with_byes (players : list Player) : list Player :=
  let num_matches := ceil_div (length players) 4 in
  players ++ replicate (num_matches * 4 - length players) BYE.

Definition serpentine_group (padded_players : list Player) (num_matches i : nat)
  : list Player :=
  filter (λ p, ¬ is_bye p)
    [ at_pos padded_players i;
      at_pos padded_players (num_matches * 2 - 1 - i);
      at_pos padded_players (num_matches * 2 + i);
      at_pos padded_players (num_matches * 4 - 1 - i) ].

Definition create_serpentine_matches (players : list Player) : list (list Player) :=
  let num_players := length players in
  if bool_decide (num_players = 0) then []
  else
    let num_matches := ceil_div num_players 4 in
    let padded_players := pad_with_byes players in
    serpentine_group padded_players num_matches <$> seq 0 num_matches.

(** [sorted(players, key=lambda p: p['seed'])].  Comparing [None] with
    anything raises [TypeError]; a list of two or more elements has every
    key compared at least once. *)
Definition seed_le (p q : Player) : bool :=
  bool_decide (default 0 (seed p) ≤ default 0 (seed q))%Z.

Definition sorted_by_seed (players : list Player) : result (list Player) :=
  if bool_decide (2 ≤ length players ∧ Exists (λ p, seed p = None) players)
  then Raise TypeError
  else Ok (stable_sort seed_le players).

(** One upper-bracket match built from a serpentine group (loop body of
    [enumerate(match_groups)]). *)
Definition upper_match (round_num i : nat) (group : list Player) : Match :=
  mkMatch ("UB-R" +:+ pretty round_num +:+ "M" +:+ pretty (i + 1))
          (entrant_slot <$> group) [] false.

(** The [while len(current_players) > 2] loop.  Each turn replaces the
    players by [2 * ceil(n/4)] placeholders, fewer than [n]; [fuel] bounds
    the number of turns and [length current_players] turns always suffice
    (lemma [upper_rounds_fuel]). *)
Fixpoint upper_rounds (fuel round_num : nat) (current_players : list Player)
  : list Round :=
  match fuel with
  | 0 => []
  | S fuel' =>
    if bool_decide (2 < length current_players) then
      let match_groups := create_serpentine_matches current_players in
      let ms := imap (upper_match round_num) match_groups in
      let rd := mkRound ("Upper Round " +:+ pretty round_num) ms in
      let num_winners := length ms * 2 in
      if bool_decide (num_winners ≤ 2) then [rd]
      else rd :: upper_rounds fuel' (S round_num) (replicate num_winners TBD)
    else []
  end.

Definition lower_match (i j : nat) : Match :=
  mkMatch ("LB-R" +:+ pretty (i + 1) +:+ "M" +:+ pretty (j + 1))
          (replicate 4 TBD_slot) [] false.

(** Body of [for i in range(num_ub_rounds + 1)]: the rounds appended in
    turn [i] (none when [num_lb_matches] is 0). *)
Definition lower_round (ub : list Round) (i : nat) : list Round :=
  let num_matches :=
    match ub !! i with
    | Some rd => length (matches rd)
    | None => 1
    end in
  let num_lb_matches := ceil_div num_matches 2 in
  if bool_decide (0 < num_lb_matches) then
    [ mkRound ("Lower Round " +:+ pretty (i + 1))
              (lower_match i <$> seq 0 num_lb_matches) ]
  else [].

Definition lower_rounds (ub : list Round) : list Round :=
  seq 0 (length ub + 1) ≫= lower_round ub.

Definition grand_final_round : Round :=
  mkRound "Grand Final" [ mkMatch "GF-M1" (replicate 4 TBD_slot) [] false ].

(** [None] is Python's [return None] for an empty roster. *)
Definition generate_double_elim_bracket (players : list Player)
  : result (option DEBracket) :=
  if bool_decide (players = []) then Ok None
  else
    sorted_players ← sorted_by_seed players;
    let ub := upper_rounds (length sorted_players) 1 sorted_players in
    Ok (Some (mkDE ub (lower_rounds ub) grand_final_round)).


(** ** Advancement router *)

(** [bracket_type] as [advance_players] tests it. *)
Inductive side := Upper | Lower.

Definition rounds_of (sd : side) (b : DEBracket) : list Round :=
  match sd with
  | Upper => upper b
  | Lower => lower b
  end.

Definition with_rounds (sd : side) (rs : list Round) (b : DEBracket) : DEBracket :=
  match sd with
  | Upper => mkDE rs (lower b) (grand_final b)
  | Lower => mkDE (upper b) rs (grand_final b)
  end.

(** [bracket[sd]["rounds"][r]["matches"][m]] *)
Definition get_match (sd : side) (r m : Z) (b : DEBracket) : option Match :=
  rd ← py_get (rounds_of sd b) r; py_get (matches rd) m.

(** [bracket["grand_final"]["matches"][m]] *)
Definition get_final (m : Z) (b : DEBracket) : option Match :=
  py_get (matches (grand_final b)) m.

Definition alter_round (f : Match → option Match) (m : Z) (rd : Round) : option Round :=
  ms ← py_alter f (matches rd) m; Some (mkRound (round_name rd) ms).

(** The match object [bracket[sd]["rounds"][r]["matches"][m]] changed in
    place by [f]. *)
Definition alter_match (sd : side) (r m : Z) (f : Match → option Match)
    (b : DEBracket) : option DEBracket :=
  rs ← py_alter (alter_round f m) (rounds_of sd b) r; Some (with_rounds sd rs b).

Definition alter_final (m : Z) (f : Match → option Match) (b : DEBracket)
  : option DEBracket :=
  gf ← alter_round f m (grand_final b); Some (mkDE (upper b) (lower b) gf).

(** [mt["players"][slot] = p] *)
Definition set_player (slot : Z) (p : Player) (mt : Match) : option Match :=
  ps ← py_set (players mt) slot p;
  Some (mkMatch (match_id mt) ps (winners mt) (is_complete mt)).

(** A statement run on the bracket: the bracket it leaves and the
    exception it raised, if any. *)
Definition stmt := DEBracket → DEBracket * option exn.

Definition and_then (c1 c2 : stmt) : stmt := λ b,
  match c1 b with
  | (b', None) => c2 b'
  | out => out
  end.

Infix ";;;" := and_then (at level 60, right associativity).

(** [target["players"][slot] = xs[k]], where [target] is the match reached
    by [loc]; a missing [xs[k]], match or slot raises [IndexError] and
    writes nothing. *)
Definition assign (loc : (Match → option Match) → DEBracket → option DEBracket)
    (slot : Z) (xs : list Player) (k : Z) : stmt := λ b,
  match py_get xs k ≫= λ x, loc (set_player slot x) b with
  | Some b' => (b', None)
  | None => (b, Some IndexError)
  end.

(** [next_match["players"][start_slot] = xs[0];
     next_match["players"][start_slot+1] = xs[1]] *)
Definition assign_pair (loc : (Match → option Match) → DEBracket → option DEBracket)
    (start_slot : Z) (xs : list Player) : stmt :=
  assign loc start_slot xs 0 ;;; assign loc (start_slot + 1) xs 1.

Definition advance_players (winners losers : list Player) (bracket_type : side)
    (round_index match_index : Z) : stmt := λ b,
  match get_final 0 b with
  | None => (b, Some IndexError)
  | Some _ =>
    let next_match_index := (match_index `div` 2)%Z in
    let start_slot := ((match_index `mod` 2) * 2)%Z in
    match bracket_type with
    | Upper =>
      let next_ub_round_index := (round_index + 1)%Z in
      let lb_round_index :=
        if bool_decide (round_index = 0%Z) then 0%Z
        else ((round_index - 1) * 2 + 1)%Z in
      ((if bool_decide (Z.of_nat (length (upper b)) ≤ next_ub_round_index)%Z
        then assign (alter_final 0) 0 winners 0 ;;; assign (alter_final 0) 1 winners 1
        else assign_pair (alter_match Upper next_ub_round_index next_match_index)
                         start_slot winners) ;;;
       (λ b1,
          if bool_decide (lb_round_index < Z.of_nat (length (lower b1)))%Z
          then assign_pair (alter_match Lower lb_round_index next_match_index)
                           start_slot losers b1
          else (b1, None))) b
    | Lower =>
      let next_lb_round_index := (round_index + 1)%Z in
      if bool_decide (Z.of_nat (length (lower b)) ≤ next_lb_round_index)%Z
      then (assign (alter_final 0) 2 winners 0 ;;; assign (alter_final 0) 3 winners 1) b
      else
        match py_get (lower b) next_lb_round_index with
        | None => (b, Some IndexError)
        | Some rd =>
          if bool_decide (next_match_index < Z.of_nat (length (matches rd)))%Z
          then assign_pair (alter_match Lower next_lb_round_index next_match_index)
                           start_slot winners b
          else (b, None)
        end
    end
  end.

(** ** Swiss bracket and tournament state *)

(** A Swiss match; [is_complete] is a key of the round-1 matches only. *)
Record SwissMatch := mkSwissMatch {
  swiss_id : string;
  swiss_name : string;
  swiss_players : list Player;
  swiss_is_complete : option bool
}.

Record SwissBracket := mkSwiss {
  stage : string;
  swiss_matches : list SwissMatch;
  history : gmap string (list SwissMatch);
  round : Z
}.

Inductive Bracket :=
  | DoubleElim (b : DEBracket)
  | Swiss (b : SwissBracket).

Record Config := mkConfig {
  points_to_advance : Z;
  points_for_finals : Z
}.

(** [db['main_tournament']], the keys the engine reads and writes. *)
Record State := mkState {
  bracket : option Bracket;
  bracket_type : string;
  config : Config
}.

Inductive response :=
  | Success
  | BadRequest (msg : string)
  | Unhandled (e : exn).

Definition with_bracket (b : Bracket) (s : State) : State :=
  mkState (Some b) (bracket_type s) (config s).

(** ** Match resolver *)

(** The JSON body of [/api/update_match]; scores are integers. *)
Record Request := mkRequest {
  req_bracket_type : string;
  req_scores : list Z;
  req_match_id : string;
  req_round_index : Z;
  req_match_index : Z
}.

Definition set_score (v : Z) (p : Player) : Player :=
  mkPlayer (trackmania_id p) (trackmania_name p) (display_bracket_name p)
           (seed p) (Some v) (is_winner p).

Definition set_is_winner (w : bool) (p : Player) : Player :=
  mkPlayer (trackmania_id p) (trackmania_name p) (display_bracket_name p)
           (seed p) (score p) (Some w).

(** [for i, player in enumerate(players): if i < len(scores):
      player['score'] = scores[i]] *)
Fixpoint apply_scores (ps : list Player) (scores : list Z) : list Player :=
  match ps, scores with
  | p :: ps', v :: scores' => set_score v p :: apply_scores ps' scores'
  | _, _ => ps
  end.

(** [p.get('trackmania_id') not in [None, "TBD", "BYE"]] *)
Definition is_real (p : Player) : Prop :=
  trackmania_id p ∉ [None; Some "TBD"; Some "BYE"].

Global Instance is_real_dec p : Decision (is_real p).
Proof. unfold is_real. apply _. Defined.

Definition score_desc (p q : Player) : bool :=
  bool_decide (get_score q ≤ get_score p)%Z.

(** [players_with_scores], after its [sort(..., reverse=True)]. *)
Definition ranked (ps : list Player) : list Player :=
  stable_sort score_desc (filter is_real ps).

Definition qualified (points_needed : Z) (ps : list Player) : list Player :=
  filter (λ p, points_needed ≤ get_score p)%Z (ranked ps).

(** [losers], from [all_player_ids], [winner_ids] and [loser_ids]. *)
Definition losers_of (ps ws : list Player) : list Player :=
  let all_player_ids := trackmania_id <$> ps in
  let winner_ids := trackmania_id <$> ws in
  let loser_ids :=
    filter (λ i, (i ∉ winner_ids) ∧ (i ∉ [Some "TBD"; Some "BYE"])) all_player_ids in
  filter (λ p, trackmania_id p ∈ loser_ids) ps.

(** The match after scores are written and [winners] and [is_complete]
    set, before any routing. *)
Definition resolved (points_needed : Z) (scores : list Z) (mt : Match) : Match :=
  let ps := apply_scores (players mt) scores in
  let q := qualified points_needed ps in
  if bool_decide (2 ≤ length q)
  then mkMatch (match_id mt) ps (take 2 q) true
  else mkMatch (match_id mt) ps [] false.

Definition side_of (bracket_type : string) : option side :=
  if bool_decide (bracket_type = "upper") then Some Upper
  else if bool_decide (bracket_type = "lower") then Some Lower
  else None.

Definition invalid_data : response := BadRequest "Invalid data provided".

(** The [try] block of [update_match] on a double-elimination bracket. *)
Definition update_match_elim (rq : Request) (cfg : Config) (b : DEBracket)
  : DEBracket * response :=
  if bool_decide (req_bracket_type rq = "grand_final") then
    match get_final (req_match_index rq) b
          ≫= λ mt, alter_final (req_match_index rq)
                     (λ _, Some (resolved (points_for_finals cfg) (req_scores rq) mt)) b with
    | None => (b, invalid_data)
    | Some b' => (b', Success)
    end
  else
    match side_of (req_bracket_type rq) with
    | None => (b, invalid_data)
    | Some sd =>
      let r := req_round_index rq in
      let m := req_match_index rq in
      match get_match sd r m b with
      | None => (b, invalid_data)
      | Some mt =>
        let mt' := resolved (points_to_advance cfg) (req_scores rq) mt in
        match alter_match sd r m (λ _, Some mt') b with
        | None => (b, invalid_data)
        | Some b1 =>
          if is_complete mt' then
            let ws := winners mt' in
            let ls := losers_of (players mt') ws in
            match advance_players (entrant_slot <$> ws) (entrant_slot <$> ls) sd r m b1 with
            | (b2, None) => (b2, Success)
            | (b2, Some _) => (b2, invalid_data)
            end
          else (b1, Success)
        end
      end
    end.

(** Key [(p.get('score', 0), -p['seed'])] under [reverse=True]: [p] may
    stand in front of [q] when [key q <= key p]. *)
Definition score_seed_desc (p q : Player) : bool :=
  let sp := default 0%Z (seed p) in
  let sq := default 0%Z (seed q) in
  bool_decide (get_score q < get_score p
               ∨ (get_score q = get_score p ∧ - sq ≤ - sp))%Z.

(** Sorting with that key; [-p['seed']] raises [TypeError] on a missing
    seed, before the list is touched. *)
Definition sorted_by_score_seed (ps : list Player) : result (list Player) :=
  if bool_decide (Exists (λ p, seed p = None) ps) then Raise TypeError
  else Ok (stable_sort score_seed_desc ps).

(** [for i, player in enumerate(players): player['is_winner'] = (i < 2)] *)
Definition mark_winners (ps : list Player) : list Player :=
  imap (λ i, set_is_winner (bool_decide (i < 2))) ps.

Definition with_swiss_players (ps : list Player) (mt : SwissMatch) : SwissMatch :=
  mkSwissMatch (swiss_id mt) (swiss_name mt) ps (swiss_is_complete mt).

Definition with_swiss_matches (ms : list SwissMatch) (b : SwissBracket) : SwissBracket :=
  mkSwiss (stage b) ms (history b) (round b).

(** The Swiss branch of [update_match] on a Swiss bracket. *)
Definition update_match_swiss (rq : Request) (b : SwissBracket)
  : SwissBracket * response :=
  match list_find (λ mt, swiss_id mt = req_match_id rq) (swiss_matches b) with
  | None => (b, Success)
  | Some (k, mt) =>
    let ps := apply_scores (swiss_players mt) (req_scores rq) in
    match sorted_by_score_seed ps with
    | Raise e =>
      (with_swiss_matches (<[k := with_swiss_players ps mt]> (swiss_matches b)) b,
       Unhandled e)
    | Ok ps' =>
      (with_swiss_matches
         (<[k := with_swiss_players (mark_winners ps') mt]> (swiss_matches b)) b,
       Success)
    end
  end.

Definition update_match (rq : Request) (s : State) : State * response :=
  if bool_decide (req_bracket_type rq = "swiss") then
    match bracket s with
    | None => (s, Unhandled TypeError)
    | Some (DoubleElim _) => (s, Unhandled KeyError)
    | Some (Swiss b) =>
      let '(b', rsp) := update_match_swiss rq b in (with_bracket (Swiss b') s, rsp)
    end
  else
    match bracket s with
    | Some (DoubleElim b) =>
      let '(b', rsp) := update_match_elim rq (config s) b in
      (with_bracket (DoubleElim b') s, rsp)
    | _ => (s, invalid_data)
    end.

(** ** Bracket generator: Swiss *)

(** The player dictionary of a round-1 Swiss match. *)
Definition swiss_slot (p : Player) : Player :=
  mkPlayer (trackmania_id p) (trackmania_name p) (display_bracket_name p)
           (seed p) (Some 0%Z) (Some false).

(** [[.. for p in sorted_players if p['seed'] in seeds]] *)
Definition seeded_in (seeds : list Z) (sorted_players : list Player) : list Player :=
  swiss_slot <$> filter (λ p, seed p ∈ (Some <$> seeds)) sorted_players.

Definition generate_swiss_bracket (players : list Player)
  : result (option SwissBracket) :=
  if bool_decide (length players ≠ 16) then Ok None
  else
    sorted_players ← sorted_by_seed players;
    let quad (k : nat) (seeds : list Z) :=
      mkSwissMatch ("SWISS-R1-M" +:+ pretty k) ("Match " +:+ pretty k)
                   (seeded_in seeds sorted_players) (Some false) in
    Ok (Some (mkSwiss "seeding"
                [ quad 1 [1; 2; 3; 4]%Z; quad 2 [5; 6; 7; 8]%Z;
                  quad 3 [9; 10; 11; 12]%Z; quad 4 [13; 14; 15; 16]%Z ]
                ∅ 1)).

(** ** Swiss stage controller *)

(** [f"round_{k}"] *)
Definition round_key (k : Z) : string := "round_" +:+ pretty k.

(** [match['players'].sort(...)] followed by the winner marks, on one
    match. *)
Definition finalize_match (mt : SwissMatch) : result SwissMatch :=
  ps ← sorted_by_score_seed (swiss_players mt);
  Ok (with_swiss_players (mark_winners ps) mt).

(** A Swiss statement: the match list it leaves and the exception raised. *)
Definition swiss_stmt := list SwissMatch → list SwissMatch * option exn.

(** Finalizing the match at position [k] in place. *)
Definition finalize_at (k : nat) : swiss_stmt := λ ms,
  match ms !! k with
  | None => (ms, None)
  | Some mt =>
    match finalize_match mt with
    | Ok mt' => (<[k := mt']> ms, None)
    | Raise e => (ms, Some e)
    end
  end.

(** Running [finalize_at] over the positions [ks] in turn, stopping at the
    first exception. *)
Fixpoint finalize_each (ks : list nat) : swiss_stmt := λ ms,
  match ks with
  | [] => (ms, None)
  | k :: ks' =>
    match finalize_at k ms with
    | (ms', None) => finalize_each ks' ms'
    | out => out
    end
  end.

(** [for match in bracket['matches']: ...] of rounds 1 and 2. *)
Definition finalize_all : swiss_stmt := λ ms,
  finalize_each (seq 0 (length ms)) ms.

(** [all_players], each match's players re-sorted by score. *)
Definition all_players_of (ms : list SwissMatch) : list Player :=
  ms ≫= λ mt, stable_sort score_desc (swiss_players mt).

(** [if 'is_winner' not in player: player['is_winner'] = False] *)
Definition ensure_is_winner (p : Player) : Player :=
  match is_winner p with
  | Some _ => p
  | None => set_is_winner false p
  end.

(** A match of a later round: no [is_complete] key. *)
Definition new_match (i n : string) (ps : list Player) : SwissMatch :=
  mkSwissMatch i n (ensure_is_winner <$> ps) None.

(** [l[a:b]] for constants [0 <= a <= b]. *)
Definition slice {A} (a b : nat) (l : list A) : list A := take (b - a) (drop a l).

(** The dictionary [groups = {g['id']: g for g in bracket['matches']}]:
    its keys in insertion order, and the position of the match a key is
    bound to (the last one with that id). *)
Fixpoint first_occurrences (seen l : list string) : list string :=
  match l with
  | [] => []
  | x :: l' =>
    if bool_decide (x ∈ seen) then first_occurrences seen l'
    else x :: first_occurrences (x :: seen) l'
  end.

Definition group_keys (ms : list SwissMatch) : list string :=
  first_occurrences [] (swiss_id <$> ms).

Definition group_pos (ms : list SwissMatch) (k : string) : option nat :=
  '(j, _) ← list_find (λ mt, swiss_id mt = k) (reverse ms);
  Some (length ms - 1 - j).

(** [groups[k]['players']] *)
Definition group_players (ms : list SwissMatch) (k : string) : result (list Player) :=
  match group_pos ms k ≫= λ i, ms !! i with
  | Some mt => Ok (swiss_players mt)
  | None => Raise KeyError
  end.

(** [for group in groups.values(): ...] of rounds 3 and 4. *)
Definition finalize_groups : swiss_stmt := λ ms,
  finalize_each (omap (group_pos ms) (group_keys ms)) ms.

(** The four matches built when leaving round 1. *)
Definition regroup_round1 (ms : list SwissMatch) : list SwissMatch :=
  let all_players := all_players_of ms in
  let top_8 := take 8 all_players in
  let bottom_8 := drop 8 all_players in
  [ new_match "SWISS-R2-M1" "Top 8 - Match 1" (take 4 top_8);
    new_match "SWISS-R2-M2" "Top 8 - Match 2" (drop 4 top_8);
    new_match "SWISS-R2-M3" "Bottom 8 - Match 1" (take 4 bottom_8);
    new_match "SWISS-R2-M4" "Bottom 8 - Match 2" (drop 4 bottom_8) ].

(** The four groups built when leaving round 2. *)
Definition regroup_round2 (ms : list SwissMatch) : result (list SwissMatch) :=
  final_seeding ← sorted_by_score_seed (all_players_of ms);
  Ok [ new_match "champion" "Champion" (slice 0 4 final_seeding);
       new_match "gold" "Gold" (slice 4 8 final_seeding);
       new_match "silver" "Silver" (slice 8 12 final_seeding);
       new_match "bronze" "Bronze" (slice 12 16 final_seeding) ].

(** Promotion and relegation when leaving round 3 or 4. *)
Definition regroup_groups (round_is_3 : bool) (ms : list SwissMatch)
  : result (list SwissMatch) :=
  new_gold ←
    (if round_is_3 then
       champion ← group_players ms "champion";
       champion_bottom ← sorted_by_seed (drop 2 champion);
       silver ← group_players ms "silver";
       silver_top ← sorted_by_seed (take 2 silver);
       Ok (champion_bottom ++ silver_top)
     else
       champion ← group_players ms "champion";
       silver ← group_players ms "silver";
       Ok (drop 2 champion ++ take 2 silver));
  champion ← group_players ms "champion";
  gold ← group_players ms "gold";
  silver ← group_players ms "silver";
  bronze ← group_players ms "bronze";
  Ok [ new_match "champion" "Champion" (take 2 champion ++ take 2 gold);
       new_match "gold" "Gold" new_gold;
       new_match "silver" "Silver" (drop 2 silver ++ take 2 bronze);
       new_match "bronze" "Bronze" (drop 2 bronze) ].

(** [for match in bracket['matches']: for player in match['players']:
      player['score'] = 0] *)
Definition reset_scores (ms : list SwissMatch) : list SwissMatch :=
  (λ mt, with_swiss_players (set_score 0 <$> swiss_players mt) mt) <$> ms.

Definition invalid_state : response := BadRequest "Invalid state for this action".

(** [advance_swiss_stage] on a Swiss bracket, after the guard. *)
Definition advance_swiss (b : SwissBracket) : SwissBracket * response :=
  let h := <[round_key (round b) := swiss_matches b]> (history b) in
  if bool_decide (round b = 1%Z) then
    match finalize_all (swiss_matches b) with
    | (ms, Some e) => (mkSwiss (stage b) ms h (round b), Unhandled e)
    | (ms, None) =>
      (mkSwiss (stage b) (reset_scores (regroup_round1 ms)) h 2, Success)
    end
  else if bool_decide (round b = 2%Z) then
    match finalize_all (swiss_matches b) with
    | (ms, Some e) => (mkSwiss (stage b) ms h (round b), Unhandled e)
    | (ms, None) =>
      match regroup_round2 ms with
      | Raise e => (mkSwiss (stage b) ms h (round b), Unhandled e)
      | Ok new_matches =>
        (mkSwiss "groups" (reset_scores new_matches) h 3, Success)
      end
    end
  else if bool_decide (round b ∈ [3; 4]%Z) then
    match finalize_groups (swiss_matches b) with
    | (ms, Some e) => (mkSwiss (stage b) ms h (round b), Unhandled e)
    | (ms, None) =>
      match regroup_groups (bool_decide (round b = 3%Z)) ms with
      | Raise e => (mkSwiss (stage b) ms h (round b), Unhandled e)
      | Ok new_matches =>
        (mkSwiss (stage b) (reset_scores new_matches) h (round b + 1), Success)
      end
    end
  else
    (mkSwiss (stage b) (reset_scores (swiss_matches b)) h (round b), Success).

Definition advance_swiss_stage (s : State) : State * response :=
  match bracket s with
  | None => (s, invalid_state)
  | Some bk =>
    if bool_decide (bracket_type s ≠ "swiss") then (s, invalid_state)
    else
      match bk with
      | DoubleElim _ => (s, Unhandled KeyError)
      | Swiss b =>
        let '(b', rsp) := advance_swiss b in (with_bracket (Swiss b') s, rsp)
      end
  end.

(** The closing loop of [go_back_swiss]: scores to 0 and a missing
    [is_winner] to [False]. *)
Definition restore_players (ms : list SwissMatch) : list SwissMatch :=
  (λ mt, with_swiss_players ((ensure_is_winner ∘ set_score 0) <$> swiss_players mt) mt)
    <$> ms.

Definition go_back_swiss (s : State) : State * response :=
  match bracket s with
  | None => (s, invalid_state)
  | Some bk =>
    if bool_decide (bracket_type s ≠ "swiss") then (s, invalid_state)
    else
      match bk with
      | DoubleElim _ => (s, Unhandled KeyError)
      | Swiss b =>
        if bool_decide (round b ≤ 1)%Z
        then (s, BadRequest "Cannot go back from round 1")
        else
          let prev_round_key := round_key (round b - 1) in
          match history b !! prev_round_key with
          | None => (s, BadRequest "Previous round data not found")
          | Some snapshot =>
            let current_round_key := round_key (round b - 1) in
            (with_bracket
               (Swiss (mkSwiss (stage b) (restore_players snapshot)
                               (delete current_round_key (history b))
                               (round b - 1))) s,
             Success)
          end
      end
  end.


(** ** Rankings and auto-seeding *)

(** The key [rank] of a player dictionary of the ranking endpoints: absent,
    JSON null, or a number. *)
Inductive rank_value :=
  | RankAbsent
  | RankNull
  | RankInt (z : Z).

(** A player dictionary with its [rank]. *)
Record RankedPlayer := mkRanked {
  entrant : Player;
  rank : rank_value
}.

(** [p.get('rank', 999999)]; [None] is the value [None] of a null rank. *)
Definition rank_key (p : RankedPlayer) : option Z :=
  match rank p with
  | RankAbsent => Some 999999%Z
  | RankNull => None
  | RankInt z => Some z
  end.

Definition rank_le (p q : RankedPlayer) : bool :=
  bool_decide (default 0 (rank_key p) ≤ default 0 (rank_key q))%Z.

(** [player['seed'] = z] *)
Definition with_seed (z : Z) (p : RankedPlayer) : RankedPlayer :=
  mkRanked (mkPlayer (trackmania_id (entrant p)) (trackmania_name (entrant p))
                     (display_bracket_name (entrant p)) (Some z)
                     (score (entrant p)) (is_winner (entrant p)))
           (rank p).

(** [sorted] raises [TypeError] when it compares a null rank, as it does
    in any list of two or more players; the [except] clause then returns
    the players as they came, before any seed was written. *)
Definition auto_seed_players_by_ranking (players : list RankedPlayer)
  : list RankedPlayer :=
  if bool_decide (2 ≤ length players ∧ Exists (λ p, rank_key p = None) players)
  then players
  else
    let sorted_players := stable_sort rank_le players in
    imap (λ i, with_seed (Z.of_nat i + 1)) sorted_players.

(** The dictionary appended in turn [i] of [create_mock_rankings]. *)
Definition mock_ranked (i : nat) : RankedPlayer :=
  mkRanked (mkPlayer (Some ("nadeo-mock-" +:+ pretty (i + 1)))
                     ("Mock Player " +:+ pretty (i + 1))
                     ("Mock Player " +:+ pretty (i + 1))
                     (Some (Z.of_nat i + 1)%Z)
                     (Some (1000 - Z.of_nat i * 10)%Z) None)
           (RankInt (Z.of_nat i + 1)).

(** [for i in range(min(limit, 32))] *)
Definition create_mock_rankings (limit : Z) : list RankedPlayer :=
  mock_ranked <$> seq 0 (Z.to_nat (Z.min limit 32)).

(** ** The tournament dictionary and its handlers *)

(** [db['main_tournament']]: the keys of the engine, the roster and the
    start flag.  The keys [info] and [timer] are not read by any handler
    below. *)
Record Tournament := mkTournament {
  engine : State;
  tournament_players : list Player;
  is_started : bool
}.

Definition with_engine (s : State) (t : Tournament) : Tournament :=
  mkTournament s (tournament_players t) (is_started t).

Definition with_is_started (v : bool) (t : Tournament) : Tournament :=
  mkTournament (engine t) (tournament_players t) v.

(** The two dictionaries [db['main_tournament']] can be: the module-level
    [default_main_config], and the one read from [config.json] at
    start-up.  With [loaded_config = None] the entry of [db] is the object
    [default_main_config] itself, and every write to one is a write to
    the other. *)
Record Store := mkStore {
  default_main_config : Tournament;
  loaded_config : option Tournament
}.

(** [db['main_tournament']] *)
Definition main_tournament (st : Store) : Tournament :=
  default (default_main_config st) (loaded_config st).

(** A write through [db['main_tournament']]. *)
Definition set_main_tournament (t : Tournament) (st : Store) : Store :=
  match loaded_config st with
  | Some _ => mkStore (default_main_config st) (Some t)
  | None => mkStore t None
  end.

(** [t['is_started'] = False; t['bracket'] = None; t['players'] = []] *)
Definition cleared (t : Tournament) : Tournament :=
  mkTournament (mkState None (bracket_type (engine t)) (config (engine t))) [] false.

(** The literal [default_main_config]. *)
Definition default_main_literal : Tournament :=
  mkTournament (mkState None "double_elimination" (mkConfig 70 100)) [] false.

(** Module start-up: [load_config] returns the dictionary parsed from the
    file, or [default_main_config] itself when there is no usable file;
    the three keys are then cleared through [db]. *)
Definition startup (config_file : option Tournament) : Store :=
  let st := mkStore default_main_literal config_file in
  set_main_tournament (cleared (main_tournament st)) st.

(** A handler that works on [db['main_tournament']] in place. *)
Definition on_main (h : Tournament → Tournament * response) (st : Store)
  : Store * response :=
  let '(t, rsp) := h (main_tournament st) in (set_main_tournament t st, rsp).

Definition on_engine (h : State → State * response) (t : Tournament)
  : Tournament * response :=
  let '(s, rsp) := h (engine t) in (with_engine s t, rsp).

(** [/api/stop] *)
Definition stop_tournament (t : Tournament) : Tournament * response :=
  (with_is_started false t, Success).

(** [/api/reset]: [db['main_tournament'] = default_main_config], then the
    three keys are cleared. *)
Definition reset_tournament (st : Store) : Store * response :=
  (mkStore (cleared (default_main_config st)) None, Success).

(** A JSON value handed to [int(..)]: null, an integer, or an array or
    object, for which [int] raises [TypeError]. *)
Inductive json_value :=
  | JNull
  | JInt (z : Z)
  | JArray.

(** [if v is not None: target = int(v)] *)
Definition int_unless_null (v : json_value) (old : Z) : result Z :=
  match v with
  | JNull => Ok old
  | JInt z => Ok z
  | JArray => Raise TypeError
  end.

(** [/api/config]; nothing catches the exception of [int]. *)
Definition update_config (points final_points : json_value) (t : Tournament)
  : Tournament * response :=
  let s := engine t in
  match int_unless_null points (points_to_advance (config s)) with
  | Raise e => (t, Unhandled e)
  | Ok p =>
    let t1 := with_engine
                (mkState (bracket s) (bracket_type s)
                         (mkConfig p (points_for_finals (config s)))) t in
    match int_unless_null final_points (points_for_finals (config s)) with
    | Raise e => (t1, Unhandled e)
    | Ok f =>
      (with_engine (mkState (bracket s) (bracket_type s) (mkConfig p f)) t,
       Success)
    end
  end.

(** The key [players] of the body of [/api/start]: player dictionaries
    (the test looks at the first one only), or names in the old format. *)
Inductive start_players :=
  | Dictionaries (ps : list Player)
  | Names (names : list string).

Definition old_format_player (i : nat) (name : string) : Player :=
  mkPlayer (Some ("temp-id-" +:+ pretty (i + 1))) name name
           (Some (Z.of_nat i + 1)%Z) None None.

Definition started_players (players : start_players) : list Player :=
  match players with
  | Dictionaries ps => ps
  | Names names => imap old_format_player names
  end.

(** [/api/start].  The roster and [bracket_type] are written before the
    bracket is generated or the Swiss roster size is checked. *)
Definition start_main_tournament (players : start_players) (new_type : string)
    (t : Tournament) : Tournament * response :=
  let ps := started_players players in
  let s := engine t in
  let t1 := mkTournament (mkState (bracket s) new_type (config s)) ps (is_started t) in
  let started (b : option Bracket) :=
    (mkTournament (mkState b new_type (config s)) ps true, Success) in
  if bool_decide (new_type = "double_elimination") then
    match generate_double_elim_bracket ps with
    | Raise e => (t1, Unhandled e)
    | Ok b => started (DoubleElim <$> b)
    end
  else if bool_decide (new_type = "swiss") then
    if bool_decide (length ps ≠ 16)
    then (t1, BadRequest "Swiss format requires exactly 16 players.")
    else
      match generate_swiss_bracket ps with
      | Raise e => (t1, Unhandled e)
      | Ok b => started (Swiss <$> b)
      end
  else started (bracket s).

(** ** Seeding tournament *)

(** [db['seeding_tournament']]: players and maps are names; [scores] maps
    a player to the score of each map.  The key [config] is not read by
    the handlers below. *)
Record Seeding := mkSeeding {
  seeding_players : list string;
  seeding_maps : list string;
  seeding_scores : gmap string (gmap string Z);
  seeding_is_started : bool;
  groupA : list string;
  groupB : list string
}.

(** The literal [default_seeding_config]. *)
Definition default_seeding_literal : Seeding :=
  mkSeeding [] ["Map 1"; "Map 2"; "Map 3"] ∅ false [] [].

(** [{k: v for k in keys}]: a later duplicate overwrites an earlier one. *)
Definition dict_of_keys {V} (v : V) (keys : list string) : gmap string V :=
  foldl (λ acc k, <[k:=v]> acc) ∅ keys.

(** [/api/seeding/start] *)
Definition start_seeding (players maps : list string) (t : Seeding) : Seeding :=
  let scores := dict_of_keys (dict_of_keys 0%Z maps) players in
  let midpoint := length players / 2 in
  mkSeeding players maps scores true (take midpoint players) (drop midpoint players).

Inductive seeding_response :=
  | SeedingSuccess
  | SeedingNotFound
  | SeedingUnhandled (e : exn).

(** [/api/seeding/update_scores]; [int(score)] raises [TypeError] for a
    null, an array or an object, which the handler does not catch. *)
Definition update_seeding_scores (player map_name : string) (score : json_value)
    (t : Seeding) : Seeding * seeding_response :=
  match seeding_scores t !! player with
  | Some row =>
    if bool_decide (map_name ∈ seeding_maps t) then
      match score with
      | JInt z =>
        (mkSeeding (seeding_players t) (seeding_maps t)
                   (<[player := <[map_name := z]> row]> (seeding_scores t))
                   (seeding_is_started t) (groupA t) (groupB t),
         SeedingSuccess)
      | _ => (t, SeedingUnhandled TypeError)
      end
    else (t, SeedingNotFound)
  | None => (t, SeedingNotFound)
  end.

(** The dictionaries [db['seeding_tournament']] can be, as for the main
    tournament: [loaded_seeding = None] when it is
    [default_seeding_config] itself. *)
Record SeedingStore := mkSeedingStore {
  default_seeding_config : Seeding;
  loaded_seeding : option Seeding
}.

(** [db['seeding_tournament']] *)
Definition seeding_tournament (st : SeedingStore) : Seeding :=
  default (default_seeding_config st) (loaded_seeding st).

Definition set_seeding_tournament (t : Seeding) (st : SeedingStore) : SeedingStore :=
  match loaded_seeding st with
  | Some _ => mkSeedingStore (default_seeding_config st) (Some t)
  | None => mkSeedingStore t None
  end.

Definition with_seeding_is_started (v : bool) (t : Seeding) : Seeding :=
  mkSeeding (seeding_players t) (seeding_maps t) (seeding_scores t) v
            (groupA t) (groupB t).

(** Module start-up of the seeding tournament. *)
Definition seeding_startup (config_file : option Seeding) : SeedingStore :=
  let st := mkSeedingStore default_seeding_literal config_file in
  set_seeding_tournament (with_seeding_is_started false (seeding_tournament st)) st.

(** [/api/seeding/reset]: [db['seeding_tournament'] = default_seeding_config],
    then [is_started] is cleared. *)
Definition reset_seeding (st : SeedingStore) : SeedingStore :=
  mkSeedingStore (with_seeding_is_started false (default_seeding_config st)) None.
(** * Statements *)

Definition seeded (roster : list Player) : Prop :=
  Forall (λ p, is_Some (seed p)) roster.

(** Sorted ascending by seed. *)
Definition ascending_by_seed (roster : list Player) : Prop :=
  Sorted (λ p q, seed_le p q = true) roster.

(** The first round built by the loop. *)
Definition first_upper_round (round_num : nat) (current_players : list Player) : Round :=
  mkRound ("Upper Round " +:+ pretty round_num)
          (imap (upper_match round_num) (create_serpentine_matches current_players)).

(** The placement of Upper Round 1, in the words of the specification:
    with [m = ceil(N/4)] and the roster padded with BYE entrants to length
    [4m], match [i] holds the padded entrants at positions [i], [2m-1-i],
    [2m+i] and [4m-1-i], BYE slots dropped. *)
Definition serpentine_round1 (roster : list Player) (b : DEBracket) : Prop :=
  let m := ceil_div (length roster) 4 in
  let padded := roster ++ replicate (4 * m - length roster) BYE in
  ∃ r1, upper b !! 0 = Some r1 ∧ length (matches r1) = m ∧
    ∀ i, i < m →
      ∃ mt p1 p2 p3 p4,
        matches r1 !! i = Some mt ∧
        padded !! i = Some p1 ∧ padded !! (2 * m - 1 - i) = Some p2 ∧
        padded !! (2 * m + i) = Some p3 ∧ padded !! (4 * m - 1 - i) = Some p4 ∧
        players mt = entrant_slot <$> filter (λ p, ¬ is_bye p) [p1; p2; p3; p4].

Definition generates (roster : list Player) (b : DEBracket) : Prop :=
  generate_double_elim_bracket roster = Ok (Some b).


(** Sample entrants: entrant [k] has seed [k]. *)
Definition mk_entrant (k : nat) : Player :=
  mkPlayer (Some ("player-" +:+ pretty k)) ("Player " +:+ pretty k)
           ("P" +:+ pretty k) (Some (Z.of_nat k)) None None.

Definition roster_of (n : nat) : list Player := mk_entrant <$> seq 1 n.

(** The worked example of the specification: with the seeds 1 to 8, Round 1
    has two matches holding the seeds 1, 4, 5, 8 and 2, 3, 6, 7. *)
Definition round1_of_eight (b : DEBracket) : Prop :=
  ∃ r1 m0 m1, upper b !! 0 = Some r1 ∧ matches r1 = [m0; m1] ∧
    seed <$> players m0 = Some <$> [1; 4; 5; 8]%Z ∧
    seed <$> players m1 = Some <$> [2; 3; 6; 7]%Z.

(** Every entrant of the roster sits in Upper Round 1, once: the slots of
    the round are a rearrangement of the roster, so their number is the
    roster's size, and each entrant is found in exactly one match. *)
Definition placed_once (roster : list Player) (b : DEBracket) : Prop :=
  ∃ r1, upper b !! 0 = Some r1 ∧
    mjoin (players <$> matches r1) ≡ₚ entrant_slot <$> roster ∧
    length (mjoin (players <$> matches r1)) = length roster ∧
    ∀ e, e ∈ roster →
      exists ! i, ∃ mt, matches r1 !! i = Some mt ∧ entrant_slot e ∈ players mt.

(** The match a request addresses on a double-elimination bracket. *)
Definition match_at (rq : Request) (b : DEBracket) : option Match :=
  if bool_decide (req_bracket_type rq = "grand_final")
  then get_final (req_match_index rq) b
  else sd ← side_of (req_bracket_type rq);
       get_match sd (req_round_index rq) (req_match_index rq) b.

(** [points_needed] *)
Definition threshold (rq : Request) (cfg : Config) : Z :=
  if bool_decide (req_bracket_type rq = "grand_final")
  then points_for_finals cfg else points_to_advance cfg.

(** The part of a bracket that routing never writes: names, identifiers,
    winner lists and completion flags. *)
Definition outcome (mt : Match) : string * list Player * bool :=
  (match_id mt, winners mt, is_complete mt).

Definition round_outcomes (rd : Round) : string * list (string * list Player * bool) :=
  (round_name rd, outcome <$> matches rd).

Definition bracket_outcomes (b : DEBracket) :=
  (round_outcomes <$> upper b, round_outcomes <$> lower b,
   round_outcomes (grand_final b)).

(** [ws] are the top two by score among the real entrants of [ps]: the
    first two of an arrangement of the real entrants by descending score. *)
Definition top_two_by_score (ws ps : list Player) : Prop :=
  length ws = 2 ∧
  ∃ rest, ws ++ rest ≡ₚ filter is_real ps ∧
          StronglySorted (λ p q, get_score q ≤ get_score p)%Z (ws ++ rest).

(** A statement that keeps the outcomes, whether or not it raises. *)
Definition keeps_outcomes (c : stmt) : Prop :=
  ∀ b, bracket_outcomes (c b).1 = bracket_outcomes b.

(** What the specification says of a resolved quad match [mt'], given the
    scored slots [ps] and the qualification threshold [t]. *)
Definition qualification_rule (t : Z) (ps : list Player) (mt' : Match) : Prop :=
  let qualifiers := filter (λ p, is_real p ∧ (t ≤ get_score p)%Z) ps in
  (2 ≤ length qualifiers →
     top_two_by_score (winners mt') ps ∧ is_complete mt' = true) ∧
  (length qualifiers < 2 → winners mt' = [] ∧ is_complete mt' = false) ∧
  (length qualifiers = 2 → winners mt' ≡ₚ qualifiers ∧ is_complete mt' = true).

(** A statement that leaves the match at one position as it is, whether
    or not it raises. *)
Definition keeps_match (sd : side) (r m : Z) (c : stmt) : Prop :=
  ∀ b, get_match sd r m (c b).1 = get_match sd r m b.

(** Sample brackets and states: the bracket generated for [roster_of n],
    with the default thresholds. *)
Definition empty_bracket : DEBracket := mkDE [] [] grand_final_round.

Definition sample_bracket (n : nat) : DEBracket :=
  match generate_double_elim_bracket (roster_of n) with
  | Ok (Some b) => b
  | _ => empty_bracket
  end.

Definition default_config : Config := mkConfig 70 100.

Definition sample_state (n : nat) : State :=
  mkState (Some (DoubleElim (sample_bracket n))) "double_elimination" default_config.

Definition resolve_request (bracket_type : string) (round_index match_index : Z)
    (scores : list Z) : Request :=
  mkRequest bracket_type scores EmptyString round_index match_index.

(** The Swiss bracket generated for [roster_of 16]. *)
Definition sample_swiss_bracket : SwissBracket :=
  match generate_swiss_bracket (roster_of 16) with
  | Ok (Some b) => b
  | _ => mkSwiss "seeding" [] ∅ 1
  end.

Definition sample_swiss_state : State :=
  mkState (Some (Swiss sample_swiss_bracket)) "swiss" default_config.

Definition swiss_request (match_id : string) (scores : list Z) : Request :=
  mkRequest "swiss" scores match_id 0 0.

(** The Swiss match with a given id, and the seeds flagged as its winners. *)
Definition swiss_match_of (i : string) (s : State) : option SwissMatch :=
  match bracket s with
  | Some (Swiss b) => snd <$> list_find (λ mt, swiss_id mt = i) (swiss_matches b)
  | _ => None
  end.

Definition flagged_seeds (mt : SwissMatch) : list (option Z) :=
  seed <$> filter (λ p, is_winner p = Some true) (swiss_players mt).

(** Where the specification sends a pair of entrants: two neighbouring
    slots of a bracket match, two slots of the grand final, or nowhere. *)
Inductive destination :=
  | InMatch (sd : side) (r m start_slot : Z)
  | InFinal (start_slot : Z)
  | Nowhere.

(** Winners of round [r], match [m]: round [r+1], match [m // 2], slots
    [(m%2)*2] and the next one; the grand final, slots 0-1 from the upper
    and 2-3 from the lower bracket, when there is no round [r+1]. *)
Definition winners_destination (b : DEBracket) (sd : side) (r m : Z) : destination :=
  if bool_decide (r + 1 < Z.of_nat (length (rounds_of sd b)))%Z
  then InMatch sd (r + 1) (m `div` 2) ((m `mod` 2) * 2)
  else InFinal (match sd with Upper => 0 | Lower => 2 end).

(** Losers of upper round [r], match [m]: lower round [L], [L = 0] if
    [r = 0], else [(r-1)*2+1], same placement, when that round exists.
    Lower-bracket losers go nowhere. *)
Definition losers_destination (b : DEBracket) (sd : side) (r m : Z) : destination :=
  match sd with
  | Upper =>
    let L := if bool_decide (r = 0%Z) then 0%Z else ((r - 1) * 2 + 1)%Z in
    if bool_decide (L < Z.of_nat (length (lower b)))%Z
    then InMatch Lower L (m `div` 2) ((m `mod` 2) * 2)
    else Nowhere
  | Lower => Nowhere
  end.

(** The bracket with the pair [x0], [x1] in its destination; [None] when
    the destination match or one of its two slots does not exist. *)
Definition place (d : destination) (x0 x1 : Player) (b : DEBracket)
  : option DEBracket :=
  match d with
  | InMatch sd r m s =>
    b1 ← alter_match sd r m (set_player s x0) b;
    alter_match sd r m (set_player (s + 1) x1) b1
  | InFinal s =>
    b1 ← alter_final 0 (set_player s x0) b;
    alter_final 0 (set_player (s + 1) x1) b1
  | Nowhere => Some b
  end.

(** Swiss ranking: score descending, then seed ascending (the lower seed
    number first). *)
Definition swiss_order (p q : Player) : Prop :=
  (get_score q < get_score p
   ∨ (get_score q = get_score p ∧ default 0 (seed p) ≤ default 0 (seed q)))%Z.

(** [ps'] is what resolving leaves of the slots [ps] under [scores]: the
    scored slots re-arranged in Swiss ranking order, the first two flagged
    as winners and all others flagged as not. *)
Definition swiss_resolved (scores : list Z) (ps ps' : list Player) : Prop :=
  ∃ ordered,
    ordered ≡ₚ apply_scores ps scores ∧
    StronglySorted swiss_order ordered ∧
    length ps' = length ordered ∧
    ∀ i q, ordered !! i = Some q →
           ps' !! i = Some (set_is_winner (bool_decide (i < 2)) q).

(** The worked Swiss example: sixteen entrants seeded 1 to 16, Match 1
    holding the seeds 1 to 4, scored 3, 1, 2, 0 in that order. *)
Definition swiss_example : Prop :=
  let rq := swiss_request "SWISS-R1-M1" [3; 1; 2; 0]%Z in
  let s1 := (update_match rq sample_swiss_state).1 in
  let s2 := (advance_swiss_stage s1).1 in
  generate_swiss_bracket (roster_of 16) = Ok (Some sample_swiss_bracket) ∧
  (λ mt, seed <$> swiss_players mt) <$> swiss_match_of "SWISS-R1-M1" sample_swiss_state
    = Some [Some 1; Some 2; Some 3; Some 4]%Z ∧
  flagged_seeds <$> swiss_match_of "SWISS-R1-M1" s1 = Some [Some 1; Some 3]%Z ∧
  (advance_swiss_stage s1).2 = Success ∧
  flagged_seeds <$> swiss_match_of "SWISS-R2-M1" s2 = Some [Some 1; Some 3]%Z.


(** A slot with its score set to 0 and a missing winner flag set to
    [false]. *)
Definition zeroed_and_flagged (p p' : Player) : Prop :=
  trackmania_id p' = trackmania_id p ∧ trackmania_name p' = trackmania_name p ∧
  display_bracket_name p' = display_bracket_name p ∧ seed p' = seed p ∧
  is_winner p' = Some (default false (is_winner p)) ∧ score p' = Some 0%Z.

(** Two match lists with the same matches in the same order, the slots of
    each in the same order and related by [R]. *)
Definition same_matches (R : Player → Player → Prop) (ms ms' : list SwissMatch) : Prop :=
  Forall2 (λ mt mt',
    swiss_id mt' = swiss_id mt ∧ swiss_name mt' = swiss_name mt ∧
    swiss_is_complete mt' = swiss_is_complete mt ∧
    Forall2 R (swiss_players mt) (swiss_players mt')) ms ms'.

(** The state after [n] stage advances. *)
Definition advanced (n : nat) (s : State) : State :=
  Nat.iter n (λ s, (advance_swiss_stage s).1) s.

Definition swiss_of (s : State) : SwissBracket :=
  match bracket s with
  | Some (Swiss b) => b
  | _ => mkSwiss EmptyString [] ∅ 0
  end.

(** What [go_back_swiss] does on a Swiss bracket [b]: it needs
    [round > 1] and a snapshot stored for [round - 1]; it then restores
    that snapshot (scores zeroed, missing winner flags set to [false]),
    decrements the round and deletes the snapshot it restored. *)
Definition rollback_rule (s : State) (b : SwissBracket) : Prop :=
  ((round b ≤ 1)%Z → go_back_swiss s = (s, BadRequest "Cannot go back from round 1")) ∧
  ((1 < round b)%Z → history b !! round_key (round b - 1) = None →
     go_back_swiss s = (s, BadRequest "Previous round data not found")) ∧
  (∀ snapshot,
     (1 < round b)%Z → history b !! round_key (round b - 1) = Some snapshot →
     ∃ b', go_back_swiss s = (with_bracket (Swiss b') s, Success) ∧
           same_matches zeroed_and_flagged snapshot (swiss_matches b') ∧
           round b' = (round b - 1)%Z ∧
           history b' = delete (round_key (round b - 1)) (history b) ∧
           stage b' = stage b).

(** A request that reaches a match of the current bracket. *)
Definition addresses (rq : Request) (s : State) : Prop :=
  match bracket s with
  | Some (DoubleElim b) => req_bracket_type rq ≠ "swiss" ∧ is_Some (match_at rq b)
  | Some (Swiss b) => req_bracket_type rq = "swiss"
  | None => False
  end.

(** Every slot of the matches carries a seed. *)
Definition all_seeded (ms : list SwissMatch) : Prop :=
  Forall (λ mt, seeded (swiss_players mt)) ms.

(** The same of a state: of its current matches and of every stored
    snapshot, when its bracket is a Swiss one. *)
Definition swiss_seeded (s : State) : Prop :=
  match bracket s with
  | Some (Swiss b) =>
    all_seeded (swiss_matches b) ∧ map_Forall (λ _ ms, all_seeded ms) (history b)
  | _ => True
  end.

(** The states of a Swiss tournament: a generated bracket, then any
    sequence of the three handlers. *)
Inductive swiss_run : State → Prop :=
  | run_start roster b cfg :
      generate_swiss_bracket roster = Ok (Some b) →
      swiss_run (mkState (Some (Swiss b)) "swiss" cfg)
  | run_update rq s : swiss_run s → swiss_run (update_match rq s).1
  | run_advance s : swiss_run s → swiss_run (advance_swiss_stage s).1
  | run_go_back s : swiss_run s → swiss_run (go_back_swiss s).1.

(** ** Statements about the rest of the engine *)

(** The round counter of a Swiss tournament stays within 1 to 5 and a
    snapshot is stored for every round before the current one. *)
Definition swiss_history_complete (s : State) : Prop :=
  bracket_type s = "swiss" ∧
  ∃ b, bracket s = Some (Swiss b) ∧ (1 ≤ round b ≤ 5)%Z ∧
       ∀ j, (1 ≤ j < round b)%Z → is_Some (history b !! round_key j).

(** Who an entrant is: the slot without its score and winner flag. *)
Definition identity (p : Player) : option string * string * string * option Z :=
  (trackmania_id p, trackmania_name p, display_bracket_name p, seed p).

(** The entrants of a list of Swiss matches, slot by slot. *)
Definition swiss_entrants (ms : list SwissMatch) : list (option string * string * string * option Z) :=
  identity <$> (ms ≫= swiss_players).

(** A match list made of the four groups, in their order. *)
Definition four_groups (ms : list SwissMatch) (c g sv z : SwissMatch) : Prop :=
  ms = [c; g; sv; z] ∧ swiss_id c = "champion" ∧ swiss_id g = "gold" ∧
  swiss_id sv = "silver" ∧ swiss_id z = "bronze".

(** From one upper round to the next: half as many matches, rounded up,
    and placeholder slots for two winners per match of the round before. *)
Definition narrows (rd rd' : Round) : Prop :=
  length (matches rd') = ceil_div (length (matches rd)) 2 ∧
  mjoin (players <$> matches rd') = replicate (2 * length (matches rd)) TBD_slot.

(** Rounds that narrow step by step down to a single match. *)
Definition narrowing_chain (rs : list Round) : Prop :=
  (∀ i rd rd', rs !! i = Some rd → rs !! S i = Some rd' → narrows rd rd') ∧
  ∃ rd, last rs = Some rd ∧ length (matches rd) = 1.

(** A match nobody has been routed to yet: four placeholder slots, no
    winners, not complete. *)
Definition open_match (mt : Match) : Prop :=
  players mt = replicate 4 TBD_slot ∧ winners mt = [] ∧ is_complete mt = false.

(** Number of matches of the upper round that lower round [i] is sized
    after; the last lower round is sized after a single match. *)
Definition feeder_matches (b : DEBracket) (i : nat) : nat :=
  match upper b !! i with
  | Some rd => length (matches rd)
  | None => 1
  end.

Definition lower_shape (b : DEBracket) : Prop :=
  length (lower b) = length (upper b) + 1 ∧
  ∀ i rd, lower b !! i = Some rd →
    round_name rd = "Lower Round " +:+ pretty (i + 1) ∧
    length (matches rd) = ceil_div (feeder_matches b i) 2 ∧
    Forall open_match (matches rd).

(** A slot the loser filter of [update_match] takes for an entrant: its
    identifier is neither "TBD" nor "BYE". *)
Definition occupied (p : Player) : Prop :=
  trackmania_id p ∉ [Some "TBD"; Some "BYE"].

Global Instance occupied_dec p : Decision (occupied p).
Proof. unfold occupied. apply _. Defined.

(** A seed that one of the four round-1 Swiss matches asks for. *)
Definition swiss_seed (p : Player) : Prop :=
  match seed p with
  | Some z => (1 ≤ z ≤ 16)%Z
  | None => False
  end.

Global Instance swiss_seed_dec p : Decision (swiss_seed p).
Proof. unfold swiss_seed. destruct (seed p); apply _. Defined.

(** The slots of a Swiss bracket, match after match. *)
Definition swiss_slots (b : SwissBracket) : list Player :=
  mjoin (swiss_players <$> swiss_matches b).

(** Sample entrants with the seeds 0 to 15. *)
Definition roster_from_zero : list Player := mk_entrant <$> seq 0 16.

(** The seeds of the slots of each match. *)
Definition swiss_seeds (b : SwissBracket) : list (list (option Z)) :=
  (λ mt, seed <$> swiss_players mt) <$> swiss_matches b.

(** A player dictionary with its seed forgotten. *)
Definition without_seed (p : RankedPlayer) : RankedPlayer :=
  mkRanked (mkPlayer (trackmania_id (entrant p)) (trackmania_name (entrant p))
                     (display_bracket_name (entrant p)) None
                     (score (entrant p)) (is_winner (entrant p)))
           (rank p).

(** The rank auto-seeding orders by: a player without the key counts as
    rank 999999. *)
Definition rank_number (p : RankedPlayer) : Z :=
  match rank p with
  | RankInt z => z
  | _ => 999999%Z
  end.

Definition ranked_players (ps : list RankedPlayer) : Prop :=
  Forall (λ p, rank p ≠ RankNull) ps.

(** What auto-seeding returns: the same players, ordered by rank, with
    the seeds 1, 2, ... in this order. *)
Definition seeded_by_rank (ps out : list RankedPlayer) : Prop :=
  without_seed <$> out ≡ₚ without_seed <$> ps ∧
  StronglySorted (λ p q, rank_number p ≤ rank_number q)%Z out ∧
  (seed ∘ entrant) <$> out = Some <$> seqZ 1 (Z.of_nat (length ps)).

(** Sample search results: nobody is seeded; player [k] has rank
    [100 - k], and the player 0 has no rank key. *)
Definition found_player (k : nat) : RankedPlayer :=
  mkRanked (mkPlayer (Some ("tm-" +:+ pretty k)) ("Racer " +:+ pretty k)
                     ("Racer " +:+ pretty k) None None None)
           (if bool_decide (k = 0) then RankAbsent else RankInt (100 - Z.of_nat k)).

Definition found_players (n : nat) : list RankedPlayer := found_player <$> seq 0 n.

(** A request to one of the handlers of the main tournament. *)
Inductive call :=
  | CallReset
  | CallStop
  | CallUpdateConfig (points final_points : json_value)
  | CallStart (players : start_players) (new_type : string)
  | CallUpdateMatch (rq : Request)
  | CallAdvanceSwissStage
  | CallGoBackSwiss.

Definition serve (c : call) (st : Store) : Store * response :=
  match c with
  | CallReset => reset_tournament st
  | CallStop => on_main stop_tournament st
  | CallUpdateConfig points final_points =>
      on_main (update_config points final_points) st
  | CallStart players new_type =>
      on_main (start_main_tournament players new_type) st
  | CallUpdateMatch rq => on_main (on_engine (update_match rq)) st
  | CallAdvanceSwissStage => on_main (on_engine advance_swiss_stage) st
  | CallGoBackSwiss => on_main (on_engine go_back_swiss) st
  end.

(** The store after a sequence of requests, whatever they answered. *)
Definition serve_all (cs : list call) (st : Store) : Store :=
  foldl (λ st c, (serve c st).1) st cs.

(** The settings a reset might be expected to restore. *)
Definition settings (st : Store) : Config * string :=
  (config (engine (main_tournament st)), bracket_type (engine (main_tournament st))).

(** A tournament as a configuration file may hold it. *)
Definition saved_tournament : Tournament :=
  mkTournament (mkState None "swiss" (mkConfig 40 60)) [] true.

(** A tournament running the double-elimination bracket of [roster_of n]. *)
Definition running_tournament (n : nat) : Tournament :=
  mkTournament (sample_state n) (roster_of n) true.

(** The score of a player on a map, when the table has the cell. *)
Definition seeding_cell (t : Seeding) (player map_name : string) : option Z :=
  row ← seeding_scores t !! player; row !! map_name.

(** The score table has exactly one row for each player, and each row
    exactly one cell for each map. *)
Definition table_complete (t : Seeding) : Prop :=
  (∀ player, is_Some (seeding_scores t !! player) ↔ player ∈ seeding_players t) ∧
  (∀ player row map_name, seeding_scores t !! player = Some row →
     is_Some (row !! map_name) ↔ map_name ∈ seeding_maps t).

(** A request to the seeding tournament. *)
Inductive seeding_call :=
  | SeedingStart (players maps : list string)
  | SeedingUpdateScores (player map_name : string) (score : json_value)
  | SeedingReset.

Definition seeding_serve (c : seeding_call) (st : SeedingStore) : SeedingStore :=
  match c with
  | SeedingStart players maps =>
      set_seeding_tournament (start_seeding players maps (seeding_tournament st)) st
  | SeedingUpdateScores player map_name score =>
      set_seeding_tournament
        (update_seeding_scores player map_name score (seeding_tournament st)).1 st
  | SeedingReset => reset_seeding st
  end.

Definition seeding_serve_all (cs : list seeding_call) (st : SeedingStore)
  : SeedingStore :=
  foldl (λ st c, seeding_serve c st) st cs.


(** The shape of a bracket: the names of its rounds and, for each match,
    its identifier and its number of slots. *)
Definition match_shape (mt : Match) : string * nat :=
  (match_id mt, length (players mt)).

Definition round_shape (rd : Round) : string * list (string * nat) :=
  (round_name rd, match_shape <$> matches rd).

Definition bracket_shape (b : DEBracket) :=
  (round_shape <$> upper b, round_shape <$> lower b, round_shape (grand_final b)).

Definition keeps_shape (c : stmt) : Prop :=
  ∀ b, bracket_shape (c b).1 = bracket_shape b.
(** * Properties *)

Ltac Zify.zify_post_hook ::= Z.to_euclidean_division_equations.

(** ** Sorting *)

Section stable_sort.
Context {A : Type} (before : A → A → bool).

Lemma insert_sorted_perm x l : insert_sorted before x l ≡ₚ x :: l.
Proof.
  induction l as [|y l IH]; simpl; [done|].
  destruct (before x y); [done|]. by rewrite IH, Permutation_swap.
Qed.

Lemma stable_sort_perm l : stable_sort before l ≡ₚ l.
Proof.
  induction l as [|x l IH]; simpl; [done|].
  by rewrite insert_sorted_perm, IH.
Qed.

Lemma stable_sort_length l : length (stable_sort before l) = length l.
Proof. by rewrite stable_sort_perm. Qed.

(** A list already in order is returned as it is. *)
Lemma stable_sort_sorted l :
  Sorted (λ x y, before x y = true) l → stable_sort before l = l.
Proof.
  induction 1 as [|x l Hl IH Hhd]; simpl; [done|].
  rewrite IH. destruct Hhd as [|y l' Hxy]; simpl; [done|]. by rewrite Hxy.
Qed.

Hypothesis before_total : ∀ x y, before x y = true ∨ before y x = true.
Hypothesis before_trans :
  ∀ x y z, before x y = true → before y z = true → before x z = true.

Lemma insert_sorted_strongly x l :
  StronglySorted (λ x y, before x y = true) l →
  StronglySorted (λ x y, before x y = true) (insert_sorted before x l).
Proof.
  induction 1 as [|y l Hl IH Hy]; simpl; [by repeat constructor|].
  destruct (before x y) eqn:Hxy.
  - constructor; [by constructor|]. constructor; [done|].
    eapply Forall_impl; [exact Hy|]. intros z Hz. by eapply before_trans.
  - constructor; [done|]. rewrite insert_sorted_perm. constructor; [|done].
    destruct (before_total x y); congruence.
Qed.

Lemma stable_sort_strongly l :
  StronglySorted (λ x y, before x y = true) (stable_sort before l).
Proof.
  induction l; simpl; [constructor|]. by apply insert_sorted_strongly.
Qed.
End stable_sort.

(** ** Rounding up *)

Lemma ceil_div_4_bounds n : n ≤ ceil_div n 4 * 4 < n + 4.
Proof.
  unfold ceil_div. change (4 - 1) with 3.
  pose proof (Nat.div_mod_eq (n + 3) 4).
  pose proof (Nat.mod_upper_bound (n + 3) 4). lia.
Qed.

(** ** Serpentine placement *)

Lemma pad_with_byes_length l :
  length (pad_with_byes l) = ceil_div (length l) 4 * 4.
Proof.
  unfold pad_with_byes. rewrite length_app, length_replicate.
  pose proof (ceil_div_4_bounds (length l)). lia.
Qed.

(** The four positions read for match [i] exist in the padded list. *)
Lemma serpentine_index_in_range l i :
  i < ceil_div (length l) 4 →
  let m := ceil_div (length l) 4 in
  let n := length (pad_with_byes l) in
  i < n ∧ m * 2 - 1 - i < n ∧ m * 2 + i < n ∧ m * 4 - 1 - i < n.
Proof. intros Hi. cbv zeta. rewrite pad_with_byes_length. lia. Qed.

Lemma at_pos_lookup l k x : l !! k = Some x → at_pos l k = x.
Proof. unfold at_pos. by intros ->. Qed.

Lemma create_serpentine_matches_length l :
  length (create_serpentine_matches l) = ceil_div (length l) 4.
Proof.
  unfold create_serpentine_matches. case_bool_decide as Hn.
  - rewrite Hn. done.
  - by rewrite length_fmap, length_seq.
Qed.

Lemma create_serpentine_matches_lookup l i :
  i < ceil_div (length l) 4 →
  create_serpentine_matches l !! i
  = Some (serpentine_group (pad_with_byes l) (ceil_div (length l) 4) i).
Proof.
  intros Hi. unfold create_serpentine_matches. case_bool_decide as Hn.
  - rewrite Hn in Hi. cbv in Hi. lia.
  - rewrite list_lookup_fmap, lookup_seq_lt by done. done.
Qed.

(** Reading a block of a list forwards and backwards. *)
Lemma fmap_at_pos_forward l a m :
  a + m ≤ length l →
  (λ i, at_pos l (a + i)) <$> seq 0 m = take m (drop a l).
Proof.
  intros Hlen. apply list_eq. intros i.
  rewrite list_lookup_fmap. destruct (decide (i < m)) as [Hi|Hi].
  - rewrite lookup_seq_lt, lookup_take_lt, lookup_drop by done. simpl.
    unfold at_pos. destruct (lookup_lt_is_Some_2 l (a + i)) as [x ->]; [lia|done].
  - rewrite lookup_seq_ge, lookup_take_ge by lia. done.
Qed.

Lemma fmap_at_pos_backward l a m :
  a + m ≤ length l →
  (λ i, at_pos l (a + m - 1 - i)) <$> seq 0 m = reverse (take m (drop a l)).
Proof.
  intros Hlen. apply list_eq. intros i.
  assert (length (take m (drop a l)) = m) as Hm.
  { rewrite length_take, length_drop. lia. }
  rewrite list_lookup_fmap. destruct (decide (i < m)) as [Hi|Hi].
  - rewrite lookup_seq_lt, reverse_lookup, Hm by lia. simpl.
    rewrite lookup_take_lt, lookup_drop by lia.
    unfold at_pos. replace (a + (m - S i)) with (a + m - 1 - i) by lia.
    destruct (lookup_lt_is_Some_2 l (a + m - 1 - i)) as [x ->]; [lia|done].
  - rewrite lookup_seq_ge by lia. simpl. symmetry. apply lookup_ge_None.
    rewrite length_reverse. lia.
Qed.

(** Interleaving four index-wise readings is a rearrangement of the four
    readings laid end to end. *)
Lemma interleave_perm {B} (g1 g2 g3 g4 : nat → B) (idx : list nat) :
  mjoin ((λ i, [g1 i; g2 i; g3 i; g4 i]) <$> idx)
  ≡ₚ (g1 <$> idx) ++ (g2 <$> idx) ++ (g3 <$> idx) ++ (g4 <$> idx).
Proof.
  induction idx as [|i idx IH]; [done|]. csimpl. rewrite IH.
  apply Permutation_cons; [done|].
  rewrite <- !Permutation_middle. do 3 (apply Permutation_cons; [done|]). done.
Qed.

Lemma join_filter_fmap {B C} (P : B → Prop) `{!∀ x, Decision (P x)}
    (g : C → list B) (idx : list C) :
  mjoin ((λ i, filter P (g i)) <$> idx) = filter P (mjoin (g <$> idx)).
Proof.
  induction idx as [|i idx IH]; [done|]. csimpl. by rewrite filter_app, IH.
Qed.

Lemma filter_perm {B} (P : B → Prop) `{!∀ x, Decision (P x)} (l k : list B) :
  l ≡ₚ k → filter P l ≡ₚ filter P k.
Proof.
  induction 1 as [|x l k _ IH|x y l|l k j _ IH1 _ IH2]; [done| | |by etrans].
  - rewrite !filter_cons. destruct (decide (P x)); by rewrite IH.
  - rewrite !filter_cons. destruct (decide (P x)), (decide (P y)); try done.
    apply Permutation_swap.
Qed.

Lemma four_blocks {B} (l : list B) m :
  length l = m * 4 →
  take m l ++ reverse (take m (drop m l)) ++ take m (drop (m * 2) l)
    ++ reverse (take m (drop (m * 3) l)) ≡ₚ l.
Proof.
  intros Hlen. rewrite !reverse_Permutation.
  rewrite <- (take_drop m l) at 5.
  apply Permutation_app; [done|].
  rewrite <- (take_drop m (drop m l)) at 2. apply Permutation_app; [done|].
  rewrite drop_drop. replace (m + m) with (m * 2) by lia.
  rewrite <- (take_drop m (drop (m * 2) l)) at 2. apply Permutation_app; [done|].
  rewrite drop_drop. replace (m * 2 + m) with (m * 3) by lia.
  rewrite take_ge; [done|]. rewrite length_drop. lia.
Qed.

(** The serpentine groups hold every entrant of the list exactly once, the
    BYE padding apart. *)
Lemma create_serpentine_matches_perm l :
  mjoin (create_serpentine_matches l) ≡ₚ filter (λ p, ¬ is_bye p) l.
Proof.
  unfold create_serpentine_matches. case_bool_decide as Hn.
  { destruct l; [done|discriminate]. }
  set (m := ceil_div (length l) 4). set (pad := pad_with_byes l).
  assert (length pad = m * 4) as Hpad by apply pad_with_byes_length.
  unfold serpentine_group.
  rewrite (join_filter_fmap _
    (λ i, [at_pos pad i; at_pos pad (m * 2 - 1 - i);
           at_pos pad (m * 2 + i); at_pos pad (m * 4 - 1 - i)])).
  transitivity (filter (λ p, ¬ is_bye p) pad).
  - apply filter_perm. rewrite interleave_perm.
    replace ((λ i, at_pos pad i) <$> seq 0 m) with (take m (drop 0 pad))
      by (by rewrite <- fmap_at_pos_forward by lia).
    rewrite (fmap_at_pos_forward pad (m * 2) m) by lia.
    replace ((λ i, at_pos pad (m * 2 - 1 - i)) <$> seq 0 m)
      with (reverse (take m (drop m pad)))
      by (rewrite <- fmap_at_pos_backward by lia;
          apply list_fmap_ext; intros; f_equal; lia).
    replace ((λ i, at_pos pad (m * 4 - 1 - i)) <$> seq 0 m)
      with (reverse (take m (drop (m * 3) pad)))
      by (rewrite <- fmap_at_pos_backward by lia;
          apply list_fmap_ext; intros; f_equal; lia).
    rewrite drop_0. by apply four_blocks.
  - unfold pad, pad_with_byes. rewrite filter_app.
    assert (∀ k, filter (λ p, ¬ is_bye p) (replicate k BYE) = []) as ->.
    { induction k; [done|]. simpl. rewrite filter_cons_False; [done|].
      intros H. by apply H. }
    by rewrite app_nil_r.
Qed.

(** ** Double-elimination generator *)

Lemma sorted_by_seed_seeded roster :
  seeded roster → sorted_by_seed roster = Ok (stable_sort seed_le roster).
Proof.
  intros Hs. unfold sorted_by_seed. rewrite bool_decide_eq_false_2; [done|].
  intros [_ Hex]. apply Exists_exists in Hex as (p & Hp & Hnone).
  eapply Forall_forall in Hs; [|exact Hp]. rewrite Hnone in Hs.
  by destruct Hs.
Qed.

Lemma sorted_by_seed_ascending roster :
  seeded roster → ascending_by_seed roster → sorted_by_seed roster = Ok roster.
Proof.
  intros Hs Ha. rewrite sorted_by_seed_seeded by done.
  by rewrite stable_sort_sorted.
Qed.

Lemma upper_rounds_first fuel round_num l :
  2 < length l →
  upper_rounds (S fuel) round_num l !! 0 = Some (first_upper_round round_num l).
Proof.
  intros Hl. simpl. rewrite bool_decide_eq_true_2 by done.
  by case_bool_decide.
Qed.

Lemma upper_rounds_short fuel round_num l :
  length l ≤ 2 → upper_rounds fuel round_num l = [].
Proof.
  intros Hl. destruct fuel; [done|]. simpl.
  rewrite bool_decide_eq_false_2; [done|lia].
Qed.

(** Fuel never runs out: any amount from [length current_players] upwards
    gives the same rounds. *)
Lemma upper_rounds_fuel fuel1 fuel2 round_num l :
  length l ≤ fuel1 → length l ≤ fuel2 →
  upper_rounds fuel1 round_num l = upper_rounds fuel2 round_num l.
Proof.
  revert fuel2 round_num l.
  induction fuel1 as [|fuel1 IH]; intros fuel2 round_num l H1 H2.
  { by rewrite !upper_rounds_short by lia. }
  destruct fuel2 as [|fuel2]; [by rewrite !upper_rounds_short by lia|].
  simpl. case_bool_decide as Hl; [|done].
  rewrite length_imap, create_serpentine_matches_length.
  case_bool_decide as Hw; [done|]. f_equal.
  pose proof (ceil_div_4_bounds (length l)).
  apply IH; rewrite length_replicate; lia.
Qed.

Lemma generates_upper roster b :
  generates roster b → seeded roster → 3 ≤ length roster →
  upper b !! 0 = Some (first_upper_round 1 (stable_sort seed_le roster)).
Proof.
  unfold generates, generate_double_elim_bracket. intros Hg Hs Hn.
  rewrite bool_decide_eq_false_2 in Hg by (by destruct roster).
  rewrite sorted_by_seed_seeded in Hg by done. simpl in Hg.
  injection Hg as <-. cbn [upper].
  rewrite stable_sort_length. destruct (length roster) as [|n] eqn:Hlen; [lia|].
  apply upper_rounds_first. rewrite stable_sort_length. lia.
Qed.

Lemma generates_total roster :
  seeded roster → roster ≠ [] → ∃ b, generates roster b.
Proof.
  intros Hs Hne. unfold generates, generate_double_elim_bracket.
  rewrite bool_decide_eq_false_2 by done.
  rewrite sorted_by_seed_seeded by done. simpl. eauto.
Qed.

Lemma first_upper_round_serpentine roster b :
  3 ≤ length roster →
  upper b !! 0 = Some (first_upper_round 1 roster) →
  serpentine_round1 roster b.
Proof.
  intros Hn Hup. unfold serpentine_round1.
  set (m := ceil_div (length roster) 4).
  exists (first_upper_round 1 roster). split; [done|]. split.
  { simpl. by rewrite length_imap, create_serpentine_matches_length. }
  intros i Hi.
  destruct (serpentine_index_in_range roster i Hi) as (H1 & H2 & H3 & H4).
  fold m in H1, H2, H3, H4.
  replace (roster ++ replicate (4 * m - length roster) BYE)
    with (pad_with_byes roster)
    by (unfold pad_with_byes; fold m; do 2 f_equal; lia).
  set (pad := pad_with_byes roster) in *.
  apply lookup_lt_is_Some_2 in H1 as [p1 Hp1], H2 as [p2 Hp2],
    H3 as [p3 Hp3], H4 as [p4 Hp4].
  exists (upper_match 1 i (serpentine_group pad m i)), p1, p2, p3, p4.
  split.
  { simpl. rewrite list_lookup_imap, create_serpentine_matches_lookup by done.
    done. }
  replace (2 * m - 1 - i) with (m * 2 - 1 - i) by lia.
  replace (2 * m + i) with (m * 2 + i) by lia.
  replace (4 * m - 1 - i) with (m * 4 - 1 - i) by lia.
  repeat split; try done.
  simpl. unfold serpentine_group.
  by rewrite (at_pos_lookup _ _ _ Hp1), (at_pos_lookup _ _ _ Hp2),
    (at_pos_lookup _ _ _ Hp3), (at_pos_lookup _ _ _ Hp4).
Qed.

Lemma serpentine_round1_eight roster b :
  seed <$> roster = Some <$> [1; 2; 3; 4; 5; 6; 7; 8]%Z →
  Forall (λ p, ¬ is_bye p) roster →
  serpentine_round1 roster b → round1_of_eight b.
Proof.
  intros Hseeds Hreal (r1 & Hr1 & Hlen & Hm).
  do 9 (destruct roster as [|? roster]; try discriminate Hseeds).
  injection Hseeds as S1 S2 S3 S4 S5 S6 S7 S8.
  repeat match goal with H : Forall _ (_ :: _) |- _ =>
    apply Forall_cons in H as [? H] end.
  change (ceil_div _ 4) with 2 in *.
  destruct (Hm 0) as (m0 & ? & ? & ? & ? & Hl0 & E1 & E2 & E3 & E4 & Hp0); [lia|].
  destruct (Hm 1) as (m1 & ? & ? & ? & ? & Hl1 & F1 & F2 & F3 & F4 & Hp1); [lia|].
  simpl in E1, E2, E3, E4, F1, F2, F3, F4. simplify_eq.
  exists r1, m0, m1. split; [done|]. split.
  { destruct (matches r1) as [|? [|? [|? ?]]]; simplify_eq/=; try done. }
  rewrite Hp0, Hp1. rewrite !filter_cons_True, filter_nil by done.
  simpl. by rewrite S1, S2, S3, S4, S5, S6, S7, S8.
Qed.

(** C4, amended.  For every roster of [N >= 3] seeded entrants sorted
    ascending by seed, a bracket is generated and, with [m = ceil(N/4)] and
    the roster padded with BYE entrants to length [4m], Upper Round 1 match
    [i] consists exactly of the padded entrants at positions [i],
    [2m-1-i], [2m+i], [4m-1-i], BYE slots dropped; for a roster of real
    entrants with the seeds 1 to 8 this gives two matches, seeds 1, 4, 5, 8
    and seeds 2, 3, 6, 7. *)
Theorem serpentine_placement roster :
  3 ≤ length roster → seeded roster → ascending_by_seed roster →
  ∃ b, generates roster b ∧ serpentine_round1 roster b ∧
       (seed <$> roster = Some <$> [1; 2; 3; 4; 5; 6; 7; 8]%Z →
        Forall (λ p, ¬ is_bye p) roster → round1_of_eight b).
Proof.
  intros Hn Hs Ha.
  destruct (generates_total roster Hs) as [b Hb].
  { intros ->. simpl in Hn. lia. }
  exists b. split; [done|].
  assert (serpentine_round1 roster b) as Hserp.
  { apply first_upper_round_serpentine; [done|].
    rewrite (generates_upper roster b Hb Hs Hn).
    by rewrite stable_sort_sorted. }
  split; [done|]. intros. by eapply serpentine_round1_eight.
Qed.

Lemma roster_of_seeded n : seeded (roster_of n).
Proof.
  apply Forall_forall. intros p Hp. apply list_elem_of_fmap in Hp as (k & -> & _).
  by eexists.
Qed.

Lemma roster_of_ascending n : ascending_by_seed (roster_of n).
Proof.
  unfold ascending_by_seed, roster_of. generalize 1.
  induction n as [|n IH]; intros k; simpl; constructor; [apply IH|].
  destruct n; simpl; constructor.
  unfold seed_le. simpl. apply bool_decide_eq_true_2. lia.
Qed.

Lemma roster_of_real n : Forall (λ p, ¬ is_bye p) (roster_of n).
Proof.
  apply Forall_forall. intros p Hp. apply list_elem_of_fmap in Hp as (k & -> & _).
  unfold is_bye. simpl. intros [=H].
Qed.

(** The eight-entrant bracket of the worked example. *)
Lemma serpentine_placement_eight :
  ∃ b, generates (roster_of 8) b ∧ serpentine_round1 (roster_of 8) b ∧
       round1_of_eight b.
Proof.
  destruct (serpentine_placement (roster_of 8)) as (b & Hg & Hs & He).
  - simpl. lia.
  - apply roster_of_seeded.
  - apply roster_of_ascending.
  - exists b. split; [done|]. split; [done|].
    apply He; [reflexivity|apply roster_of_real].
Defined.

(** C4 as stated fails for a single entrant: no Upper Round 1 is built. *)
Lemma serpentine_placement_single :
  let roster := roster_of 1 in
  1 ≤ length roster ∧ seeded roster ∧ ascending_by_seed roster ∧
  ¬ ∃ b, generates roster b ∧ serpentine_round1 roster b.
Proof.
  split; [simpl; lia|]. split; [apply roster_of_seeded|].
  split; [apply roster_of_ascending|].
  intros (b & Hg & r1 & Hr1 & _). unfold generates in Hg.
  vm_compute in Hg. injection Hg as <-. discriminate Hr1.
Qed.

Lemma join_fmap_fmap {B C} (f : B → C) (ls : list (list B)) :
  mjoin (fmap f <$> ls) = f <$> mjoin ls.
Proof.
  induction ls as [|l ls IH]; [done|]. csimpl. by rewrite fmap_app, IH.
Qed.

(** In a family of lists without repetition overall, an element belongs to
    one member only. *)
Lemma join_NoDup_unique {B} (ls : list (list B)) i j a c x :
  NoDup (mjoin ls) → ls !! i = Some a → ls !! j = Some c →
  x ∈ a → x ∈ c → i = j.
Proof.
  revert i j. induction ls as [|l ls IH]; intros i j Hnd Hi Hj Ha Hc; [done|].
  csimpl in Hnd. apply NoDup_app in Hnd as (_ & Hdisj & Hnd).
  destruct i as [|i], j as [|j]; simplify_eq/=; [done| | |f_equal; by eapply IH].
  - destruct (Hdisj x Ha). apply list_elem_of_join. exists c.
    split; [done|]. by eapply list_elem_of_lookup_2.
  - destruct (Hdisj x Hc). apply list_elem_of_join. exists a.
    split; [done|]. by eapply list_elem_of_lookup_2.
Qed.

Lemma first_upper_round_players round_num l :
  players <$> matches (first_upper_round round_num l)
  = fmap entrant_slot <$> create_serpentine_matches l.
Proof.
  simpl. rewrite fmap_imap. apply list_eq. intros i.
  by rewrite list_lookup_imap, list_lookup_fmap.
Qed.

Lemma first_upper_round_perm round_num l :
  Forall (λ p, ¬ is_bye p) l →
  mjoin (players <$> matches (first_upper_round round_num l)) ≡ₚ entrant_slot <$> l.
Proof.
  intros Hreal. rewrite first_upper_round_players, join_fmap_fmap.
  rewrite create_serpentine_matches_perm.
  replace (filter (λ p, ¬ is_bye p) l) with l; [done|].
  induction Hreal as [|p l Hp _ IH]; [done|].
  by rewrite filter_cons_True, <- IH.
Qed.

(** C2, amended.  For every roster of [N >= 3] seeded real entrants with
    distinct seeds, generating a double-elimination bracket places the
    entrants in Upper Round 1 so that the total count placed equals [N] and
    every entrant appears in exactly one Upper Round 1 match. *)
Theorem generated_round1_places_roster roster :
  3 ≤ length roster → seeded roster →
  Forall (λ p, ¬ is_bye p) roster → NoDup (seed <$> roster) →
  ∃ b, generates roster b ∧ placed_once roster b.
Proof.
  intros Hn Hs Hreal Hnd.
  destruct (generates_total roster Hs) as [b Hb].
  { intros ->. simpl in Hn. lia. }
  exists b. split; [done|].
  set (sorted_players := stable_sort seed_le roster).
  assert (sorted_players ≡ₚ roster) as Hsorted by apply stable_sort_perm.
  exists (first_upper_round 1 sorted_players).
  split; [by apply generates_upper|].
  assert (mjoin (players <$> matches (first_upper_round 1 sorted_players))
          ≡ₚ entrant_slot <$> roster) as Hperm.
  { rewrite first_upper_round_perm, Hsorted; [done|]. by rewrite Hsorted. }
  split; [done|]. split; [by rewrite Hperm, length_fmap|].
  assert (NoDup (entrant_slot <$> roster)) as Hslots.
  { apply (NoDup_fmap_1 seed). by rewrite <- list_fmap_compose. }
  intros e He.
  assert (entrant_slot e ∈ mjoin (players <$> matches (first_upper_round 1 sorted_players)))
    as Hin by (rewrite Hperm; by apply list_elem_of_fmap_2).
  apply list_elem_of_join in Hin as (ps & Hps & Hin).
  apply list_elem_of_lookup in Hin as [i Hi].
  rewrite list_lookup_fmap in Hi.
  destruct (matches (first_upper_round 1 sorted_players) !! i) as [mt|] eqn:Hmt;
    [|done].
  injection Hi as <-. exists i. split; [by exists mt|].
  intros j (mt' & Hmt' & Hin').
  eapply (join_NoDup_unique (players <$> matches (first_upper_round 1 sorted_players)));
    [by rewrite Hperm| | |exact Hps|exact Hin'].
  - by rewrite list_lookup_fmap, Hmt.
  - by rewrite list_lookup_fmap, Hmt'.
Qed.

Lemma roster_of_distinct n : NoDup (seed <$> roster_of n).
Proof.
  unfold roster_of. rewrite <- list_fmap_compose.
  apply NoDup_fmap_2; [|apply NoDup_seq].
  intros j k [=H]. lia.
Qed.

(** The amended C2 on the roster of five: three upper matches are not
    needed, two hold the five entrants. *)
Lemma generated_round1_places_five :
  ∃ b, generates (roster_of 5) b ∧ placed_once (roster_of 5) b.
Proof.
  apply (generated_round1_places_roster (roster_of 5)).
  - simpl. lia.
  - apply roster_of_seeded.
  - apply roster_of_real.
  - apply roster_of_distinct.
Defined.

(** C2 as stated fails for a single entrant: nobody is placed. *)
Lemma generated_round1_misses_single :
  let roster := roster_of 1 in
  1 ≤ length roster ∧ seeded roster ∧ Forall (λ p, ¬ is_bye p) roster ∧
  NoDup (seed <$> roster) ∧
  ¬ ∃ b, generates roster b ∧ placed_once roster b.
Proof.
  split; [simpl; lia|]. split; [apply roster_of_seeded|].
  split; [apply roster_of_real|]. split; [apply roster_of_distinct|].
  intros (b & Hg & r1 & Hr1 & _). unfold generates in Hg.
  vm_compute in Hg. injection Hg as <-. discriminate Hr1.
Qed.

(** ** Python indexing *)

Lemma py_index_lt {B} (l : list B) i k : py_index l i = Some k → k < length l.
Proof.
  unfold py_index. intros H. repeat case_bool_decide; simplify_eq; lia.
Qed.

Lemma py_index_nonneg {B} (l : list B) i k :
  (0 ≤ i)%Z → py_index l i = Some k → k = Z.to_nat i.
Proof.
  unfold py_index. intros Hi H. repeat case_bool_decide; simplify_eq; lia.
Qed.

Lemma py_index_length {B C} (l : list B) (l' : list C) i :
  length l = length l' → py_index l i = py_index l' i.
Proof. unfold py_index. by intros ->. Qed.

Lemma py_get_fmap {B C} (g : B → C) (l : list B) i :
  py_get (g <$> l) i = g <$> py_get l i.
Proof.
  unfold py_get. rewrite (py_index_length (g <$> l) l) by apply length_fmap.
  destruct (py_index l i); simpl; [|done]. apply list_lookup_fmap.
Qed.

Lemma py_alter_length {B} (f : B → option B) l i l' :
  py_alter f l i = Some l' → length l' = length l.
Proof.
  unfold py_alter. intros H. simplify_option_eq. apply length_insert.
Qed.

Lemma py_set_length {B} (l : list B) i x l' :
  py_set l i x = Some l' → length l' = length l.
Proof. unfold py_set. intros H. simplify_option_eq. apply length_insert. Qed.

(** What a projection [g] sees does not change when the altered element
    keeps its image. *)
Lemma py_alter_fmap_keep {B C} (g : B → C) (f : B → option B) l i l' :
  (∀ x y, f x = Some y → g y = g x) →
  py_alter f l i = Some l' → g <$> l' = g <$> l.
Proof.
  unfold py_alter. intros Hf H. simplify_option_eq.
  rewrite list_fmap_insert. apply list_insert_id.
  rewrite list_lookup_fmap. erewrite Hf by done.
  by match goal with H : l !! _ = Some _ |- _ => rewrite H end.
Qed.

(** Reading the altered position gives the new element. *)
Lemma py_alter_get {B} (f : B → option B) l i l' :
  py_alter f l i = Some l' → py_get l' i = py_get l i ≫= f.
Proof.
  intros H. pose proof (py_alter_length _ _ _ _ H) as Hlen.
  unfold py_alter, py_get in *.
  rewrite (py_index_length l' l) by done.
  destruct (py_index l i) as [k|] eqn:Hk; simplify_option_eq.
  apply list_lookup_insert_eq. by eapply py_index_lt.
Qed.

(** Reading another position gives the old element. *)
Lemma py_alter_get_ne {B} (f : B → option B) l i j l' :
  py_alter f l i = Some l' → py_index l i ≠ py_index l j →
  py_get l' j = py_get l j.
Proof.
  intros H Hne. pose proof (py_alter_length _ _ _ _ H) as Hlen.
  unfold py_alter, py_get in *.
  rewrite (py_index_length l' l) by done.
  destruct (py_index l i) as [k|] eqn:Hk; simplify_option_eq.
  destruct (py_index l j) as [k'|]; simpl; [|done].
  apply list_lookup_insert_ne. congruence.
Qed.

Lemma py_alter_is_Some {B} (f : B → option B) l i x y :
  py_get l i = Some x → f x = Some y → is_Some (py_alter f l i).
Proof.
  unfold py_alter, py_get. intros Hget Hf.
  destruct (py_index l i) as [k|]; simplify_option_eq. by eexists.
Qed.

(** ** Routing leaves winners and completion flags alone *)

Lemma set_player_outcome slot p mt mt' :
  set_player slot p mt = Some mt' → outcome mt' = outcome mt.
Proof. unfold set_player. intros H. by simplify_option_eq. Qed.

Lemma alter_round_outcomes f m rd rd' :
  (∀ x y, f x = Some y → outcome y = outcome x) →
  alter_round f m rd = Some rd' → round_outcomes rd' = round_outcomes rd.
Proof.
  unfold alter_round, round_outcomes. intros Hf H.
  destruct (py_alter f (matches rd) m) as [ms|] eqn:Hms; simplify_option_eq.
  by erewrite py_alter_fmap_keep.
Qed.

Lemma alter_match_outcomes sd r m f b b' :
  (∀ x y, f x = Some y → outcome y = outcome x) →
  alter_match sd r m f b = Some b' → bracket_outcomes b' = bracket_outcomes b.
Proof.
  unfold alter_match, bracket_outcomes. intros Hf H.
  destruct (py_alter _ (rounds_of sd b) r) as [rs|] eqn:Hrs; simplify_option_eq.
  eapply (py_alter_fmap_keep round_outcomes) in Hrs;
    [|intros ??; by apply alter_round_outcomes].
  destruct sd; simpl in *; by rewrite Hrs.
Qed.

Lemma alter_final_outcomes m f b b' :
  (∀ x y, f x = Some y → outcome y = outcome x) →
  alter_final m f b = Some b' → bracket_outcomes b' = bracket_outcomes b.
Proof.
  unfold alter_final, bracket_outcomes. intros Hf H.
  destruct (alter_round f m (grand_final b)) as [gf|] eqn:Hgf; simplify_option_eq.
  by erewrite (alter_round_outcomes f m (grand_final b) gf).
Qed.

Lemma and_then_keeps c1 c2 :
  keeps_outcomes c1 → keeps_outcomes c2 → keeps_outcomes (c1 ;;; c2).
Proof.
  intros H1 H2 b. unfold and_then. specialize (H1 b).
  destruct (c1 b) as [b' [e|]]; [done|]. simpl in H1. by rewrite H2.
Qed.

Lemma assign_keeps loc slot xs k :
  (∀ f b b', (∀ x y, f x = Some y → outcome y = outcome x) →
             loc f b = Some b' → bracket_outcomes b' = bracket_outcomes b) →
  keeps_outcomes (assign loc slot xs k).
Proof.
  intros Hloc b. unfold assign.
  destruct (py_get xs k ≫= _) as [b'|] eqn:H; [|done]. simpl.
  destruct (py_get xs k) as [x|]; [|done]. simpl in H.
  eapply Hloc; [|exact H]. intros ??. apply set_player_outcome.
Qed.

Lemma assign_final_keeps m slot xs k : keeps_outcomes (assign (alter_final m) slot xs k).
Proof. apply assign_keeps. intros ???. apply alter_final_outcomes. Qed.

Lemma assign_match_keeps sd r m slot xs k :
  keeps_outcomes (assign (alter_match sd r m) slot xs k).
Proof. apply assign_keeps. intros ???. apply alter_match_outcomes. Qed.

Lemma assign_pair_match_keeps sd r m slot xs :
  keeps_outcomes (assign_pair (alter_match sd r m) slot xs).
Proof. apply and_then_keeps; apply assign_match_keeps. Qed.

Lemma advance_players_keeps ws ls sd r m :
  keeps_outcomes (advance_players ws ls sd r m).
Proof.
  intros b. unfold advance_players.
  destruct (get_final 0 b); [|done]. destruct sd.
  - apply and_then_keeps.
    + case_bool_decide; [apply and_then_keeps; apply assign_final_keeps|].
      apply assign_pair_match_keeps.
    + intros b1. case_bool_decide; [apply assign_pair_match_keeps|done].
  - case_bool_decide.
    { apply (and_then_keeps _ _ (assign_final_keeps _ _ _ _)
                            (assign_final_keeps _ _ _ _)). }
    destruct (py_get (lower b) _); [|done].
    case_bool_decide; [apply assign_pair_match_keeps|done].
Qed.

Lemma get_match_outcome sd r m b b' :
  bracket_outcomes b' = bracket_outcomes b →
  outcome <$> get_match sd r m b' = outcome <$> get_match sd r m b.
Proof.
  intros H.
  assert (∀ c, outcome <$> get_match sd r m c
             = py_get (round_outcomes <$> rounds_of sd c) r ≫= λ ro, py_get ro.2 m) as Hc.
  { intros c. unfold get_match. rewrite py_get_fmap.
    destruct (py_get (rounds_of sd c) r) as [rd|]; simpl; [|done].
    by rewrite py_get_fmap. }
  rewrite !Hc. unfold bracket_outcomes in H. destruct sd; simpl; congruence.
Qed.

Lemma get_final_outcome m b b' :
  bracket_outcomes b' = bracket_outcomes b →
  outcome <$> get_final m b' = outcome <$> get_final m b.
Proof.
  intros H. unfold get_final. rewrite <- !py_get_fmap.
  unfold bracket_outcomes, round_outcomes in H. congruence.
Qed.

(** ** Reading a match after writing it *)

Lemma alter_round_get f m rd rd' :
  alter_round f m rd = Some rd' →
  py_get (matches rd') m = py_get (matches rd) m ≫= f.
Proof.
  unfold alter_round. intros H.
  destruct (py_alter f (matches rd) m) as [ms|] eqn:Hms; simplify_option_eq.
  by apply py_alter_get.
Qed.

Lemma alter_match_get sd r m f b b' :
  alter_match sd r m f b = Some b' →
  get_match sd r m b' = get_match sd r m b ≫= f.
Proof.
  unfold alter_match, get_match. intros H.
  destruct (py_alter _ (rounds_of sd b) r) as [rs|] eqn:Hrs; simplify_option_eq.
  replace (rounds_of sd (with_rounds sd rs b)) with rs by (by destruct sd).
  rewrite (py_alter_get _ _ _ _ Hrs).
  destruct (py_get (rounds_of sd b) r) as [rd|]; simpl; [|done].
  destruct (alter_round f m rd) as [rd'|] eqn:Hrd; simpl.
  - by apply alter_round_get.
  - unfold alter_round in Hrd. unfold py_alter, py_get in *.
    destruct (py_index (matches rd) m); simplify_option_eq; done.
Qed.

Lemma alter_match_is_Some sd r m f b mt mt' :
  get_match sd r m b = Some mt → f mt = Some mt' →
  is_Some (alter_match sd r m f b).
Proof.
  unfold get_match, alter_match. intros Hget Hf.
  destruct (py_get (rounds_of sd b) r) as [rd|] eqn:Hrd; [|done].
  simpl in Hget.
  destruct (py_alter_is_Some f (matches rd) m mt mt' Hget Hf) as [ms Hms].
  destruct (py_alter_is_Some (alter_round f m) (rounds_of sd b) r rd
              (mkRound (round_name rd) ms) Hrd) as [rs Hrs].
  { unfold alter_round. by rewrite Hms. }
  by rewrite Hrs.
Qed.

Lemma alter_final_get m f b b' :
  alter_final m f b = Some b' → get_final m b' = get_final m b ≫= f.
Proof.
  unfold alter_final, get_final. intros H.
  destruct (alter_round f m (grand_final b)) as [gf|] eqn:Hgf; simplify_option_eq.
  by apply alter_round_get.
Qed.

Lemma alter_final_is_Some m f b mt mt' :
  get_final m b = Some mt → f mt = Some mt' → is_Some (alter_final m f b).
Proof.
  unfold get_final, alter_final, alter_round. intros Hget Hf.
  destruct (py_alter_is_Some f _ m mt mt' Hget Hf) as [ms ->]. by eexists.
Qed.

(** ** Qualification *)

Lemma score_desc_total p q : score_desc p q = true ∨ score_desc q p = true.
Proof.
  unfold score_desc. destruct (decide (get_score q ≤ get_score p)%Z).
  - left. by apply bool_decide_eq_true_2.
  - right. apply bool_decide_eq_true_2. lia.
Qed.

Lemma score_desc_trans p q r :
  score_desc p q = true → score_desc q r = true → score_desc p r = true.
Proof.
  unfold score_desc. rewrite !bool_decide_eq_true. lia.
Qed.

Lemma StronglySorted_weaken {B} (R R' : B → B → Prop) l :
  (∀ x y, R x y → R' x y) → StronglySorted R l → StronglySorted R' l.
Proof.
  intros HR. induction 1 as [|x l _ IH Hx]; constructor; [done|].
  eapply Forall_impl; [exact Hx|]. intros y. apply HR.
Qed.

Lemma ranked_sorted ps :
  StronglySorted (λ p q, get_score q ≤ get_score p)%Z (ranked ps).
Proof.
  eapply StronglySorted_weaken;
    [|apply (stable_sort_strongly score_desc score_desc_total score_desc_trans)].
  intros p q. unfold score_desc. by rewrite bool_decide_eq_true.
Qed.

Lemma ranked_perm ps : ranked ps ≡ₚ filter is_real ps.
Proof. apply stable_sort_perm. Qed.

(** In a list sorted by descending score, the entrants at or above a
    threshold form a prefix. *)
Lemma filter_threshold_prefix (t : Z) l :
  StronglySorted (λ p q, get_score q ≤ get_score p)%Z l →
  filter (λ p, t ≤ get_score p)%Z l
  = take (length (filter (λ p, t ≤ get_score p)%Z l)) l.
Proof.
  induction 1 as [|p l Hl IH Hp]; [done|].
  rewrite filter_cons. case_decide as Ht; simpl; [by rewrite <- IH|].
  replace (filter (λ p, t ≤ get_score p)%Z l) with (@nil Player); [done|].
  symmetry. clear IH Hl. induction Hp as [|q l Hq _ IH']; [done|].
  rewrite filter_cons_False by lia. apply IH'.
Qed.

Lemma qualified_perm t ps :
  qualified t ps ≡ₚ filter (λ p, is_real p ∧ (t ≤ get_score p)%Z) ps.
Proof.
  unfold qualified. rewrite (filter_perm _ _ _ (ranked_perm ps)).
  rewrite list_filter_filter.
  erewrite list_filter_iff; [done|]. simpl. tauto.
Qed.

Lemma qualified_top_two t ps :
  2 ≤ length (qualified t ps) → take 2 (qualified t ps) = take 2 (ranked ps).
Proof.
  intros Hq. unfold qualified in *.
  rewrite (filter_threshold_prefix t (ranked ps)) by apply ranked_sorted.
  rewrite take_take. f_equal. lia.
Qed.

Lemma take_two_ranked_top ps :
  2 ≤ length (ranked ps) → top_two_by_score (take 2 (ranked ps)) ps.
Proof.
  intros Hlen. split; [rewrite length_take; lia|].
  exists (drop 2 (ranked ps)). rewrite take_drop.
  split; [apply ranked_perm|apply ranked_sorted].
Qed.

(** What [resolved] decides, in terms of the number of qualifying real
    entrants. *)
Lemma resolved_outcome (t : Z) scores mt :
  let ps := apply_scores (players mt) scores in
  let qualifiers := filter (λ p, is_real p ∧ (t ≤ get_score p)%Z) ps in
  let mt' := resolved t scores mt in
  (2 ≤ length qualifiers →
     winners mt' = take 2 (ranked ps) ∧ top_two_by_score (winners mt') ps ∧
     is_complete mt' = true) ∧
  (length qualifiers < 2 → winners mt' = [] ∧ is_complete mt' = false) ∧
  (length qualifiers = 2 → winners mt' ≡ₚ qualifiers ∧ is_complete mt' = true).
Proof.
  intros ps qualifiers mt'.
  assert (length (qualified t ps) = length qualifiers) as Hlen
    by (by rewrite qualified_perm).
  assert (length (qualified t ps) ≤ length (ranked ps)) as Hle
    by apply length_filter.
  subst mt'. unfold resolved. fold ps. rewrite Hlen.
  case_bool_decide as Hq; simpl; (split; [|split]); try lia; intros Hn.
  - rewrite qualified_top_two by lia. split; [done|]. split; [|done].
    apply take_two_ranked_top. lia.
  - split; [|done]. rewrite take_ge by lia. apply qualified_perm.
  - done.
Qed.

Lemma update_match_elim_state rq s b :
  bracket s = Some (DoubleElim b) → req_bracket_type rq ≠ "swiss" →
  update_match rq s
  = (with_bracket (DoubleElim (update_match_elim rq (config s) b).1) s,
     (update_match_elim rq (config s) b).2).
Proof.
  intros Hb Hbt. unfold update_match.
  rewrite bool_decide_eq_false_2, Hb by done.
  by destruct (update_match_elim rq (config s) b).
Qed.

(** After the call, the addressed match carries the outcome [resolved]
    computed, whatever routing did afterwards. *)
Lemma update_match_elim_outcome rq cfg b mt :
  match_at rq b = Some mt →
  ∃ mt', match_at rq (update_match_elim rq cfg b).1 = Some mt' ∧
         outcome mt' = outcome (resolved (threshold rq cfg) (req_scores rq) mt).
Proof.
  unfold match_at, update_match_elim, threshold.
  case_bool_decide as Hgf; intros Hat.
  - rewrite Hat. simpl.
    destruct (alter_final_is_Some (req_match_index rq)
                (λ _, Some (resolved (points_for_finals cfg) (req_scores rq) mt))
                b mt _ Hat eq_refl) as [b' Hb'].
    rewrite Hb'. simpl. eexists. split; [|done].
    by rewrite (alter_final_get _ _ _ _ Hb'), Hat.
  - destruct (side_of (req_bracket_type rq)) as [sd|]; [|done]. simpl in Hat.
    rewrite Hat.
    set (mt1 := resolved (points_to_advance cfg) (req_scores rq) mt).
    destruct (alter_match_is_Some sd (req_round_index rq) (req_match_index rq)
                (λ _, Some mt1) b mt _ Hat eq_refl) as [b1 Hb1].
    rewrite Hb1.
    assert (get_match sd (req_round_index rq) (req_match_index rq) b1 = Some mt1)
      as Hget by (by rewrite (alter_match_get _ _ _ _ _ _ Hb1), Hat).
    destruct (is_complete mt1); [|by exists mt1].
    pose proof (advance_players_keeps (entrant_slot <$> winners mt1)
      (entrant_slot <$> losers_of (players mt1) (winners mt1)) sd
      (req_round_index rq) (req_match_index rq) b1) as Hkeep.
    destruct (advance_players _ _ _ _ _ b1) as [b2 [e|]]; simpl in *;
      apply (get_match_outcome sd (req_round_index rq) (req_match_index rq)) in Hkeep;
      rewrite Hget in Hkeep;
      (destruct (get_match sd _ _ b2) as [mt2|]; [|done]);
      exists mt2; (split; [done|]); unfold outcome in *; simpl in *; congruence.
Qed.

(** C6.  On a double-elimination bracket, for the match a request
    addresses (upper, lower or grand final) and the scores it applies: if
    at least two real entrants score at or above the threshold
    ([points_to_advance], or [points_for_finals] for the grand final), the
    top two by descending score become the winners and the match is
    complete; if fewer than two qualify, one qualifier included, the
    winners are cleared and the match is not complete; with exactly two
    qualifiers, those two are the winners whatever the other scores. *)
Theorem resolve_qualification s b rq mt :
  bracket s = Some (DoubleElim b) →
  req_bracket_type rq ≠ "swiss" →
  match_at rq b = Some mt →
  ∃ b' mt',
    bracket (update_match rq s).1 = Some (DoubleElim b') ∧
    match_at rq b' = Some mt' ∧
    qualification_rule (threshold rq (config s))
      (apply_scores (players mt) (req_scores rq)) mt'.
Proof.
  intros Hb Hbt Hat. rewrite (update_match_elim_state rq s b Hb Hbt). simpl.
  destruct (update_match_elim_outcome rq (config s) b mt Hat) as (mt' & Hat' & Hout).
  exists (update_match_elim rq (config s) b).1, mt'.
  split; [done|]. split; [done|].
  injection Hout as _ Hw Hc. unfold qualification_rule. rewrite Hw, Hc.
  destruct (resolved_outcome (threshold rq (config s)) (req_scores rq) mt)
    as (H2 & H1 & He).
  split; [|split]; [|done|done].
  intros Hn. destruct (H2 Hn) as (_ & ? & ?). done.
Qed.

(** The amended C6 statement on the eight-entrant bracket: Upper Round 1,
    match 1, scores 80, 75, 10, 90. *)
Lemma resolve_qualification_eight :
  let rq := resolve_request "upper" 0 0 [80; 75; 10; 90]%Z in
  ∃ b' mt',
    bracket (update_match rq (sample_state 8)).1 = Some (DoubleElim b') ∧
    match_at rq b' = Some mt' ∧
    seed <$> winners mt' = [Some 8; Some 1]%Z ∧ is_complete mt' = true.
Proof.
  intros rq.
  destruct (resolve_qualification (sample_state 8) (sample_bracket 8) rq
              (default (mkMatch EmptyString [] [] false) (match_at rq (sample_bracket 8))))
    as (b' & mt' & Hb' & Hmt' & Hrule).
  - reflexivity.
  - discriminate.
  - vm_compute. reflexivity.
  - exists b', mt'. split; [done|]. split; [done|].
    vm_compute in Hb'. injection Hb' as <-.
    vm_compute in Hmt'. injection Hmt' as <-. split; reflexivity.
Defined.

(** ** The routed match is not the resolved one *)

Lemma alter_final_get_match m' f b b' sd r m :
  alter_final m' f b = Some b' → get_match sd r m b' = get_match sd r m b.
Proof.
  unfold alter_final. intros H.
  destruct (alter_round f m' (grand_final b)); simplify_option_eq.
  by destruct sd.
Qed.

Lemma alter_match_get_other_side sd' r' m' f b b' sd r m :
  sd ≠ sd' → alter_match sd' r' m' f b = Some b' →
  get_match sd r m b' = get_match sd r m b.
Proof.
  unfold alter_match. intros Hsd H.
  destruct (py_alter _ (rounds_of sd' b) r'); simplify_option_eq.
  by destruct sd, sd'.
Qed.

Lemma alter_match_get_other_round sd r' m' f b b' r m :
  (0 ≤ r)%Z → (0 ≤ r')%Z → r ≠ r' → alter_match sd r' m' f b = Some b' →
  get_match sd r m b' = get_match sd r m b.
Proof.
  unfold alter_match, get_match. intros Hr Hr' Hne H.
  destruct (py_alter _ (rounds_of sd b) r') as [rs|] eqn:Hrs; simplify_option_eq.
  replace (rounds_of sd (with_rounds sd rs b)) with rs by (by destruct sd).
  rewrite (py_alter_get_ne _ _ _ r _ Hrs); [done|].
  unfold py_alter in Hrs.
  destruct (py_index (rounds_of sd b) r') as [k'|] eqn:Hk'; [|done].
  apply py_index_nonneg in Hk'; [|done].
  destruct (py_index (rounds_of sd b) r) as [k|] eqn:Hk; [|done].
  apply py_index_nonneg in Hk; [|done]. intros [=]. lia.
Qed.

Lemma and_then_keeps_match sd r m c1 c2 :
  keeps_match sd r m c1 → keeps_match sd r m c2 → keeps_match sd r m (c1 ;;; c2).
Proof.
  intros H1 H2 b. unfold and_then. specialize (H1 b).
  destruct (c1 b) as [b' [e|]]; [done|]. simpl in H1. by rewrite H2.
Qed.

Lemma assign_keeps_match sd r m loc slot xs k :
  (∀ f b b', loc f b = Some b' → get_match sd r m b' = get_match sd r m b) →
  keeps_match sd r m (assign loc slot xs k).
Proof.
  intros Hloc b. unfold assign.
  destruct (py_get xs k ≫= _) as [b'|] eqn:H; [|done]. simpl.
  destruct (py_get xs k) as [x|]; [|done]. simpl in H. by eapply Hloc.
Qed.

Lemma assign_pair_keeps_match sd r m loc slot xs :
  (∀ f b b', loc f b = Some b' → get_match sd r m b' = get_match sd r m b) →
  keeps_match sd r m (assign_pair loc slot xs).
Proof. intros. apply and_then_keeps_match; by apply assign_keeps_match. Qed.

(** Routing out of a match at a non-negative round index writes to other
    matches only. *)
Lemma advance_players_keeps_source ws ls sd r m :
  (0 ≤ r)%Z → keeps_match sd r m (advance_players ws ls sd r m).
Proof.
  intros Hr b. unfold advance_players.
  destruct (get_final 0 b); [|done]. destruct sd.
  - apply and_then_keeps_match.
    + case_bool_decide.
      * apply and_then_keeps_match; apply assign_keeps_match;
          intros ???; apply alter_final_get_match.
      * apply assign_pair_keeps_match. intros ???.
        apply alter_match_get_other_round; lia.
    + intros b1. case_bool_decide; [|done].
      apply assign_pair_keeps_match. intros ???.
      by apply alter_match_get_other_side.
  - case_bool_decide.
    { apply (and_then_keeps_match Lower r m); apply assign_keeps_match;
        intros ???; apply alter_final_get_match. }
    destruct (py_get (lower b) _); [|done].
    case_bool_decide; [|done].
    apply assign_pair_keeps_match. intros ???.
    apply alter_match_get_other_round; lia.
Qed.

(** ** Resolving twice *)

Lemma apply_scores_twice ps scores :
  apply_scores (apply_scores ps scores) scores = apply_scores ps scores.
Proof.
  revert scores. induction ps as [|p ps IH]; intros [|v scores]; simpl; try done.
  by rewrite IH.
Qed.

Lemma resolved_twice t scores mt :
  resolved t scores (resolved t scores mt) = resolved t scores mt.
Proof.
  assert (players (resolved t scores mt) = apply_scores (players mt) scores
          ∧ match_id (resolved t scores mt) = match_id mt) as [Hp Hi].
  { unfold resolved. by case_bool_decide. }
  unfold resolved at 1. rewrite Hp, Hi, apply_scores_twice.
  unfold resolved. by case_bool_decide.
Qed.

(** The addressed match after the call is the resolved one. *)
Lemma update_match_elim_match rq cfg b :
  req_bracket_type rq = "grand_final" ∨ (0 ≤ req_round_index rq)%Z →
  match_at rq (update_match_elim rq cfg b).1
  = resolved (threshold rq cfg) (req_scores rq) <$> match_at rq b.
Proof.
  intros Hpos. unfold match_at, update_match_elim, threshold.
  case_bool_decide as Hgf.
  - destruct (get_final (req_match_index rq) b) as [mt|] eqn:Hat; simpl; [|by rewrite Hat].
    destruct (alter_final_is_Some (req_match_index rq)
                (λ _, Some (resolved (points_for_finals cfg) (req_scores rq) mt))
                b mt _ Hat eq_refl) as [b' Hb'].
    rewrite Hb'. simpl. by rewrite (alter_final_get _ _ _ _ Hb'), Hat.
  - destruct Hpos as [?|Hr]; [done|].
    destruct (side_of (req_bracket_type rq)) as [sd|]; [|done]. simpl.
    destruct (get_match sd (req_round_index rq) (req_match_index rq) b)
      as [mt|] eqn:Hat; simpl; [|by rewrite Hat].
    set (mt1 := resolved (points_to_advance cfg) (req_scores rq) mt).
    destruct (alter_match_is_Some sd (req_round_index rq) (req_match_index rq)
                (λ _, Some mt1) b mt _ Hat eq_refl) as [b1 Hb1].
    rewrite Hb1.
    assert (get_match sd (req_round_index rq) (req_match_index rq) b1 = Some mt1)
      as Hget by (by rewrite (alter_match_get _ _ _ _ _ _ Hb1), Hat).
    destruct (is_complete mt1); [|done].
    pose proof (advance_players_keeps_source (entrant_slot <$> winners mt1)
      (entrant_slot <$> losers_of (players mt1) (winners mt1)) sd
      (req_round_index rq) (req_match_index rq) Hr b1) as Hkeep.
    destruct (advance_players _ _ _ _ _ b1) as [b2 [e|]]; simpl in *; congruence.
Qed.

(** C9, amended.  On a double-elimination bracket, for an upper or lower
    position with a non-negative round index or a grand-final position,
    and any score list, resolving twice with the same input leaves the
    addressed match as resolving once does: the same [is_complete], the
    same [winners]. *)
Theorem resolve_twice_elim s b rq :
  bracket s = Some (DoubleElim b) →
  req_bracket_type rq ≠ "swiss" →
  req_bracket_type rq = "grand_final" ∨ (0 ≤ req_round_index rq)%Z →
  ∃ b1 b2,
    bracket (update_match rq s).1 = Some (DoubleElim b1) ∧
    bracket (update_match rq (update_match rq s).1).1 = Some (DoubleElim b2) ∧
    match_at rq b2 = match_at rq b1 ∧
    is_complete <$> match_at rq b2 = is_complete <$> match_at rq b1 ∧
    winners <$> match_at rq b2 = winners <$> match_at rq b1.
Proof.
  intros Hb Hbt Hpos.
  set (b1 := (update_match_elim rq (config s) b).1).
  assert (bracket (update_match rq s).1 = Some (DoubleElim b1)) as Hb1
    by (by rewrite (update_match_elim_state rq s b Hb Hbt)).
  assert (config (update_match rq s).1 = config s) as Hcfg
    by (by rewrite (update_match_elim_state rq s b Hb Hbt)).
  set (b2 := (update_match_elim rq (config s) b1).1).
  assert (bracket (update_match rq (update_match rq s).1).1 = Some (DoubleElim b2))
    as Hb2.
  { rewrite (update_match_elim_state rq _ b1 Hb1 Hbt). simpl. by rewrite Hcfg. }
  assert (match_at rq b2 = match_at rq b1) as Heq.
  { unfold b2, b1. rewrite !update_match_elim_match by done.
    destruct (match_at rq b) as [mt|]; simpl; [|done].
    by rewrite resolved_twice. }
  exists b1, b2. by rewrite Heq.
Qed.

(** The amended C9 statement on the eight-entrant bracket. *)
Lemma resolve_twice_eight :
  let rq := resolve_request "upper" 0 0 [80; 75; 10; 90]%Z in
  ∃ b1 b2,
    bracket (update_match rq (sample_state 8)).1 = Some (DoubleElim b1) ∧
    bracket (update_match rq (update_match rq (sample_state 8)).1).1
      = Some (DoubleElim b2) ∧
    match_at rq b2 = match_at rq b1 ∧
    is_complete <$> match_at rq b2 = is_complete <$> match_at rq b1 ∧
    winners <$> match_at rq b2 = winners <$> match_at rq b1.
Proof.
  intros rq.
  apply (resolve_twice_elim (sample_state 8) (sample_bracket 8) rq).
  - reflexivity.
  - discriminate.
  - right. simpl. lia.
Defined.

(** C9 as stated fails on a Swiss bracket: the scores are applied by slot
    position and the first call re-orders the slots, so the second call
    gives the scores to other entrants and flags other winners. *)
Lemma resolve_twice_swiss_differs :
  let rq := swiss_request "SWISS-R1-M1" [1; 3; 2; 0]%Z in
  let s1 := (update_match rq sample_swiss_state).1 in
  let s2 := (update_match rq s1).1 in
  (update_match rq sample_swiss_state).2 = Success ∧
  (update_match rq s1).2 = Success ∧
  flagged_seeds <$> swiss_match_of "SWISS-R1-M1" s1 = Some [Some 2; Some 3]%Z ∧
  flagged_seeds <$> swiss_match_of "SWISS-R1-M1" s2 = Some [Some 3; Some 1]%Z.
Proof. vm_compute. done. Qed.

(** ** Advancement router *)



Lemma alter_match_rounds_length sd r m f b b' sd' :
  alter_match sd r m f b = Some b' →
  length (rounds_of sd' b') = length (rounds_of sd' b).
Proof.
  unfold alter_match. intros H.
  destruct (py_alter _ (rounds_of sd b) r) as [rs|] eqn:Hrs; simplify_option_eq.
  apply py_alter_length in Hrs. destruct sd, sd'; simpl in *; congruence.
Qed.



Lemma place_final_is_Some d x0 x1 b b' :
  place d x0 x1 b = Some b' → is_Some (get_final 0 b) → is_Some (get_final 0 b').
Proof.
  intros H [gf Hgf].
  assert (∀ sd r m f c c', alter_match sd r m f c = Some c' →
            get_final 0 c' = get_final 0 c) as Hm.
  { intros sd r m f c c' Hc. unfold alter_match in Hc.
    destruct (py_alter _ (rounds_of sd c) r); simplify_option_eq. by destruct sd. }
  assert (∀ f c c', alter_final 0 f c = Some c' →
            is_Some (get_final 0 c) → is_Some (get_final 0 c')) as Hf.
  { intros f c c' Hc [x Hx]. rewrite (alter_final_get _ _ _ _ Hc), Hx. simpl.
    unfold alter_final, alter_round, py_alter, get_final, py_get in *.
    destruct (py_index (matches (grand_final c)) 0); simplify_option_eq. by eexists. }
  destruct d as [sd0 r m s|s|]; simpl in H; simplify_option_eq; try by eexists.
  - erewrite Hm, Hm by done. by eexists.
  - eapply Hf; [done|]. eapply Hf; [done|]. by eexists.
Qed.




(** C1 on the bracket generated for eight entrants.  The losers of Upper
    Round 2, match 1 and the winners of Lower Round 1, match 1 are both
    written to slots 0 and 1 of Lower Round 2, match 1: whichever pair is
    routed second replaces the first. *)
Theorem router_double_write w0 w1 l0 l1 x0 x1 :
  let b := sample_bracket 8 in
  let from_upper := advance_players [w0; w1] [l0; l1] Upper 1 0 b in
  let from_lower := advance_players [x0; x1] [] Lower 0 0 from_upper.1 in
  generates (roster_of 8) b ∧
  is_Some (get_match Upper 1 0 b) ∧ is_Some (get_match Lower 0 0 b) ∧
  losers_destination b Upper 1 0 = InMatch Lower 1 0 0 ∧
  winners_destination b Lower 0 0 = InMatch Lower 1 0 0 ∧
  from_upper.2 = None ∧ from_lower.2 = None ∧
  players <$> get_match Lower 1 0 from_upper.1
    = Some [l0; l1; TBD_slot; TBD_slot] ∧
  players <$> get_match Lower 1 0 from_lower.1
    = Some [x0; x1; TBD_slot; TBD_slot].
Proof. vm_compute. repeat split; eauto. Qed.

(** The other half of C1 fails as well: in the bracket generated for nine
    entrants, Upper Round 1, match 2 has no destination for its second
    winner (Upper Round 2, match 1 has three slots). *)
Lemma router_orphan_slot w0 w1 l0 l1 :
  let b := sample_bracket 9 in
  let out := advance_players [w0; w1] [l0; l1] Upper 0 1 b in
  generates (roster_of 9) b ∧ is_Some (get_match Upper 0 1 b) ∧
  winners_destination b Upper 0 1 = InMatch Upper 1 0 2 ∧
  length <$> (players <$> get_match Upper 1 0 b) = Some 3 ∧
  out.2 = Some IndexError.
Proof. vm_compute. repeat split; eauto. Qed.

(** ** Failed calls *)

(** C3 as stated fails on the bracket generated for three entrants.
    Resolving Upper Round 1, match 1 with the scores 80, 75, 10 is answered
    as invalid data (the single loser cannot fill two slots), yet the
    bracket keeps the scores, the winners, the completion flag, the winners
    in the grand final and the loser in Lower Round 1. *)
Lemma failed_resolve_keeps_writes :
  let rq := resolve_request "upper" 0 0 [80; 75; 10]%Z in
  let s := sample_state 3 in
  let out := update_match rq s in
  generates (roster_of 3) (sample_bracket 3) ∧
  out.2 = invalid_data ∧ out.2 ≠ Success ∧ out.1 ≠ s ∧
  ∃ b', bracket out.1 = Some (DoubleElim b') ∧
    (λ mt, score <$> players mt) <$> get_match Upper 0 0 b'
      = Some [Some 80; Some 75; Some 10]%Z ∧
    (λ mt, seed <$> winners mt) <$> get_match Upper 0 0 b' = Some [Some 1; Some 2]%Z ∧
    is_complete <$> get_match Upper 0 0 b' = Some true ∧
    (λ mt, seed <$> players mt) <$> get_final 0 b'
      = Some [Some 1; Some 2; None; None]%Z ∧
    (λ mt, seed <$> players mt) <$> get_match Lower 0 0 b'
      = Some [Some 3; None; None; None]%Z.
Proof.
  vm_compute. repeat split; try done. eexists. repeat split; reflexivity.
Qed.

(** The calls that are rejected before anything is written. *)
Lemma go_back_swiss_failure_untouched s :
  (go_back_swiss s).2 ≠ Success → (go_back_swiss s).1 = s.
Proof.
  unfold go_back_swiss. destruct (bracket s) as [[b|b]|]; try done;
    case_bool_decide; try done.
  case_bool_decide; [done|]. by destruct (history b !! _).
Qed.

Lemma advance_swiss_response b msg : (advance_swiss b).2 ≠ BadRequest msg.
Proof.
  unfold advance_swiss.
  repeat (case_bool_decide || destruct (finalize_all _) as [? [?|]]
          || destruct (finalize_groups _) as [? [?|]]
          || destruct (regroup_round2 _) || destruct (regroup_groups _ _));
    simpl; discriminate.
Qed.

Lemma advance_swiss_stage_rejected_untouched s msg :
  (advance_swiss_stage s).2 = BadRequest msg → (advance_swiss_stage s).1 = s.
Proof.
  unfold advance_swiss_stage. destruct (bracket s) as [[b|b]|]; try done;
    case_bool_decide; try done.
  pose proof (advance_swiss_response b msg) as Hrsp.
  by destruct (advance_swiss b).
Qed.

Lemma update_match_unaddressed_untouched rq s :
  ¬ addresses rq s → (update_match rq s).2 ≠ Success ∧ (update_match rq s).1 = s.
Proof.
  unfold addresses, update_match. intros Hna.
  destruct (bracket s) as [[b|b]|] eqn:Hb; case_bool_decide as Hbt; try done.
  unfold update_match_elim, match_at in *.
  assert (with_bracket (DoubleElim b) s = s) as Hs
    by (destruct s; simpl in *; by subst).
  case_bool_decide.
  - destruct (get_final (req_match_index rq) b) eqn:Hat; simpl; [|by rewrite Hs].
    destruct Hna. split; [done|by eexists].
  - destruct (side_of (req_bracket_type rq)) as [sd|]; simpl in *; [|by rewrite Hs].
    destruct (get_match sd _ _ b) eqn:Hat; simpl; [|by rewrite Hs].
    destruct Hna. split; [done|by eexists].
Qed.

(** C3, amended.  A [go_back_swiss] call that fails (wrong bracket type,
    round 1, missing snapshot), an [advance_swiss_stage] call rejected as
    an invalid state (no bracket, or a bracket type other than Swiss) and
    an [update_match] call that fails because its bracket type and indices
    address no match of the bracket leave the state exactly as it was. *)
Theorem rejected_calls_leave_state s :
  ((go_back_swiss s).2 ≠ Success → (go_back_swiss s).1 = s) ∧
  (∀ msg, (advance_swiss_stage s).2 = BadRequest msg →
          (advance_swiss_stage s).1 = s) ∧
  (∀ rq, ¬ addresses rq s →
         (update_match rq s).2 ≠ Success ∧ (update_match rq s).1 = s).
Proof.
  split; [apply go_back_swiss_failure_untouched|].
  split; [apply advance_swiss_stage_rejected_untouched|].
  intros rq. apply update_match_unaddressed_untouched.
Qed.

(** The amended C3 statement on the sample states: going back from round
    1, advancing the stage of a double-elimination tournament and resolving
    a match of an upper round that does not exist. *)
Lemma rejected_calls_sample :
  (go_back_swiss sample_swiss_state).1 = sample_swiss_state ∧
  (advance_swiss_stage (sample_state 8)).1 = sample_state 8 ∧
  (update_match (resolve_request "upper" 7 0 [80; 75]%Z) (sample_state 8)).1
    = sample_state 8.
Proof.
  split; [|split].
  - apply (rejected_calls_leave_state sample_swiss_state). vm_compute. discriminate.
  - apply (proj1 (proj2 (rejected_calls_leave_state (sample_state 8)))
             "Invalid state for this action").
    vm_compute. reflexivity.
  - apply (proj2 (proj2 (rejected_calls_leave_state (sample_state 8)))).
    vm_compute. intros [_ [mt Hmt]]. discriminate Hmt.
Defined.

(** ** Swiss resolution *)

Lemma score_seed_desc_total p q :
  score_seed_desc p q = true ∨ score_seed_desc q p = true.
Proof.
  unfold score_seed_desc. rewrite !bool_decide_eq_true. lia.
Qed.

Lemma score_seed_desc_trans p q r :
  score_seed_desc p q = true → score_seed_desc q r = true →
  score_seed_desc p r = true.
Proof.
  unfold score_seed_desc. rewrite !bool_decide_eq_true. lia.
Qed.

Lemma score_seed_desc_order p q :
  score_seed_desc p q = true → swiss_order p q.
Proof.
  unfold score_seed_desc, swiss_order. rewrite bool_decide_eq_true. lia.
Qed.

Lemma sorted_by_score_seed_seeded ps :
  seeded ps → sorted_by_score_seed ps = Ok (stable_sort score_seed_desc ps).
Proof.
  intros Hs. unfold sorted_by_score_seed. rewrite bool_decide_eq_false_2; [done|].
  intros Hex. apply Exists_exists in Hex as (p & Hp & Hnone).
  eapply Forall_forall in Hs; [|exact Hp]. rewrite Hnone in Hs. by destruct Hs.
Qed.

Lemma apply_scores_seeded ps scores : seeded ps → seeded (apply_scores ps scores).
Proof.
  intros Hs. revert scores.
  induction Hs as [|p ps Hp Hps IH]; intros [|v scores]; simpl;
    constructor; try done. apply IH.
Qed.

Lemma mark_winners_lookup ps i :
  mark_winners ps !! i = set_is_winner (bool_decide (i < 2)) <$> ps !! i.
Proof.
  unfold mark_winners.
  apply (list_lookup_imap (λ i, set_is_winner (bool_decide (i < 2)))).
Qed.

(** Sorting and flagging the scored slots meets [swiss_resolved]. *)
Lemma sort_and_mark_resolved scores ps :
  swiss_resolved scores ps
    (mark_winners (stable_sort score_seed_desc (apply_scores ps scores))).
Proof.
  exists (stable_sort score_seed_desc (apply_scores ps scores)).
  split; [apply stable_sort_perm|]. split.
  { eapply StronglySorted_weaken; [apply score_seed_desc_order|].
    apply stable_sort_strongly;
      [apply score_seed_desc_total|apply score_seed_desc_trans]. }
  split; [apply length_imap|].
  intros i q Hq. by rewrite mark_winners_lookup, Hq.
Qed.

Lemma update_match_swiss_state rq s b :
  bracket s = Some (Swiss b) → req_bracket_type rq = "swiss" →
  update_match rq s
  = (with_bracket (Swiss (update_match_swiss rq b).1) s, (update_match_swiss rq b).2).
Proof.
  intros Hb Hbt. unfold update_match.
  rewrite bool_decide_eq_true_2, Hb by done.
  by destruct (update_match_swiss rq b).
Qed.

(** C8.  Resolving a Swiss match re-sorts its slots by score descending
    with seed ascending as the tiebreak, flags exactly the first two
    sorted slots as winners and the rest as not, and touches nothing else
    of the bracket: no other match, no history entry, neither stage nor
    round.  In the sixteen-entrant round-1 bracket, Match 1 holds the
    seeds 1 to 4 and, scored 3, 1, 2, 0, has the seeds 1 and 3 flagged as
    winners, also after the stage is advanced. *)
Theorem swiss_resolve :
  (∀ s b rq k mt,
     bracket s = Some (Swiss b) →
     req_bracket_type rq = "swiss" →
     list_find (λ mt, swiss_id mt = req_match_id rq) (swiss_matches b) = Some (k, mt) →
     seeded (swiss_players mt) →
     ∃ b' mt',
       update_match rq s = (with_bracket (Swiss b') s, Success) ∧
       swiss_matches b' !! k = Some mt' ∧
       swiss_id mt' = swiss_id mt ∧ swiss_name mt' = swiss_name mt ∧
       swiss_resolved (req_scores rq) (swiss_players mt) (swiss_players mt') ∧
       length (swiss_matches b') = length (swiss_matches b) ∧
       (∀ j, j ≠ k → swiss_matches b' !! j = swiss_matches b !! j) ∧
       history b' = history b ∧ stage b' = stage b ∧ round b' = round b) ∧
  swiss_example.
Proof.
  split; [|by vm_compute].
  intros s b rq k mt Hb Hbt Hfind Hs.
  rewrite (update_match_swiss_state rq s b Hb Hbt). unfold update_match_swiss.
  rewrite Hfind.
  rewrite sorted_by_score_seed_seeded by (by apply apply_scores_seeded).
  apply list_find_Some in Hfind as (Hk & _ & _).
  eexists _, _. split; [done|]. simpl.
  split; [apply list_lookup_insert_eq; by eapply lookup_lt_Some|].
  split; [done|]. split; [done|].
  split; [apply sort_and_mark_resolved|].
  split; [apply length_insert|]. split; [|done].
  intros j Hj. by apply list_lookup_insert_ne.
Qed.

(** The general part of C8 on the example bracket. *)
Lemma swiss_resolve_sample :
  let rq := swiss_request "SWISS-R1-M1" [3; 1; 2; 0]%Z in
  ∃ b' mt',
    update_match rq sample_swiss_state
    = (with_bracket (Swiss b') sample_swiss_state, Success) ∧
    swiss_matches b' !! 0 = Some mt' ∧
    seed <$> swiss_players mt' = [Some 1; Some 3; Some 2; Some 4]%Z ∧
    is_winner <$> swiss_players mt'
    = [Some true; Some true; Some false; Some false].
Proof.
  intros rq.
  destruct (proj1 swiss_resolve sample_swiss_state sample_swiss_bracket rq 0
              (default (mkSwissMatch EmptyString EmptyString [] None)
                       (swiss_matches sample_swiss_bracket !! 0)))
    as (b' & mt' & Hupd & Hmt' & _).
  - reflexivity.
  - reflexivity.
  - vm_compute. reflexivity.
  - vm_compute. repeat (constructor; [by eexists|]). constructor.
  - exists b', mt'. split; [done|]. split; [done|].
    vm_compute in Hupd. injection Hupd as <-.
    vm_compute in Hmt'. injection Hmt' as <-. split; reflexivity.
Defined.

(** ** Swiss stage controller *)

Lemma elem_of_3_4 (z : Z) : z ∈ [3; 4]%Z ↔ (z = 3 ∨ z = 4)%Z.
Proof. rewrite !elem_of_cons, elem_of_nil. tauto. Qed.


Lemma restore_players_restored ms :
  same_matches zeroed_and_flagged ms (restore_players ms).
Proof.
  unfold same_matches, restore_players. apply Forall2_fmap_r, Forall_Forall2_diag.
  apply Forall_forall. intros mt _. simpl. repeat split.
  apply Forall2_fmap_r, Forall_Forall2_diag, Forall_forall. intros p _.
  unfold zeroed_and_flagged, ensure_is_winner. by destruct p as [????? [w|]].
Qed.

Lemma advance_swiss_stage_swiss s b :
  bracket s = Some (Swiss b) → bracket_type s = "swiss" →
  advance_swiss_stage s
  = (with_bracket (Swiss (advance_swiss b).1) s, (advance_swiss b).2).
Proof.
  intros Hb Hbt. unfold advance_swiss_stage.
  rewrite Hb, bool_decide_eq_false_2 by (by intros []).
  by destruct (advance_swiss b).
Qed.

(** A successful advance was made on a Swiss bracket of type "swiss". *)
Lemma advance_swiss_stage_success s s1 b :
  bracket s = Some (Swiss b) → advance_swiss_stage s = (s1, Success) →
  bracket_type s = "swiss".
Proof.
  intros Hb. unfold advance_swiss_stage. rewrite Hb.
  case_bool_decide as Hbt; [done|]. intros _.
  by destruct (decide (bracket_type s = "swiss")).
Qed.

(** Leaving one of the rounds 1 to 4 stores the snapshot and increments
    the round. *)
Lemma advance_swiss_snapshot b b1 :
  (1 ≤ round b ≤ 4)%Z → advance_swiss b = (b1, Success) →
  history b1 = <[round_key (round b) := swiss_matches b]> (history b) ∧
  round b1 = (round b + 1)%Z.
Proof.
  intros Hr. unfold advance_swiss.
  repeat (case_bool_decide
          || destruct (finalize_all _) as [? [?|]]
          || destruct (finalize_groups _) as [? [?|]]
          || destruct (regroup_round2 _) || destruct (regroup_groups _ _));
    intros [=]; subst; simpl; try (split; [done|lia]).
  exfalso.
  match goal with H : round b ∉ _ |- _ => apply H end.
  apply elem_of_3_4. lia.
Qed.



Lemma go_back_swiss_rule s b :
  bracket s = Some (Swiss b) → bracket_type s = "swiss" → rollback_rule s b.
Proof.
  intros Hb Hbt. unfold rollback_rule, go_back_swiss.
  rewrite Hb, (bool_decide_eq_false_2 (bracket_type s ≠ "swiss")) by (by intros []).
  split; [|split].
  - intros Hr. by rewrite bool_decide_eq_true_2.
  - intros Hr Hnone. by rewrite bool_decide_eq_false_2, Hnone by lia.
  - intros snapshot Hr Hsnap. rewrite bool_decide_eq_false_2, Hsnap by lia.
    eexists. split; [done|]. simpl.
    split; [apply restore_players_restored|done].
Qed.

(** C7, amended.  [go_back_swiss] requires [round > 1], restores the
    snapshot stored for [round - 1], decrements the round and deletes that
    snapshot; and for a Swiss bracket in one of the rounds 1 to 4 on which
    advancing the stage succeeds, going back afterwards gives the matches
    and the round of the bracket before the advance, except that every
    score is zeroed and a missing winner flag is set to [false]. *)
Theorem advance_then_go_back s b s1 :
  bracket s = Some (Swiss b) →
  advance_swiss_stage s = (s1, Success) →
  (∀ b1, bracket s1 = Some (Swiss b1) → rollback_rule s1 b1) ∧
  ((1 ≤ round b ≤ 4)%Z →
   ∃ b2, go_back_swiss s1 = (with_bracket (Swiss b2) s1, Success) ∧
         same_matches zeroed_and_flagged (swiss_matches b) (swiss_matches b2) ∧
         round b2 = round b ∧
         history b2 = delete (round_key (round b)) (history b)).
Proof.
  intros Hb Hadv.
  pose proof (advance_swiss_stage_success s s1 b Hb Hadv) as Hbt.
  rewrite (advance_swiss_stage_swiss s b Hb Hbt) in Hadv.
  injection Hadv as <- Hrsp.
  split; [intros b1 Hb1; by apply go_back_swiss_rule|].
  intros Hr.
  destruct (advance_swiss b) as [b1 rsp] eqn:Hb1. simpl in *. subst rsp.
  destruct (advance_swiss_snapshot b b1 Hr Hb1) as [Hh Hround].
  destruct (go_back_swiss_rule (with_bracket (Swiss b1) s) b1 eq_refl Hbt)
    as (_ & _ & Hback).
  destruct (Hback (swiss_matches b)) as (b2 & Hgo & Hsame & Hr2 & Hh2 & _).
  { lia. }
  { rewrite Hh, Hround. replace (round b + 1 - 1)%Z with (round b) by lia.
    apply lookup_insert_eq. }
  exists b2. split; [done|]. split; [done|]. split; [lia|].
  rewrite Hh2, Hh, Hround. replace (round b + 1 - 1)%Z with (round b) by lia.
  apply delete_insert_eq.
Qed.

(** The amended C7 statement on the sample Swiss bracket in round 1. *)
Lemma advance_then_go_back_sample :
  let s := sample_swiss_state in
  let b := sample_swiss_bracket in
  let s1 := (advance_swiss_stage s).1 in
  ∃ b2, go_back_swiss s1 = (with_bracket (Swiss b2) s1, Success) ∧
        same_matches zeroed_and_flagged (swiss_matches b) (swiss_matches b2) ∧
        round b2 = round b ∧
        history b2 = delete (round_key (round b)) (history b).
Proof.
  intros s b s1.
  apply (advance_then_go_back s b s1).
  - reflexivity.
  - vm_compute. reflexivity.
  - vm_compute. split; discriminate.
Defined.

(** C7 as stated fails from round 5 on: the advance succeeds without
    incrementing the round, and going back then restores the snapshot of
    round 4 and sets the round to 4. *)
Lemma advance_then_go_back_round_five :
  let s := advanced 4 sample_swiss_state in
  let s1 := (advance_swiss_stage s).1 in
  let s2 := (go_back_swiss s1).1 in
  (advance_swiss_stage s).2 = Success ∧ (go_back_swiss s1).2 = Success ∧
  round (swiss_of s) = 5%Z ∧ round (swiss_of s2) = 4%Z ∧
  (λ mt, length (swiss_players mt)) <$> swiss_matches (swiss_of s) = [4; 4; 4; 0] ∧
  (λ mt, length (swiss_players mt)) <$> swiss_matches (swiss_of s2) = [4; 4; 4; 2] ∧
  ¬ same_matches zeroed_and_flagged (swiss_matches (swiss_of s))
                 (swiss_matches (swiss_of s2)).
Proof.
  repeat (split; [by vm_compute|]).
  intros Hsame.
  assert ((λ mt, length (swiss_players mt)) <$> swiss_matches (swiss_of (advanced 4 sample_swiss_state))
          = (λ mt, length (swiss_players mt)) <$>
              swiss_matches (swiss_of (go_back_swiss (advance_swiss_stage
                (advanced 4 sample_swiss_state)).1).1)) as Hlen.
  { unfold same_matches in Hsame. induction Hsame as [|mt mt' ms ms' (_ & _ & _ & Hps) _ IH];
      [done|]. csimpl. rewrite IH. f_equal. by eapply Forall2_length. }
  vm_compute in Hlen. discriminate Hlen.
Qed.

(** ** Seeds of Swiss entrants *)

(** Every slot of a generated Swiss bracket carries a seed. *)
Lemma generate_swiss_bracket_seeded roster b :
  generate_swiss_bracket roster = Ok (Some b) → all_seeded (swiss_matches b).
Proof.
  unfold generate_swiss_bracket. case_bool_decide; [done|].
  destruct (sorted_by_seed roster) as [sorted_players|]; [|done]. simpl.
  intros [= <-]. simpl.
  assert (∀ seeds, seeded (seeded_in seeds sorted_players)) as Hs.
  { intros seeds. apply Forall_forall. intros p Hp.
    apply list_elem_of_fmap in Hp as (q & -> & Hq).
    apply list_elem_of_filter in Hq as [Hq _]. simpl.
    apply list_elem_of_fmap in Hq as (z & -> & _). by eexists. }
  repeat constructor; apply Hs.
Qed.

Lemma seeded_fmap (f : Player → Player) ps :
  (∀ p, seed (f p) = seed p) → seeded ps → seeded (f <$> ps).
Proof.
  intros Hf Hs. apply Forall_fmap. eapply Forall_impl; [exact Hs|].
  intros p Hp. simpl. by rewrite Hf.
Qed.

Lemma seeded_mark_winners ps : seeded ps → seeded (mark_winners ps).
Proof.
  intros Hs. apply Forall_lookup. intros i p. rewrite mark_winners_lookup.
  destruct (ps !! i) as [q|] eqn:Hq; [|done]. intros [= <-].
  by apply (Forall_lookup_1 _ _ _ _ Hs Hq).
Qed.

Lemma seeded_stable_sort before ps : seeded ps → seeded (stable_sort before ps).
Proof. unfold seeded. by rewrite stable_sort_perm. Qed.

Lemma sorted_by_score_seed_keeps ps ps' :
  sorted_by_score_seed ps = Ok ps' → seeded ps → seeded ps'.
Proof.
  unfold sorted_by_score_seed. case_bool_decide; [done|].
  intros [= <-]. apply seeded_stable_sort.
Qed.

Lemma sorted_by_seed_keeps ps ps' :
  sorted_by_seed ps = Ok ps' → seeded ps → seeded ps'.
Proof.
  unfold sorted_by_seed. case_bool_decide; [done|].
  intros [= <-]. apply seeded_stable_sort.
Qed.

Lemma finalize_each_seeded ks ms :
  all_seeded ms → all_seeded (finalize_each ks ms).1.
Proof.
  revert ms. induction ks as [|k ks IH]; intros ms Hms; [done|]. simpl.
  assert (all_seeded (finalize_at k ms).1) as Hk.
  { unfold finalize_at. destruct (ms !! k) as [mt|] eqn:Hmt; [|done].
    unfold finalize_match.
    destruct (sorted_by_score_seed (swiss_players mt)) as [ps|] eqn:Hps; [|done].
    simpl. apply Forall_insert; [done|]. simpl.
    apply seeded_mark_winners. eapply sorted_by_score_seed_keeps; [done|].
    by apply (Forall_lookup_1 _ _ _ _ Hms Hmt). }
  destruct (finalize_at k ms) as [ms' [e|]]; [done|]. by apply IH.
Qed.

Lemma all_players_of_seeded ms : all_seeded ms → seeded (all_players_of ms).
Proof.
  intros Hms. unfold all_players_of. apply Forall_bind.
  eapply Forall_impl; [exact Hms|]. intros mt. apply seeded_stable_sort.
Qed.

Lemma new_match_seeded i n ps : seeded ps → seeded (swiss_players (new_match i n ps)).
Proof.
  intros Hs. simpl. apply seeded_fmap; [|done].
  intros p. unfold ensure_is_winner. by destruct (is_winner p).
Qed.

Lemma reset_scores_seeded ms : all_seeded ms → all_seeded (reset_scores ms).
Proof.
  intros Hms. apply Forall_fmap. eapply Forall_impl; [exact Hms|].
  intros mt Hmt. simpl. by apply seeded_fmap.
Qed.

Lemma restore_players_seeded ms : all_seeded ms → all_seeded (restore_players ms).
Proof.
  intros Hms. apply Forall_fmap. eapply Forall_impl; [exact Hms|].
  intros mt Hmt. simpl. apply seeded_fmap; [|done].
  intros p. simpl. unfold ensure_is_winner. by destruct (is_winner (set_score 0 p)).
Qed.

Lemma regroup_round1_seeded ms : all_seeded ms → all_seeded (regroup_round1 ms).
Proof.
  intros Hms. pose proof (all_players_of_seeded ms Hms) as Hall.
  unfold regroup_round1.
  repeat constructor; apply new_match_seeded;
    repeat (apply Forall_take || apply Forall_drop); done.
Qed.

Lemma regroup_round2_seeded ms ms' :
  regroup_round2 ms = Ok ms' → all_seeded ms → all_seeded ms'.
Proof.
  unfold regroup_round2. intros Hr Hms.
  destruct (sorted_by_score_seed (all_players_of ms)) as [fs|] eqn:Hfs; [|done].
  injection Hr as <-.
  assert (seeded fs) as Hall
    by (eapply sorted_by_score_seed_keeps; [done|by apply all_players_of_seeded]).
  repeat constructor; apply new_match_seeded; unfold slice;
    repeat (apply Forall_take || apply Forall_drop); done.
Qed.

Lemma group_players_seeded ms k ps :
  group_players ms k = Ok ps → all_seeded ms → seeded ps.
Proof.
  unfold group_players. intros Hg Hms.
  destruct (group_pos ms k) as [i|]; [|done]. simpl in Hg.
  destruct (ms !! i) as [mt|] eqn:Hmt; [|done]. injection Hg as <-.
  by apply (Forall_lookup_1 _ _ _ _ Hms Hmt).
Qed.

Lemma regroup_groups_seeded round_is_3 ms ms' :
  regroup_groups round_is_3 ms = Ok ms' → all_seeded ms → all_seeded ms'.
Proof.
  unfold regroup_groups. intros Hr Hms.
  destruct (group_players ms "champion") as [champion|] eqn:Hc;
    [|by destruct round_is_3].
  destruct (group_players ms "silver") as [silver|] eqn:Hs;
    [|destruct round_is_3; simpl in Hr; [|done];
      by destruct (sorted_by_seed (drop 2 champion))].
  apply group_players_seeded in Hc; [|done].
  apply group_players_seeded in Hs; [|done].
  assert (∀ new_gold, seeded new_gold →
            (gold ← group_players ms "gold";
             bronze ← group_players ms "bronze";
             Ok [ new_match "champion" "Champion" (take 2 champion ++ take 2 gold);
                  new_match "gold" "Gold" new_gold;
                  new_match "silver" "Silver" (drop 2 silver ++ take 2 bronze);
                  new_match "bronze" "Bronze" (drop 2 bronze) ]) = Ok ms' →
            all_seeded ms') as Hrest.
  { intros new_gold Hgold Hm.
    destruct (group_players ms "gold") as [gold|] eqn:Hg; [|done].
    destruct (group_players ms "bronze") as [bronze|] eqn:Hb; [|done].
    apply group_players_seeded in Hg; [|done].
    apply group_players_seeded in Hb; [|done].
    injection Hm as <-.
    repeat constructor; apply new_match_seeded; try done;
      repeat (apply Forall_app; split);
      repeat (apply Forall_take || apply Forall_drop); done. }
  destruct round_is_3; simpl in Hr.
  - destruct (sorted_by_seed (drop 2 champion)) as [cb|] eqn:Hcb; [|done].
    destruct (sorted_by_seed (take 2 silver)) as [st|] eqn:Hst; [|done].
    simpl in Hr. eapply Hrest; [|exact Hr].
    apply Forall_app. split.
    + eapply sorted_by_seed_keeps; [done|]. by apply Forall_drop.
    + eapply sorted_by_seed_keeps; [done|]. by apply Forall_take.
  - eapply Hrest; [|exact Hr].
    apply Forall_app. split; [by apply Forall_drop|by apply Forall_take].
Qed.

Lemma advance_swiss_seeded b :
  all_seeded (swiss_matches b) → map_Forall (λ _ ms, all_seeded ms) (history b) →
  all_seeded (swiss_matches (advance_swiss b).1)
  ∧ map_Forall (λ _ ms, all_seeded ms) (history (advance_swiss b).1).
Proof.
  intros Hms Hh.
  assert (map_Forall (λ _ ms, all_seeded ms)
            (<[round_key (round b) := swiss_matches b]> (history b))) as Hh'
    by (by apply map_Forall_insert_2).
  pose proof (finalize_each_seeded (seq 0 (length (swiss_matches b)))
                (swiss_matches b) Hms) as Hall.
  pose proof (finalize_each_seeded
                (omap (group_pos (swiss_matches b)) (group_keys (swiss_matches b)))
                (swiss_matches b) Hms) as Hgroups.
  unfold advance_swiss, finalize_all, finalize_groups.
  destruct (bool_decide (round b = 1%Z)).
  { destruct (finalize_each _ _) as [ms [e|]]; cbn [fst swiss_matches history] in *;
      [by split|].
    split; [|done]. by apply reset_scores_seeded, regroup_round1_seeded. }
  destruct (bool_decide (round b = 2%Z)).
  { destruct (finalize_each _ _) as [ms [e|]]; cbn [fst swiss_matches history] in *;
      [by split|].
    destruct (regroup_round2 ms) as [ms'|] eqn:Hr;
      cbn [fst swiss_matches history]; [|by split].
    split; [|done]. eapply reset_scores_seeded, regroup_round2_seeded; done. }
  destruct (bool_decide (round b ∈ [3; 4]%Z)).
  { destruct (finalize_each (omap _ _) _) as [ms [e|]];
      cbn [fst swiss_matches history] in *; [by split|].
    destruct (regroup_groups _ ms) as [ms'|] eqn:Hr;
      cbn [fst swiss_matches history]; [|by split].
    split; [|done]. eapply reset_scores_seeded, regroup_groups_seeded; done. }
  cbn [fst swiss_matches history]. split; [|done]. by apply reset_scores_seeded.
Qed.

Lemma update_match_swiss_seeded rq b :
  all_seeded (swiss_matches b) → all_seeded (swiss_matches (update_match_swiss rq b).1).
Proof.
  intros Hms. unfold update_match_swiss.
  destruct (list_find _ _) as [[k mt]|] eqn:Hfind; [|done].
  apply list_find_Some in Hfind as (Hk & _ & _).
  pose proof (Forall_lookup_1 _ _ _ _ Hms Hk) as Hmt. simpl in Hmt.
  pose proof (apply_scores_seeded _ (req_scores rq) Hmt) as Hps.
  destruct (sorted_by_score_seed _) as [ps'|] eqn:Hsort; simpl.
  - apply Forall_insert; [done|]. simpl. apply seeded_mark_winners.
    by eapply sorted_by_score_seed_keeps.
  - by apply Forall_insert.
Qed.

(** Throughout a Swiss tournament every slot carries a seed, so the
    ranking key of Swiss resolution is always defined. *)
Lemma swiss_run_seeded s : swiss_run s → swiss_seeded s.
Proof.
  induction 1 as [roster b cfg Hgen|rq s _ IH|s _ IH|s _ IH]; unfold swiss_seeded in *.
  - simpl. split; [by eapply generate_swiss_bracket_seeded|].
    unfold generate_swiss_bracket in Hgen. case_bool_decide; [done|].
    destruct (sorted_by_seed roster); [|done]. simpl in Hgen.
    injection Hgen as <-. simpl. apply map_Forall_empty.
  - unfold update_match.
    destruct (bracket s) as [[b|b]|] eqn:Hb; case_bool_decide; simpl;
      try (by rewrite Hb); try done.
    + by destruct (update_match_elim rq (config s) b).
    + destruct IH as [Hms Hh].
      pose proof (update_match_swiss_seeded rq b Hms) as Hupd.
      assert (history (update_match_swiss rq b).1 = history b) as Hhist.
      { unfold update_match_swiss. destruct (list_find _ _) as [[k mt]|]; [|done].
        by destruct (sorted_by_score_seed _). }
      destruct (update_match_swiss rq b) as [b' rsp]. simpl in *. by rewrite Hhist.
  - unfold advance_swiss_stage.
    destruct (bracket s) as [[b|b]|] eqn:Hb; simpl; try (by rewrite Hb);
      case_bool_decide; simpl; try (by rewrite Hb).
    destruct IH as [Hms Hh].
    pose proof (advance_swiss_seeded b Hms Hh) as Hadv.
    by destruct (advance_swiss b).
  - unfold go_back_swiss.
    destruct (bracket s) as [[b|b]|] eqn:Hb; simpl; try (by rewrite Hb);
      case_bool_decide; simpl; try (by rewrite Hb).
    case_bool_decide; simpl; [by rewrite Hb|].
    destruct IH as [Hms Hh].
    destruct (history b !! round_key (round b - 1)) as [snapshot|] eqn:Hsnap;
      simpl; [|by rewrite Hb].
    split; [|by apply map_Forall_delete].
    apply restore_players_seeded. by apply (map_Forall_lookup_1 _ _ _ _ Hh Hsnap).
Qed.

(** * Further properties *)

(** ** Swiss rounds and snapshots *)

Lemma round_key_inj j k : round_key j = round_key k → j = k.
Proof.
  unfold round_key. intros H. apply (inj (String.app "round_")) in H.
  by apply (inj pretty) in H.
Qed.

Lemma update_match_swiss_keeps rq b :
  history (update_match_swiss rq b).1 = history b ∧
  round (update_match_swiss rq b).1 = round b ∧
  stage (update_match_swiss rq b).1 = stage b.
Proof.
  unfold update_match_swiss. destruct (list_find _ _) as [[k mt]|]; [|done].
  by destruct (sorted_by_score_seed _).
Qed.

(** Whatever its outcome, an advance stores the snapshot of the current
    round and moves the round by at most one, out of rounds 1 to 4 only. *)
Lemma advance_swiss_round b :
  history (advance_swiss b).1
  = <[round_key (round b) := swiss_matches b]> (history b) ∧
  (round (advance_swiss b).1 = round b
   ∨ (round (advance_swiss b).1 = (round b + 1)%Z ∧ (1 ≤ round b ≤ 4)%Z)).
Proof.
  unfold advance_swiss.
  destruct (decide (round b = 1%Z)) as [H1|H1].
  { rewrite bool_decide_eq_true_2 by done.
    destruct (finalize_all _) as [ms [e|]]; simpl; (split; [done|]);
      [by left|right; lia]. }
  rewrite (bool_decide_eq_false_2 (round b = 1%Z)) by done.
  destruct (decide (round b = 2%Z)) as [H2|H2].
  { rewrite bool_decide_eq_true_2 by done.
    destruct (finalize_all _) as [ms [e|]]; simpl; [by split; [|left]|].
    destruct (regroup_round2 ms); simpl; (split; [done|]); [right; lia|by left]. }
  rewrite (bool_decide_eq_false_2 (round b = 2%Z)) by done.
  destruct (decide (round b ∈ [3; 4]%Z)) as [H3|H3].
  { rewrite bool_decide_eq_true_2 by done. apply elem_of_3_4 in H3.
    destruct (finalize_groups _) as [ms [e|]]; simpl; [by split; [|left]|].
    destruct (regroup_groups _ ms); simpl; (split; [done|]); [right; lia|by left]. }
  rewrite bool_decide_eq_false_2 by done. simpl. split; [done|by left].
Qed.

Lemma swiss_run_history s : swiss_run s → swiss_history_complete s.
Proof.
  induction 1 as [roster b cfg Hgen|rq s _ IH|s _ IH|s _ IH].
  - split; [done|]. exists b. split; [done|].
    unfold generate_swiss_bracket in Hgen. case_bool_decide; [done|].
    destruct (sorted_by_seed roster); [|done]. simpl in Hgen.
    injection Hgen as <-. simpl. split; [lia|]. intros j Hj. lia.
  - destruct IH as (Hbt & b & Hb & Hr & Hh). unfold update_match. rewrite Hb.
    case_bool_decide; [|by split; [|exists b]].
    destruct (update_match_swiss_keeps rq b) as (Hh' & Hr' & _).
    destruct (update_match_swiss rq b) as [b' rsp]. simpl in *.
    split; [done|]. exists b'. rewrite Hh', Hr'. done.
  - destruct IH as (Hbt & b & Hb & Hr & Hh). unfold advance_swiss_stage.
    rewrite Hb, bool_decide_eq_false_2 by (by intros []).
    destruct (advance_swiss_round b) as [Hh' Hr'].
    destruct (advance_swiss b) as [b' rsp]. simpl in *.
    split; [done|]. exists b'. split; [done|]. split; [lia|].
    intros j Hj. rewrite Hh'.
    destruct (decide (j = round b)) as [->|Hne].
    + rewrite lookup_insert_eq. by eexists.
    + rewrite lookup_insert_ne by (intros Hk; by apply round_key_inj in Hk).
      apply Hh. lia.
  - destruct IH as (Hbt & b & Hb & Hr & Hh). unfold go_back_swiss.
    rewrite Hb, bool_decide_eq_false_2 by (by intros []).
    case_bool_decide as H1; [by split; [|exists b]|].
    destruct (history b !! round_key (round b - 1)) as [snapshot|];
      [|by split; [|exists b]].
    simpl. split; [done|]. eexists. split; [done|]. simpl. split; [lia|].
    intros j Hj.
    rewrite lookup_delete_ne by (intros Hk; apply round_key_inj in Hk; lia).
    apply Hh. lia.
Qed.

(** X1.  In a Swiss tournament (a generated bracket followed by any calls
    of [update_match], [advance_swiss_stage] and [go_back_swiss]) the round
    stays within 1 to 5, and going back is refused in round 1 only: from
    any later round it succeeds, the snapshot it needs is always there. *)
Theorem swiss_go_back_available s :
  swiss_run s →
  ∃ b, bracket s = Some (Swiss b) ∧ (1 ≤ round b ≤ 5)%Z ∧
       ((go_back_swiss s).2 = Success ↔ (1 < round b)%Z).
Proof.
  intros Hrun. destruct (swiss_run_history s Hrun) as (Hbt & b & Hb & Hr & Hh).
  exists b. split; [done|]. split; [done|].
  unfold go_back_swiss. rewrite Hb, bool_decide_eq_false_2 by (by intros []).
  case_bool_decide as H1; [split; [done|lia]|].
  destruct (Hh (round b - 1)%Z) as [snapshot ->]; [lia|].
  simpl. split; [lia|done].
Qed.

(** X1 on the sample Swiss tournament advanced twice. *)
Lemma swiss_go_back_available_sample :
  let s := advanced 2 sample_swiss_state in
  ∃ b, bracket s = Some (Swiss b) ∧ (1 ≤ round b ≤ 5)%Z ∧
       ((go_back_swiss s).2 = Success ↔ (1 < round b)%Z).
Proof.
  intros s. apply (swiss_go_back_available s).
  apply (run_advance (advance_swiss_stage sample_swiss_state).1).
  apply (run_advance sample_swiss_state).
  apply (run_start (roster_of 16) sample_swiss_bracket default_config).
  vm_compute. reflexivity.
Defined.

Lemma advance_swiss_round2_stage b b1 :
  round b = 2%Z → advance_swiss b = (b1, Success) → stage b1 = "groups".
Proof.
  intros Hr. unfold advance_swiss.
  rewrite bool_decide_eq_false_2, bool_decide_eq_true_2 by lia.
  destruct (finalize_all _) as [ms [e|]]; [done|].
  destruct (regroup_round2 ms); [|done]. by intros [= <-].
Qed.

(** X2.  Going back does not restore the stage.  When the stage is
    advanced out of round 2 (which sets the stage to "groups") and
    [go_back_swiss] is called next, the round is 2 again and the matches
    are those of round 2, but the stage stays "groups". *)
Theorem go_back_keeps_groups_stage s b s1 :
  bracket s = Some (Swiss b) → round b = 2%Z →
  advance_swiss_stage s = (s1, Success) →
  ∃ b2, go_back_swiss s1 = (with_bracket (Swiss b2) s1, Success) ∧
        round b2 = 2%Z ∧ stage b2 = "groups" ∧
        same_matches zeroed_and_flagged (swiss_matches b) (swiss_matches b2).
Proof.
  intros Hb Hr Hadv.
  pose proof (advance_swiss_stage_success s s1 b Hb Hadv) as Hbt.
  rewrite (advance_swiss_stage_swiss s b Hb Hbt) in Hadv.
  injection Hadv as <- Hrsp.
  destruct (advance_swiss b) as [b1 rsp] eqn:Hb1. simpl in *. subst rsp.
  destruct (advance_swiss_snapshot b b1 ltac:(lia) Hb1) as [Hh Hround].
  pose proof (advance_swiss_round2_stage b b1 Hr Hb1) as Hstage.
  destruct (go_back_swiss_rule (with_bracket (Swiss b1) s) b1 eq_refl Hbt)
    as (_ & _ & Hback).
  destruct (Hback (swiss_matches b)) as (b2 & Hgo & Hsame & Hr2 & _ & Hst).
  { lia. }
  { rewrite Hh, Hround, Hr. apply lookup_insert_eq. }
  exists b2. split; [done|]. split; [lia|]. split; [congruence|done].
Qed.

(** X2 on the sample Swiss tournament in round 2. *)
Lemma go_back_keeps_groups_stage_sample :
  let s := advanced 1 sample_swiss_state in
  let s1 := (advance_swiss_stage s).1 in
  stage (swiss_of s) = "seeding" ∧
  ∃ b2, go_back_swiss s1 = (with_bracket (Swiss b2) s1, Success) ∧
        round b2 = 2%Z ∧ stage b2 = "groups" ∧
        same_matches zeroed_and_flagged (swiss_matches (swiss_of s)) (swiss_matches b2).
Proof.
  intros s s1. split; [by vm_compute|].
  apply (go_back_keeps_groups_stage s (swiss_of s) s1).
  - vm_compute. reflexivity.
  - vm_compute. reflexivity.
  - vm_compute. reflexivity.
Defined.

(** ** Entrants across a Swiss stage advance *)

Lemma identity_mark_winners (ps : list Player) :
  identity <$> mark_winners ps = identity <$> ps.
Proof.
  apply list_eq. intros i. rewrite !list_lookup_fmap, mark_winners_lookup.
  by destruct (ps !! i).
Qed.

Lemma identity_fmap (f : Player → Player) (ps : list Player) :
  (∀ p, identity (f p) = identity p) → identity <$> (f <$> ps) = identity <$> ps.
Proof.
  intros Hf. rewrite <- list_fmap_compose. apply list_fmap_ext. intros ???. apply Hf.
Qed.

Lemma identity_ensure_is_winner p : identity (ensure_is_winner p) = identity p.
Proof. unfold ensure_is_winner. by destruct (is_winner p). Qed.

Lemma swiss_entrants_insert ms k mt mt' :
  ms !! k = Some mt →
  identity <$> swiss_players mt' ≡ₚ identity <$> swiss_players mt →
  swiss_entrants (<[k := mt']> ms) ≡ₚ swiss_entrants ms.
Proof.
  intros Hk Hperm. unfold swiss_entrants.
  rewrite insert_take_drop by (by eapply lookup_lt_Some).
  rewrite <- (take_drop_middle ms k mt Hk) at 3.
  rewrite !bind_app, !bind_cons, !fmap_app. by rewrite Hperm.
Qed.

Lemma finalize_each_entrants ks ms :
  swiss_entrants (finalize_each ks ms).1 ≡ₚ swiss_entrants ms.
Proof.
  revert ms. induction ks as [|k ks IH]; intros ms; [done|]. simpl.
  assert (swiss_entrants (finalize_at k ms).1 ≡ₚ swiss_entrants ms) as Hk.
  { unfold finalize_at. destruct (ms !! k) as [mt|] eqn:Hmt; [|done].
    unfold finalize_match, sorted_by_score_seed.
    case_bool_decide; [done|]. simpl.
    apply (swiss_entrants_insert ms k mt); [done|]. simpl.
    by rewrite identity_mark_winners, stable_sort_perm. }
  destruct (finalize_at k ms) as [ms' [e|]]; [done|]. simpl in Hk.
  by rewrite IH.
Qed.

Lemma all_players_of_perm ms : all_players_of ms ≡ₚ ms ≫= swiss_players.
Proof.
  unfold all_players_of. induction ms as [|mt ms IH]; [done|].
  rewrite !bind_cons. by rewrite stable_sort_perm, IH.
Qed.

Lemma swiss_entrants_reset ms : swiss_entrants (reset_scores ms) = swiss_entrants ms.
Proof.
  unfold swiss_entrants, reset_scores.
  induction ms as [|mt ms IH]; [done|]. csimpl.
  rewrite !fmap_app, IH. f_equal. by apply identity_fmap.
Qed.

Lemma swiss_entrants_regroup_round1 ms :
  swiss_entrants (regroup_round1 ms) = identity <$> all_players_of ms.
Proof.
  unfold swiss_entrants, regroup_round1. csimpl. rewrite app_nil_r.
  rewrite <- !fmap_app.
  rewrite (identity_fmap ensure_is_winner) by apply identity_ensure_is_winner.
  by rewrite (assoc app), !take_drop.
Qed.

(** X3.  Advancing the stage out of round 1 regroups the entrants without
    losing or duplicating any: when it succeeds, the new bracket is in
    round 2 with four matches whose entrants are, slot for slot up to
    order, the entrants of the round-1 matches. *)
Theorem advance_round1_keeps_entrants s b s1 :
  bracket s = Some (Swiss b) → round b = 1%Z →
  advance_swiss_stage s = (s1, Success) →
  ∃ b1, bracket s1 = Some (Swiss b1) ∧ round b1 = 2%Z ∧
        length (swiss_matches b1) = 4 ∧
        swiss_entrants (swiss_matches b1) ≡ₚ swiss_entrants (swiss_matches b).
Proof.
  intros Hb Hr Hadv.
  pose proof (advance_swiss_stage_success s s1 b Hb Hadv) as Hbt.
  rewrite (advance_swiss_stage_swiss s b Hb Hbt) in Hadv.
  injection Hadv as <- Hrsp. eexists. split; [done|].
  revert Hrsp. unfold advance_swiss, finalize_all.
  rewrite bool_decide_eq_true_2 by done.
  pose proof (finalize_each_entrants (seq 0 (length (swiss_matches b)))
                (swiss_matches b)) as Hfin.
  destruct (finalize_each _ _) as [ms [e|]]; [done|]. intros _.
  cbn [fst swiss_matches round] in *.
  split; [done|]. split; [done|].
  rewrite swiss_entrants_reset, swiss_entrants_regroup_round1.
  by rewrite all_players_of_perm.
Qed.

(** X3 on the sample Swiss tournament. *)
Lemma advance_round1_keeps_entrants_sample :
  let s := sample_swiss_state in
  let s1 := (advance_swiss_stage s).1 in
  ∃ b1, bracket s1 = Some (Swiss b1) ∧ round b1 = 2%Z ∧
        length (swiss_matches b1) = 4 ∧
        swiss_entrants (swiss_matches b1)
        ≡ₚ swiss_entrants (swiss_matches sample_swiss_bracket).
Proof.
  intros s s1. apply (advance_round1_keeps_entrants s sample_swiss_bracket s1).
  - reflexivity.
  - vm_compute. reflexivity.
  - vm_compute. reflexivity.
Defined.

Lemma four_slices {B} (l : list B) :
  slice 0 4 l ++ slice 4 8 l ++ slice 8 12 l ++ slice 12 16 l = take 16 l.
Proof.
  unfold slice.
  change (4 - 0) with 4. change (8 - 4) with 4.
  change (12 - 8) with 4. change (16 - 12) with 4.
  rewrite drop_0, !(assoc app).
  rewrite (take_take_drop l 4 4). change (4 + 4) with 8.
  rewrite (take_take_drop l 8 4). change (8 + 4) with 12.
  by rewrite (take_take_drop l 12 4).
Qed.

Lemma swiss_entrants_regroup_round2 ms ms' :
  regroup_round2 ms = Ok ms' →
  swiss_id <$> ms' = ["champion"; "gold"; "silver"; "bronze"] ∧
  ∃ final_seeding, final_seeding ≡ₚ all_players_of ms ∧
    swiss_entrants ms' = identity <$> take 16 final_seeding.
Proof.
  unfold regroup_round2, sorted_by_score_seed. case_bool_decide; [done|].
  simpl. intros [= <-]. split; [done|].
  exists (stable_sort score_seed_desc (all_players_of ms)).
  split; [apply stable_sort_perm|].
  unfold swiss_entrants. csimpl. rewrite app_nil_r, <- !fmap_app.
  rewrite (identity_fmap ensure_is_winner) by apply identity_ensure_is_winner.
  by rewrite four_slices.
Qed.

(** X4.  Advancing the stage out of round 2 forms the four groups
    champion, gold, silver and bronze from the first sixteen slots of the
    round-2 ranking: when the round-2 matches hold at most sixteen slots
    in all and the advance succeeds, the bracket is in round 3, stage
    "groups", and the entrants of the groups are a rearrangement of the
    entrants of round 2. *)
Theorem advance_round2_keeps_entrants s b s1 :
  bracket s = Some (Swiss b) → round b = 2%Z →
  length (swiss_matches b ≫= swiss_players) ≤ 16 →
  advance_swiss_stage s = (s1, Success) →
  ∃ b1, bracket s1 = Some (Swiss b1) ∧ round b1 = 3%Z ∧ stage b1 = "groups" ∧
        swiss_id <$> swiss_matches b1 = ["champion"; "gold"; "silver"; "bronze"] ∧
        swiss_entrants (swiss_matches b1) ≡ₚ swiss_entrants (swiss_matches b).
Proof.
  intros Hb Hr Hlen Hadv.
  pose proof (advance_swiss_stage_success s s1 b Hb Hadv) as Hbt.
  rewrite (advance_swiss_stage_swiss s b Hb Hbt) in Hadv.
  injection Hadv as <- Hrsp. eexists. split; [done|].
  revert Hrsp. unfold advance_swiss, finalize_all.
  rewrite bool_decide_eq_false_2, bool_decide_eq_true_2 by lia.
  pose proof (finalize_each_entrants (seq 0 (length (swiss_matches b)))
                (swiss_matches b)) as Hfin.
  destruct (finalize_each _ _) as [ms [e|]]; [done|].
  destruct (regroup_round2 ms) as [ms'|] eqn:Hre; [|done]. intros _.
  cbn [fst swiss_matches round stage] in *.
  destruct (swiss_entrants_regroup_round2 ms ms' Hre) as (Hids & fs & Hfs & Hent).
  split; [done|]. split; [done|]. split.
  { unfold reset_scores. rewrite <- list_fmap_compose. exact Hids. }
  rewrite swiss_entrants_reset, Hent, <- Hfin.
  assert (length fs ≤ 16) as Hfslen.
  { rewrite Hfs, all_players_of_perm.
    apply Permutation_length in Hfin. unfold swiss_entrants in Hfin.
    rewrite !length_fmap in Hfin. lia. }
  rewrite take_ge by done. unfold swiss_entrants.
  by rewrite Hfs, all_players_of_perm.
Qed.

(** X4 on the sample Swiss tournament in round 2. *)
Lemma advance_round2_keeps_entrants_sample :
  let s := advanced 1 sample_swiss_state in
  let s1 := (advance_swiss_stage s).1 in
  ∃ b1, bracket s1 = Some (Swiss b1) ∧ round b1 = 3%Z ∧ stage b1 = "groups" ∧
        swiss_id <$> swiss_matches b1 = ["champion"; "gold"; "silver"; "bronze"] ∧
        swiss_entrants (swiss_matches b1)
        ≡ₚ swiss_entrants (swiss_matches (swiss_of s)).
Proof.
  intros s s1. apply (advance_round2_keeps_entrants s (swiss_of s) s1).
  - vm_compute. reflexivity.
  - vm_compute. reflexivity.
  - vm_compute. lia.
  - vm_compute. reflexivity.
Defined.

(** ** Promotion and relegation *)

Lemma finalize_match_Ok mt mt' :
  finalize_match mt = Ok mt' →
  seeded (swiss_players mt) ∧
  mt' = with_swiss_players
          (mark_winners (stable_sort score_seed_desc (swiss_players mt))) mt.
Proof.
  unfold finalize_match, sorted_by_score_seed. case_bool_decide as Hex; [done|].
  simpl. intros [= <-]. split; [|done].
  apply Forall_forall. intros p Hp. destruct (seed p) eqn:Hseed; [by eexists|].
  destruct Hex. apply Exists_exists. by exists p.
Qed.

(** With the four group ids in place, the loop over [groups.values()]
    visits the four matches in order. *)
Lemma four_groups_positions ms c g sv z :
  four_groups ms c g sv z →
  omap (group_pos ms) (group_keys ms) = [0; 1; 2; 3] ∧
  group_players ms "champion" = Ok (swiss_players c) ∧
  group_players ms "gold" = Ok (swiss_players g) ∧
  group_players ms "silver" = Ok (swiss_players sv) ∧
  group_players ms "bronze" = Ok (swiss_players z).
Proof.
  intros (-> & Hc & Hg & Hs & Hz).
  destruct c, g, sv, z. simpl in *. subst.
  repeat split; vm_compute; reflexivity.
Qed.

Lemma four_groups_finalize ms c g sv z ms' :
  four_groups ms c g sv z → finalize_groups ms = (ms', None) →
  ∃ c' g' sv' z',
    four_groups ms' c' g' sv' z' ∧
    finalize_match c = Ok c' ∧ finalize_match g = Ok g' ∧
    finalize_match sv = Ok sv' ∧ finalize_match z = Ok z'.
Proof.
  intros Hfour. unfold finalize_groups.
  destruct (four_groups_positions ms c g sv z Hfour) as (-> & _).
  destruct Hfour as (-> & Hc & Hg & Hs & Hz).
  unfold finalize_each, finalize_at. simpl.
  destruct (finalize_match c) as [c'|] eqn:Ec; [|done]. simpl.
  destruct (finalize_match g) as [g'|] eqn:Eg; [|done]. simpl.
  destruct (finalize_match sv) as [sv'|] eqn:Es; [|done]. simpl.
  destruct (finalize_match z) as [z'|] eqn:Ez; [|done]. simpl.
  intros [= <-]. exists c', g', sv', z'.
  apply finalize_match_Ok in Ec as Ec', Eg as Eg', Es as Es', Ez as Ez'.
  destruct Ec' as [_ ->], Eg' as [_ ->], Es' as [_ ->], Ez' as [_ ->].
  by repeat split.
Qed.

Lemma regroup_perm {B} (pc pg ps pz cb st : list B) :
  cb ≡ₚ drop 2 pc → st ≡ₚ take 2 ps →
  (take 2 pc ++ take 2 pg) ++ (cb ++ st) ++ (drop 2 ps ++ take 2 pz) ++ drop 2 pz
  ≡ₚ pc ++ take 2 pg ++ ps ++ pz.
Proof.
  intros -> ->.
  rewrite <- (take_drop 2 pc) at 3. rewrite <- (take_drop 2 ps) at 3.
  rewrite <- (take_drop 2 pz) at 3. rewrite <- !(assoc app).
  apply Permutation_app; [done|]. rewrite Permutation_app_swap_app.
  do 2 (apply Permutation_app; [done|]). done.
Qed.

Lemma regroup_groups_entrants round_is_3 ms c g sv z ms' :
  four_groups ms c g sv z →
  seeded (swiss_players c) → seeded (swiss_players sv) →
  regroup_groups round_is_3 ms = Ok ms' →
  swiss_entrants ms'
  ≡ₚ identity <$> (swiss_players c ++ take 2 (swiss_players g)
                    ++ swiss_players sv ++ swiss_players z).
Proof.
  intros Hfour Hsc Hss.
  destruct (four_groups_positions ms c g sv z Hfour) as (_ & Hc & Hg & Hs & Hz).
  unfold regroup_groups. rewrite Hc, Hs, Hg, Hz. simpl.
  assert (∀ new_gold,
    new_gold ≡ₚ drop 2 (swiss_players c) ++ take 2 (swiss_players sv) →
    swiss_entrants
      [ new_match "champion" "Champion" (take 2 (swiss_players c) ++ take 2 (swiss_players g));
        new_match "gold" "Gold" new_gold;
        new_match "silver" "Silver" (drop 2 (swiss_players sv) ++ take 2 (swiss_players z));
        new_match "bronze" "Bronze" (drop 2 (swiss_players z)) ]
    ≡ₚ identity <$> (swiss_players c ++ take 2 (swiss_players g)
                      ++ swiss_players sv ++ swiss_players z)) as Hnew.
  { intros new_gold Hgold. unfold swiss_entrants. csimpl. rewrite app_nil_r.
    rewrite <- !fmap_app.
    rewrite (identity_fmap ensure_is_winner) by apply identity_ensure_is_winner.
    apply fmap_Permutation. rewrite Hgold. by apply regroup_perm. }
  destruct round_is_3.
  - rewrite !sorted_by_seed_seeded by (by apply Forall_drop || by apply Forall_take).
    simpl. intros [= <-]. apply Hnew. by rewrite !stable_sort_perm.
  - simpl. intros [= <-]. by apply Hnew.
Qed.

(** X5.  Promotion and relegation out of round 3 or 4 keeps the champion,
    silver and bronze entrants but only the top two of the gold group:
    when the matches are the four groups and the advance succeeds, the
    round is incremented and the entrants of the new groups are the
    champion, silver and bronze entrants together with the first two of
    the gold group ranked by score descending, seed ascending; the other
    gold entrants are in no group any more. *)
Theorem advance_groups_keeps_top_gold s b s1 c g sv z :
  bracket s = Some (Swiss b) → (round b = 3 ∨ round b = 4)%Z →
  four_groups (swiss_matches b) c g sv z →
  advance_swiss_stage s = (s1, Success) →
  ∃ b1 gold_ranked,
    bracket s1 = Some (Swiss b1) ∧ round b1 = (round b + 1)%Z ∧
    gold_ranked ≡ₚ swiss_players g ∧ StronglySorted swiss_order gold_ranked ∧
    swiss_entrants (swiss_matches b1)
    ≡ₚ identity <$> (swiss_players c ++ take 2 gold_ranked
                      ++ swiss_players sv ++ swiss_players z).
Proof.
  intros Hb Hr Hfour Hadv.
  pose proof (advance_swiss_stage_success s s1 b Hb Hadv) as Hbt.
  rewrite (advance_swiss_stage_swiss s b Hb Hbt) in Hadv.
  injection Hadv as <- Hrsp.
  exists (advance_swiss b).1, (stable_sort score_seed_desc (swiss_players g)).
  split; [done|]. revert Hrsp. unfold advance_swiss.
  rewrite !bool_decide_eq_false_2 by lia.
  rewrite (bool_decide_eq_true_2 (round b ∈ [3; 4]%Z)) by (by apply elem_of_3_4).
  destruct (finalize_groups (swiss_matches b)) as [ms [e|]] eqn:Hfin; [done|].
  destruct (four_groups_finalize _ c g sv z ms Hfour Hfin)
    as (c' & g' & sv' & z' & Hfour' & Ec & Eg & Es & Ez).
  destruct (regroup_groups _ ms) as [ms'|] eqn:Hre; [|done]. intros _.
  cbn [fst swiss_matches round].
  apply finalize_match_Ok in Ec as [Hsc ->], Eg as [Hsg ->],
    Es as [Hss ->], Ez as [Hsz ->].
  split; [done|]. split; [apply stable_sort_perm|]. split.
  { eapply StronglySorted_weaken; [apply score_seed_desc_order|].
    apply stable_sort_strongly;
      [apply score_seed_desc_total|apply score_seed_desc_trans]. }
  rewrite swiss_entrants_reset.
  rewrite (regroup_groups_entrants _ ms _ _ _ _ ms' Hfour') by
    (done || (simpl; by apply seeded_mark_winners, seeded_stable_sort)).
  simpl. rewrite !fmap_app, !fmap_take, !identity_mark_winners.
  apply Permutation_app; [by rewrite stable_sort_perm|].
  apply Permutation_app; [done|].
  apply Permutation_app; by rewrite stable_sort_perm.
Qed.

(** X5 on the sample Swiss tournament in round 3: sixteen entrants go in,
    fourteen are left. *)
Lemma advance_groups_keeps_top_gold_sample :
  let s := advanced 2 sample_swiss_state in
  let s1 := (advance_swiss_stage s).1 in
  let ms := swiss_matches (swiss_of s) in
  let at_ k := default (mkSwissMatch EmptyString EmptyString [] None) (ms !! k) in
  length (swiss_entrants ms) = 16 ∧
  length (swiss_entrants (swiss_matches (swiss_of s1))) = 14 ∧
  ∃ b1 gold_ranked,
    bracket s1 = Some (Swiss b1) ∧ round b1 = (round (swiss_of s) + 1)%Z ∧
    gold_ranked ≡ₚ swiss_players (at_ 1) ∧ StronglySorted swiss_order gold_ranked ∧
    swiss_entrants (swiss_matches b1)
    ≡ₚ identity <$> (swiss_players (at_ 0) ++ take 2 gold_ranked
                      ++ swiss_players (at_ 2) ++ swiss_players (at_ 3)).
Proof.
  intros s s1 ms at_. split; [by vm_compute|]. split; [by vm_compute|].
  apply (advance_groups_keeps_top_gold s (swiss_of s) s1 (at_ 0) (at_ 1) (at_ 2) (at_ 3)).
  - vm_compute. reflexivity.
  - left. vm_compute. reflexivity.
  - vm_compute. repeat split; reflexivity.
  - vm_compute. reflexivity.
Defined.

(** ** Shape of the generated double-elimination bracket *)

Lemma ceil_div_double m : ceil_div (m * 2) 4 = ceil_div m 2.
Proof.
  unfold ceil_div. change (4 - 1) with 3. change (2 - 1) with 1.
  pose proof (Nat.div_mod_eq (m * 2 + 3) 4).
  pose proof (Nat.mod_upper_bound (m * 2 + 3) 4).
  pose proof (Nat.div_mod_eq (m + 1) 2).
  pose proof (Nat.mod_upper_bound (m + 1) 2). lia.
Qed.

Lemma first_upper_round_length round_num l :
  length (matches (first_upper_round round_num l)) = ceil_div (length l) 4.
Proof.
  unfold first_upper_round. cbn [matches].
  by rewrite length_imap, create_serpentine_matches_length.
Qed.

(** A round built from placeholders holds exactly these placeholders. *)
Lemma first_upper_round_placeholders round_num k :
  mjoin (players <$> matches (first_upper_round round_num (replicate k TBD)))
  = replicate k TBD_slot.
Proof.
  symmetry. apply replicate_Permutation.
  rewrite first_upper_round_perm.
  - by rewrite fmap_replicate.
  - apply Forall_replicate. by intros [=].
Qed.

Lemma upper_rounds_chain fuel round_num l :
  length l ≤ fuel → 2 < length l →
  ∃ rest, upper_rounds fuel round_num l = first_upper_round round_num l :: rest ∧
          narrowing_chain (first_upper_round round_num l :: rest).
Proof.
  revert round_num l. induction fuel as [|fuel IH]; intros round_num l Hf Hl; [lia|].
  cbn [upper_rounds]. rewrite bool_decide_eq_true_2 by done. cbv zeta.
  fold (first_upper_round round_num l).
  pose proof (first_upper_round_length round_num l) as Hlen.
  unfold first_upper_round in Hlen. cbn [matches] in Hlen. rewrite Hlen.
  pose proof (ceil_div_4_bounds (length l)) as Hceil.
  set (m := ceil_div (length l) 4) in *.
  case_bool_decide as Hw.
  - exists []. split; [done|]. split.
    + intros i rd rd' _ Hi. by destruct i.
    + eexists. split; [done|]. rewrite first_upper_round_length. fold m. lia.
  - destruct (IH (S round_num) (replicate (m * 2) TBD)) as (rest & Hrest & Hchain & Hlast).
    { rewrite length_replicate. lia. }
    { rewrite length_replicate. lia. }
    rewrite Hrest. eexists. split; [done|]. split.
    + intros [|i] rd rd' Hi Hi'.
      * apply (inj Some) in Hi as <-. apply (inj Some) in Hi' as <-. split.
        -- rewrite !first_upper_round_length, length_replicate.
           apply ceil_div_double.
        -- rewrite first_upper_round_placeholders, first_upper_round_length.
           f_equal. lia.
      * by apply (Hchain i).
    + destruct Hlast as (rd & Hrd & Hone). exists rd. split; [|done].
      by rewrite last_cons, Hrd.
Qed.

(** X6.  For a roster of [N >= 3] seeded entrants the upper bracket starts
    with [ceil(N/4)] matches and narrows round by round: each later round
    has half as many matches, rounded up, and holds exactly two
    placeholder slots per match of the round before (so its matches have
    three slots when that number is not a multiple of four), down to a
    last round of a single match. *)
Theorem upper_bracket_narrows roster b :
  3 ≤ length roster → seeded roster → generates roster b →
  ∃ r1, upper b !! 0 = Some r1 ∧
        length (matches r1) = ceil_div (length roster) 4 ∧
        narrowing_chain (upper b).
Proof.
  intros Hn Hs Hg. unfold generates, generate_double_elim_bracket in Hg.
  rewrite bool_decide_eq_false_2 in Hg by (intros ->; simpl in Hn; lia).
  rewrite sorted_by_seed_seeded in Hg by done. simpl in Hg.
  injection Hg as <-. cbn [upper].
  set (sorted_players := stable_sort seed_le roster).
  assert (length sorted_players = length roster) as Hlen by apply stable_sort_length.
  destruct (upper_rounds_chain (length sorted_players) 1 sorted_players)
    as (rest & -> & Hchain); [lia|lia|].
  eexists. split; [done|]. split; [|done].
  by rewrite first_upper_round_length, Hlen.
Qed.

(** X6 on the roster of nine: three matches, then two of three slots, then
    one. *)
Lemma upper_bracket_narrows_nine :
  ∃ r1, upper (sample_bracket 9) !! 0 = Some r1 ∧
        length (matches r1) = ceil_div (length (roster_of 9)) 4 ∧
        narrowing_chain (upper (sample_bracket 9)).
Proof.
  apply (upper_bracket_narrows (roster_of 9) (sample_bracket 9)).
  - simpl. lia.
  - apply roster_of_seeded.
  - vm_compute. reflexivity.
Defined.

Lemma upper_rounds_nonempty fuel round_num l :
  Forall (λ rd, 0 < length (matches rd)) (upper_rounds fuel round_num l).
Proof.
  revert round_num l. induction fuel as [|fuel IH]; intros round_num l; [done|].
  cbn [upper_rounds]. case_bool_decide as Hl; [|done]. cbv zeta.
  fold (first_upper_round round_num l).
  assert (0 < length (matches (first_upper_round round_num l))) as Hpos.
  { rewrite first_upper_round_length.
    pose proof (ceil_div_4_bounds (length l)). lia. }
  case_bool_decide; repeat constructor; try done; apply IH.
Qed.

Lemma ceil_div_2_pos n : 0 < n → 0 < ceil_div n 2.
Proof.
  intros Hn. unfold ceil_div. change (2 - 1) with 1.
  pose proof (Nat.div_mod_eq (n + 1) 2).
  pose proof (Nat.mod_upper_bound (n + 1) 2). lia.
Qed.

Lemma lower_round_singleton ub i :
  Forall (λ rd, 0 < length (matches rd)) ub →
  lower_round ub i =
  [ mkRound ("Lower Round " +:+ pretty (i + 1))
      (lower_match i <$>
       seq 0 (ceil_div (match ub !! i with
                        | Some rd => length (matches rd)
                        | None => 1
                        end) 2)) ].
Proof.
  intros Hub. unfold lower_round. rewrite bool_decide_eq_true_2; [done|].
  apply ceil_div_2_pos. destruct (ub !! i) as [rd|] eqn:Hi; [|lia].
  by apply (Forall_lookup_1 _ _ _ _ Hub Hi).
Qed.

Lemma bind_singletons {A B} (f : A → list B) (g : A → B) l :
  (∀ x, f x = [g x]) → l ≫= f = g <$> l.
Proof.
  intros Hf. induction l as [|x l IH]; [done|].
  csimpl. by rewrite Hf, IH.
Qed.

Lemma lower_rounds_fmap ub :
  Forall (λ rd, 0 < length (matches rd)) ub →
  lower_rounds ub =
  (λ i, mkRound ("Lower Round " +:+ pretty (i + 1))
          (lower_match i <$>
           seq 0 (ceil_div (match ub !! i with
                            | Some rd => length (matches rd)
                            | None => 1
                            end) 2))) <$> seq 0 (length ub + 1).
Proof.
  intros Hub. unfold lower_rounds. apply bind_singletons.
  intros i. by apply lower_round_singleton.
Qed.

(** X7.  Whatever the roster, the generated lower bracket has one round
    more than the upper bracket; lower round [i] is named after [i + 1], is
    sized after upper round [i] (half its matches, rounded up; a single
    match for the round past the last upper round), and every one of its
    matches is open: four placeholder slots, no winners, not complete. *)
Theorem lower_bracket_shape roster b :
  generates roster b → lower_shape b.
Proof.
  unfold generates, generate_double_elim_bracket. intros Hg.
  case_bool_decide; [done|].
  destruct (sorted_by_seed roster) as [sorted_players|e]; [|done].
  simpl in Hg. injection Hg as <-. unfold lower_shape, feeder_matches.
  cbn [upper lower].
  set (ub := upper_rounds (length sorted_players) 1 sorted_players).
  pose proof (upper_rounds_nonempty (length sorted_players) 1 sorted_players) as Hub.
  fold ub in Hub. rewrite (lower_rounds_fmap ub Hub). split.
  - by rewrite length_fmap, length_seq.
  - intros i rd Hi. rewrite list_lookup_fmap in Hi.
    destruct (seq 0 (length ub + 1) !! i) as [k|] eqn:Hk; [|done].
    apply lookup_seq in Hk as [-> _]. simpl in Hi. injection Hi as <-.
    cbn [round_name matches]. split; [done|]. split.
    + by rewrite length_fmap, length_seq.
    + apply Forall_fmap, Forall_forall. by intros j _.
Qed.

(** X7 on the roster of nine. *)
Lemma lower_bracket_shape_nine : lower_shape (sample_bracket 9).
Proof.
  apply (lower_bracket_shape (roster_of 9) (sample_bracket 9)).
  vm_compute. reflexivity.
Defined.

(** X8.  A roster of one or two entrants is placed nowhere: the generated
    bracket has no upper round at all, and its lower bracket is the single
    round "Lower Round 1" with one open match. *)
Theorem small_roster_unplaced roster b :
  length roster ≤ 2 → generates roster b →
  upper b = [] ∧
  ∃ mt, lower b = [mkRound "Lower Round 1" [mt]] ∧ open_match mt.
Proof.
  unfold generates, generate_double_elim_bracket. intros Hn Hg.
  case_bool_decide; [done|].
  destruct (sorted_by_seed roster) as [sorted_players|e] eqn:Hs; [|done].
  simpl in Hg. injection Hg as <-. cbn [upper lower].
  assert (length sorted_players ≤ 2) as Hlen.
  { unfold sorted_by_seed in Hs. case_bool_decide; [done|].
    injection Hs as <-. by rewrite stable_sort_length. }
  rewrite upper_rounds_short by done. split; [done|].
  exists (lower_match 0 0). split; [|done]. vm_compute. reflexivity.
Qed.

(** X8 on the roster of two. *)
Lemma small_roster_unplaced_two :
  upper (sample_bracket 2) = [] ∧
  ∃ mt, lower (sample_bracket 2) = [mkRound "Lower Round 1" [mt]] ∧ open_match mt.
Proof.
  apply (small_roster_unplaced (roster_of 2) (sample_bracket 2)).
  - simpl. lia.
  - vm_compute. reflexivity.
Defined.

(** ** Order of the roster *)

Lemma NoDup_fmap_elem_inj {A B} (f : A → B) l x y :
  NoDup (f <$> l) → x ∈ l → y ∈ l → f x = f y → x = y.
Proof.
  induction l as [|z l IH]; intros Hnd Hx Hy Hxy; [by apply elem_of_nil in Hx|].
  csimpl in Hnd. apply NoDup_cons in Hnd as [Hz Hnd].
  apply elem_of_cons in Hx as [->|Hx]; apply elem_of_cons in Hy as [->|Hy].
  - done.
  - destruct Hz. rewrite Hxy. by apply list_elem_of_fmap_2.
  - destruct Hz. rewrite <- Hxy. by apply list_elem_of_fmap_2.
  - by apply IH.
Qed.

Lemma stable_sort_seed_order roster roster' :
  seeded roster → NoDup (seed <$> roster) → roster' ≡ₚ roster →
  stable_sort seed_le roster' = stable_sort seed_le roster.
Proof.
  intros Hs Hnd Hp.
  assert (∀ x y z, seed_le x y = true → seed_le y z = true → seed_le x z = true)
    as Htrans.
  { unfold seed_le. intros x y z Hxy Hyz.
    apply bool_decide_eq_true in Hxy, Hyz. apply bool_decide_eq_true. lia. }
  assert (∀ x y, seed_le x y = true ∨ seed_le y x = true) as Htotal.
  { unfold seed_le. intros x y.
    destruct (decide (default 0 (seed x) ≤ default 0 (seed y))%Z).
    - left. by apply bool_decide_eq_true.
    - right. apply bool_decide_eq_true. lia. }
  apply (StronglySorted_unique_strong (λ x y, seed_le x y = true)).
  - intros x y Hx Hy Hxy Hyx.
    rewrite stable_sort_perm in Hx, Hy. rewrite Hp in Hx.
    apply (NoDup_fmap_elem_inj seed roster); [done..|].
    unfold seed_le in Hxy, Hyx. apply bool_decide_eq_true in Hxy, Hyx.
    destruct (Forall_forall (λ p, is_Some (seed p)) roster) as [Hall _].
    destruct (Hall Hs x Hx) as [sx Hsx]. destruct (Hall Hs y Hy) as [sy Hsy].
    rewrite Hsx, Hsy in *. simpl in *. f_equal. lia.
  - by apply stable_sort_strongly.
  - by apply stable_sort_strongly.
  - by rewrite !stable_sort_perm.
Qed.

(** X9.  When every entrant carries a seed and no two entrants share one,
    the generated bracket does not depend on the order in which the
    roster lists its entrants. *)
Theorem generation_ignores_roster_order roster roster' b :
  seeded roster → NoDup (seed <$> roster) → roster' ≡ₚ roster →
  generates roster b → generates roster' b.
Proof.
  intros Hs Hnd Hp. unfold generates, generate_double_elim_bracket.
  assert (seeded roster') as Hs' by (unfold seeded; by rewrite Hp).
  rewrite !sorted_by_seed_seeded by done.
  rewrite (stable_sort_seed_order roster roster') by done.
  intros Hg. case_bool_decide as Hnil; [subst; done|].
  rewrite bool_decide_eq_false_2; [done|].
  intros ->. by apply Permutation_nil_l in Hp.
Qed.

(** X9 on the roster of five listed backwards. *)
Lemma generation_ignores_roster_order_five :
  generates (reverse (roster_of 5)) (sample_bracket 5).
Proof.
  apply (generation_ignores_roster_order (roster_of 5)).
  - apply roster_of_seeded.
  - apply roster_of_distinct.
  - apply reverse_Permutation.
  - vm_compute. reflexivity.
Defined.

(** ** Matches with fewer than four entrants *)

Lemma apply_scores_occupied ps scores :
  length (filter occupied (apply_scores ps scores)) = length (filter occupied ps).
Proof.
  revert scores. induction ps as [|p ps IH]; intros [|v scores]; try done.
  simpl. rewrite !filter_cons.
  change (occupied (set_score v p)) with (occupied p).
  destruct (decide (occupied p)); simpl; by rewrite IH.
Qed.

Lemma is_real_occupied p : is_real p → occupied p.
Proof.
  unfold is_real, occupied. intros Hr Ho. apply Hr.
  by apply elem_of_cons; right.
Qed.

Lemma filter_iff_elem {A} (P Q : A → Prop)
    `{!∀ x, Decision (P x)} `{!∀ x, Decision (Q x)} (l : list A) :
  (∀ x, x ∈ l → P x ↔ Q x) → filter P l = filter Q l.
Proof.
  induction l as [|x l IH]; intros HPQ; [done|].
  rewrite !filter_cons, IH by (intros y Hy; apply HPQ; by right).
  destruct (decide (P x)) as [HP|HP], (decide (Q x)) as [HQ|HQ]; try done.
  - destruct HQ. apply HPQ; [by left|done].
  - destruct HP. apply HPQ; [by left|done].
Qed.

(** The losers are the occupied slots whose identifier is not a winner's. *)
Lemma losers_of_filter ps ws :
  losers_of ps ws
  = filter (λ p, trackmania_id p ∉ trackmania_id <$> ws) (filter occupied ps).
Proof.
  unfold losers_of. rewrite list_filter_filter.
  apply filter_iff_elem. intros p Hp. unfold occupied.
  rewrite list_elem_of_filter. split.
  - intros [[??] _]. done.
  - intros [??]. split; [done|]. by apply list_elem_of_fmap_2.
Qed.

Lemma filter_Forall_id {A} (P : A → Prop) `{!∀ x, Decision (P x)} l :
  Forall P l → filter P l = l.
Proof.
  induction 1 as [|x l Hx Hl IH]; [done|].
  rewrite filter_cons, decide_True by done. by rewrite IH.
Qed.

Lemma submseteq_filter_length {A} (P : A → Prop) `{!∀ x, Decision (P x)} l1 l2 :
  l1 ⊆+ l2 → Forall P l1 → length l1 ≤ length (filter P l2).
Proof.
  intros [k Hk]%submseteq_Permutation HP.
  rewrite Hk, filter_app, length_app, (filter_Forall_id P l1) by done. lia.
Qed.

(** With [k] occupied slots and two qualified winners there are at most
    [k - 2] losers. *)
Lemma losers_of_length points_needed ps :
  2 ≤ length (qualified points_needed ps) →
  length (losers_of ps (take 2 (qualified points_needed ps))) + 2
  ≤ length (filter occupied ps).
Proof.
  intros Hq. set (ws := take 2 (qualified points_needed ps)).
  rewrite losers_of_filter.
  set (W := λ p : Player, trackmania_id p ∈ trackmania_id <$> ws).
  rewrite <- (filter_app_complement W (filter occupied ps)) at 2.
  rewrite length_app.
  assert (length ws = 2) as Hws by (unfold ws; rewrite length_take; lia).
  assert (ws ⊆+ ps) as Hsub.
  { unfold ws, qualified, ranked.
    etrans; [apply submseteq_take|].
    etrans; [apply sublist_submseteq, sublist_filter|].
    rewrite stable_sort_perm. apply sublist_submseteq, sublist_filter. }
  assert (Forall (λ p, W p ∧ occupied p) ws) as Hall.
  { apply Forall_forall. intros p Hp. split.
    - by apply list_elem_of_fmap_2.
    - apply is_real_occupied.
      assert (p ∈ filter is_real ps) as Hr.
      { rewrite <- (stable_sort_perm score_desc).
        eapply list_subseteq_filter, sublist_subseteq; [apply sublist_take|exact Hp]. }
      by apply list_elem_of_filter in Hr as [? _]. }
  pose proof (submseteq_filter_length _ ws ps Hsub Hall) as Hlen.
  rewrite <- list_filter_filter in Hlen. fold W in Hlen.
  unfold W in *. lia.
Qed.

Lemma outcomes_lower_length b b' :
  bracket_outcomes b = bracket_outcomes b' → length (lower b) = length (lower b').
Proof.
  unfold bracket_outcomes. intros [= _ H _].
  apply (f_equal length) in H. by rewrite !length_fmap in H.
Qed.

(** Routing out of the upper bracket with fewer than two losers raises
    whenever the lower round for the losers exists. *)
Lemma advance_players_short_losers ws ls r m b :
  length ls < 2 →
  losers_destination b Upper r m ≠ Nowhere →
  is_Some (advance_players ws ls Upper r m b).2.
Proof.
  intros Hls Hdest. unfold losers_destination in Hdest.
  unfold advance_players. cbv zeta in *.
  set (L := if bool_decide (r = 0%Z) then 0%Z else ((r - 1) * 2 + 1)%Z) in *.
  destruct (bool_decide (L < Z.of_nat (length (lower b)))%Z) eqn:HL; [clear Hdest|done].
  destruct (get_final 0 b); [|by eexists].
  set (c1 := if bool_decide (Z.of_nat (length (upper b)) ≤ r + 1)%Z
             then assign (alter_final 0) 0 ws 0 ;;; assign (alter_final 0) 1 ws 1
             else assign_pair (alter_match Upper (r + 1) (m `div` 2))
                              ((m `mod` 2) * 2) ws).
  assert (keeps_outcomes c1) as Hkeep.
  { unfold c1. destruct (bool_decide (Z.of_nat (length (upper b)) ≤ r + 1)%Z);
      [apply and_then_keeps; apply assign_final_keeps|].
    apply assign_pair_match_keeps. }
  unfold and_then at 1. specialize (Hkeep b).
  destruct (c1 b) as [b1 [e|]]; [by eexists|]. simpl in Hkeep.
  rewrite (outcomes_lower_length _ _ Hkeep), HL.
  unfold assign_pair, and_then, assign.
  destruct ls as [|l0 [|l1 ls]]; [by eexists| |simpl in Hls; lia].
  destruct (py_get [l0] 0 ≫= _) as [b2|]; [|by eexists].
  change (py_get [l0] 1) with (@None Player). by eexists.
Qed.

(** X10.  An upper-bracket match with fewer than four occupied slots
    cannot be completed cleanly: when the submitted scores let two
    entrants qualify and the lower round for its losers exists, the
    request is answered as invalid data, because fewer than two losers are
    left to fill the two loser slots. *)
Theorem short_upper_match_rejected rq s b mt :
  bracket s = Some (DoubleElim b) →
  req_bracket_type rq = "upper" →
  get_match Upper (req_round_index rq) (req_match_index rq) b = Some mt →
  length (filter occupied (players mt)) < 4 →
  is_complete (resolved (points_to_advance (config s)) (req_scores rq) mt) = true →
  losers_destination b Upper (req_round_index rq) (req_match_index rq) ≠ Nowhere →
  (update_match rq s).2 = invalid_data.
Proof.
  intros Hb Hbt Hget Hshort Hdone Hdest.
  rewrite (update_match_elim_state rq s b Hb) by (by rewrite Hbt).
  cbn [snd]. unfold update_match_elim.
  rewrite Hbt. change (bool_decide ("upper" = "grand_final")) with false.
  change (side_of "upper") with (Some Upper). cbv iota beta zeta.
  rewrite Hget.
  set (mt' := resolved (points_to_advance (config s)) (req_scores rq) mt) in *.
  destruct (alter_match Upper _ _ _ b) as [b1|] eqn:Hb1; [|done].
  rewrite Hdone.
  assert (losers_destination b1 Upper (req_round_index rq) (req_match_index rq)
          ≠ Nowhere) as Hdest1.
  { pose proof (alter_match_rounds_length _ _ _ _ _ _ Lower Hb1) as Hlen.
    cbn [rounds_of] in Hlen. unfold losers_destination in *.
    by rewrite Hlen. }
  assert (length (losers_of (players mt') (winners mt')) < 2) as Hls.
  { unfold mt', resolved in *.
    set (ps := apply_scores (players mt) (req_scores rq)) in *.
    case_bool_decide as Hq; [|done]. cbn [players winners].
    pose proof (losers_of_length (points_to_advance (config s)) ps Hq) as Hlen.
    unfold ps in Hlen at 3. rewrite apply_scores_occupied in Hlen. lia. }
  destruct (advance_players_short_losers
              (entrant_slot <$> winners mt')
              (entrant_slot <$> losers_of (players mt') (winners mt'))
              (req_round_index rq) (req_match_index rq) b1) as [e He];
    [by rewrite length_fmap|done|].
  destruct (advance_players _ _ _ _ _ b1) as [b2 [e'|]]; [done|].
  simpl in He. done.
Qed.

(** X10 on the bracket of six entrants: Upper Round 1, match 2 holds the
    seeds 2, 3 and 6. *)
Lemma short_upper_match_rejected_six :
  (update_match (resolve_request "upper" 0 1 [90; 80; 70]%Z) (sample_state 6)).2
  = invalid_data.
Proof.
  eapply (short_upper_match_rejected _ (sample_state 6) (sample_bracket 6)).
  - reflexivity.
  - reflexivity.
  - vm_compute. reflexivity.
  - vm_compute. lia.
  - vm_compute. reflexivity.
  - vm_compute. discriminate.
Defined.

(** ** Swiss generator *)

Lemma seed_le_total p q : seed_le p q = true ∨ seed_le q p = true.
Proof.
  unfold seed_le.
  destruct (decide (default 0 (seed p) ≤ default 0 (seed q))%Z).
  - left. by apply bool_decide_eq_true.
  - right. apply bool_decide_eq_true. lia.
Qed.

Lemma seed_le_trans p q r :
  seed_le p q = true → seed_le q r = true → seed_le p r = true.
Proof.
  unfold seed_le. intros Hpq Hqr.
  apply bool_decide_eq_true in Hpq, Hqr. apply bool_decide_eq_true. lia.
Qed.

Lemma filter_disjoint_app {A} (P Q : A → Prop)
    `{!∀ x, Decision (P x)} `{!∀ x, Decision (Q x)} (l : list A) :
  (∀ x, P x → Q x → False) →
  filter P l ++ filter Q l ≡ₚ filter (λ x, P x ∨ Q x) l.
Proof.
  intros Hdis. induction l as [|x l IH]; [done|].
  rewrite !filter_cons.
  destruct (decide (P x)) as [HP|HP], (decide (Q x)) as [HQ|HQ].
  - destruct (Hdis x HP HQ).
  - rewrite decide_True by auto. simpl. by rewrite IH.
  - rewrite decide_True by auto. rewrite <- Permutation_middle. by rewrite IH.
  - rewrite decide_False by tauto. done.
Qed.

Lemma swiss_seed_quads p :
  swiss_seed p ↔
  (seed p ∈ Some <$> [1; 2; 3; 4]%Z) ∨ (seed p ∈ Some <$> [5; 6; 7; 8]%Z) ∨
  (seed p ∈ Some <$> [9; 10; 11; 12]%Z) ∨ (seed p ∈ Some <$> [13; 14; 15; 16]%Z).
Proof.
  unfold swiss_seed. destruct (seed p) as [z|].
  - rewrite !(list_elem_of_fmap_inj Some). rewrite !elem_of_cons, !elem_of_nil. lia.
  - split; [done|].
    intros [H|[H|[H|H]]]; by apply list_elem_of_fmap in H as (? & [=] & _).
Qed.

Lemma quads_disjoint (s1 s2 : list Z) (p : Player) :
  (∀ z, z ∈ s1 → z ∈ s2 → False) →
  seed p ∈ Some <$> s1 → seed p ∈ Some <$> s2 → False.
Proof.
  intros Hdis (z1 & H1 & Hz1)%list_elem_of_fmap (z2 & H2 & Hz2)%list_elem_of_fmap.
  rewrite H1 in H2. injection H2 as <-. eauto.
Qed.

(** The slots of the generated Swiss bracket are the entrants whose seed
    lies between 1 and 16. *)
Lemma generate_swiss_bracket_slots roster b :
  generate_swiss_bracket roster = Ok (Some b) →
  swiss_slots b ≡ₚ swiss_slot <$> filter swiss_seed roster.
Proof.
  unfold generate_swiss_bracket. case_bool_decide; [done|].
  destruct (sorted_by_seed roster) as [sorted_players|] eqn:Hs; [|done].
  simpl. intros [= <-]. unfold swiss_slots. cbn [swiss_matches].
  assert (sorted_players ≡ₚ roster) as Hp.
  { unfold sorted_by_seed in Hs. case_bool_decide; [done|].
    injection Hs as <-. apply stable_sort_perm. }
  rewrite <- Hp. csimpl. unfold seeded_in. rewrite app_nil_r.
  rewrite <- !fmap_app. apply fmap_Permutation.
  rewrite (list_filter_iff _ _ _ swiss_seed_quads).
  rewrite <- !filter_disjoint_app; [done|..].
  - intros p H1 H2. eapply quads_disjoint; [|exact H1|exact H2].
    intros z. rewrite !elem_of_cons, !elem_of_nil. lia.
  - intros p H1 [H2|H2]; (eapply quads_disjoint; [|exact H1|exact H2]);
      intros z; rewrite !elem_of_cons, !elem_of_nil; lia.
  - intros p H1 [H2|[H2|H2]]; (eapply quads_disjoint; [|exact H1|exact H2]);
      intros z; rewrite !elem_of_cons, !elem_of_nil; lia.
Qed.

(** X11.  The Swiss generator accepts any sixteen seeded entrants and
    places exactly those whose seed lies between 1 and 16: an entrant with
    another seed is left out of every match without any error. *)
Theorem swiss_generator_places_seeds_1_to_16 roster :
  length roster = 16 → seeded roster →
  ∃ b, generate_swiss_bracket roster = Ok (Some b) ∧
       swiss_slots b ≡ₚ swiss_slot <$> filter swiss_seed roster.
Proof.
  intros Hlen Hs.
  assert (generate_swiss_bracket roster
          = Ok (Some (mkSwiss "seeding"
              [ mkSwissMatch "SWISS-R1-M1" "Match 1"
                  (seeded_in [1; 2; 3; 4]%Z (stable_sort seed_le roster)) (Some false);
                mkSwissMatch "SWISS-R1-M2" "Match 2"
                  (seeded_in [5; 6; 7; 8]%Z (stable_sort seed_le roster)) (Some false);
                mkSwissMatch "SWISS-R1-M3" "Match 3"
                  (seeded_in [9; 10; 11; 12]%Z (stable_sort seed_le roster)) (Some false);
                mkSwissMatch "SWISS-R1-M4" "Match 4"
                  (seeded_in [13; 14; 15; 16]%Z (stable_sort seed_le roster)) (Some false) ]
              ∅ 1))) as Hgen.
  { unfold generate_swiss_bracket.
    rewrite bool_decide_eq_false_2 by (rewrite Hlen; auto).
    by rewrite sorted_by_seed_seeded. }
  eexists. split; [exact Hgen|]. by apply generate_swiss_bracket_slots.
Qed.

(** X11 on sixteen entrants seeded 0 to 15: fifteen are placed. *)
Lemma swiss_generator_places_seeds_1_to_16_from_zero :
  ∃ b, generate_swiss_bracket roster_from_zero = Ok (Some b) ∧
       swiss_slots b ≡ₚ swiss_slot <$> filter swiss_seed roster_from_zero.
Proof.
  apply (swiss_generator_places_seeds_1_to_16 roster_from_zero).
  - reflexivity.
  - unfold roster_from_zero, seeded. apply Forall_fmap, Forall_forall.
    intros k _. by eexists.
Defined.

Lemma seqZ_1_16 : seqZ 1 16 = [1; 2; 3; 4; 5; 6; 7; 8; 9; 10; 11; 12; 13; 14; 15; 16]%Z.
Proof. reflexivity. Qed.

(** Sorting a roster whose seeds are 1 to 16 in some order puts the seeds
    in the order 1 to 16. *)
Lemma sorted_seeds_1_to_16 roster :
  seed <$> roster ≡ₚ Some <$> seqZ 1 16 →
  seed <$> stable_sort seed_le roster = Some <$> seqZ 1 16.
Proof.
  intros Hp.
  apply (StronglySorted_unique_strong (λ x y, default 0 x ≤ default 0 y)%Z).
  - intros x y Hx Hy Hxy Hyx.
    rewrite stable_sort_perm, Hp in Hx.
    apply list_elem_of_fmap in Hx as (a & -> & _).
    apply list_elem_of_fmap in Hy as (c & -> & _).
    simpl in *. f_equal. lia.
  - apply (StronglySorted_fmap _ (λ p q, seed_le p q = true)).
    + intros p q Hpq. unfold seed_le in Hpq. by apply bool_decide_eq_true in Hpq.
    + apply stable_sort_strongly; [apply seed_le_total|apply seed_le_trans].
  - apply (StronglySorted_fmap _ Z.le); [by intros ?? ?|].
    rewrite seqZ_1_16. repeat (constructor; [|repeat constructor; lia]). constructor.
  - by rewrite stable_sort_perm.
Qed.

Lemma seeded_in_seeds seeds l :
  seed <$> seeded_in seeds l = filter (λ s, s ∈ Some <$> seeds) (seed <$> l).
Proof.
  unfold seeded_in. induction l as [|p l IH]; [done|].
  csimpl. rewrite !filter_cons.
  destruct (decide (seed p ∈ Some <$> seeds)); csimpl; by rewrite IH.
Qed.

(** X12.  For a roster whose seeds are the numbers 1 to 16 in any order,
    the Swiss generator returns a round-1 bracket in stage "seeding" with
    an empty history whose four matches hold the seeds 1-4, 5-8, 9-12 and
    13-16, each in ascending order, and every entrant is placed. *)
Theorem swiss_generator_quads roster :
  seed <$> roster ≡ₚ Some <$> seqZ 1 16 →
  ∃ b, generate_swiss_bracket roster = Ok (Some b) ∧
       swiss_seeds b = [ Some <$> [1; 2; 3; 4]; Some <$> [5; 6; 7; 8];
                         Some <$> [9; 10; 11; 12]; Some <$> [13; 14; 15; 16] ]%Z ∧
       swiss_slots b ≡ₚ swiss_slot <$> roster ∧
       stage b = "seeding" ∧ round b = 1%Z ∧ history b = ∅.
Proof.
  intros Hp.
  assert (length roster = 16) as Hlen.
  { apply Permutation_length in Hp. by rewrite !length_fmap in Hp. }
  assert (seeded roster) as Hs.
  { apply Forall_forall. intros p Hin.
    assert (seed p ∈ Some <$> seqZ 1 16) as Hseed
      by (rewrite <- Hp; by apply list_elem_of_fmap_2).
    apply list_elem_of_fmap in Hseed as (z & -> & _). by eexists. }
  assert (Forall swiss_seed roster) as Hall.
  { apply Forall_forall. intros p Hin.
    assert (seed p ∈ Some <$> seqZ 1 16) as Hseed
      by (rewrite <- Hp; by apply list_elem_of_fmap_2).
    apply list_elem_of_fmap in Hseed as (z & Hz & Hin').
    unfold swiss_seed. rewrite Hz. apply elem_of_seqZ in Hin'. lia. }
  pose proof (sorted_seeds_1_to_16 roster Hp) as Hsorted.
  unfold generate_swiss_bracket.
  rewrite bool_decide_eq_false_2 by (rewrite Hlen; auto).
  rewrite sorted_by_seed_seeded by done. csimpl.
  eexists. split; [done|]. split; [|split; [|done]].
  - unfold swiss_seeds. cbn [swiss_matches fmap list_fmap swiss_players].
    rewrite !seeded_in_seeds, Hsorted. reflexivity.
  - etrans; [apply (generate_swiss_bracket_slots roster)|
             by rewrite (filter_Forall_id swiss_seed roster Hall)].
    unfold generate_swiss_bracket.
    rewrite bool_decide_eq_false_2 by (rewrite Hlen; auto).
    by rewrite sorted_by_seed_seeded.
Qed.

(** X12 on the sixteen sample entrants listed backwards. *)
Lemma swiss_generator_quads_reversed :
  ∃ b, generate_swiss_bracket (reverse (roster_of 16)) = Ok (Some b) ∧
       swiss_seeds b = [ Some <$> [1; 2; 3; 4]; Some <$> [5; 6; 7; 8];
                         Some <$> [9; 10; 11; 12]; Some <$> [13; 14; 15; 16] ]%Z ∧
       swiss_slots b ≡ₚ swiss_slot <$> reverse (roster_of 16) ∧
       stage b = "seeding" ∧ round b = 1%Z ∧ history b = ∅.
Proof.
  apply (swiss_generator_quads (reverse (roster_of 16))).
  rewrite fmap_reverse, reverse_Permutation. reflexivity.
Defined.

(** ** Auto-seeding by ranking *)

Lemma rank_le_total p q : rank_le p q = true ∨ rank_le q p = true.
Proof.
  unfold rank_le.
  destruct (decide (default 0 (rank_key p) ≤ default 0 (rank_key q))%Z).
  - left. by apply bool_decide_eq_true.
  - right. apply bool_decide_eq_true. lia.
Qed.

Lemma rank_le_trans p q r :
  rank_le p q = true → rank_le q r = true → rank_le p r = true.
Proof.
  unfold rank_le. intros Hpq Hqr.
  apply bool_decide_eq_true in Hpq, Hqr. apply bool_decide_eq_true. lia.
Qed.

Lemma rank_key_number p : rank p ≠ RankNull → rank_key p = Some (rank_number p).
Proof. unfold rank_key, rank_number. by destruct (rank p). Qed.

Lemma ranked_players_sorted ps :
  ranked_players ps →
  auto_seed_players_by_ranking ps
  = imap (λ i, with_seed (Z.of_nat i + 1)) (stable_sort rank_le ps).
Proof.
  intros Hr. unfold auto_seed_players_by_ranking.
  rewrite bool_decide_eq_false_2; [done|].
  intros [_ (p & Hp & Hnull)%Exists_exists].
  eapply Forall_forall in Hr; [|exact Hp].
  by rewrite rank_key_number in Hnull.
Qed.

Lemma imap_with_seed_seeds (l : list RankedPlayer) :
  (seed ∘ entrant) <$> imap (λ i, with_seed (Z.of_nat i + 1)) l
  = Some <$> seqZ 1 (Z.of_nat (length l)).
Proof.
  apply list_eq. intros i.
  rewrite !list_lookup_fmap, (list_lookup_imap (λ i, with_seed (Z.of_nat i + 1))).
  destruct (l !! i) as [p|] eqn:Hi.
  - apply lookup_lt_Some in Hi as Hlt.
    rewrite lookup_seqZ_lt by lia. simpl. do 2 f_equal. lia.
  - apply lookup_ge_None in Hi.
    by rewrite lookup_seqZ_ge by lia.
Qed.

Lemma imap_with_seed_without (l : list RankedPlayer) :
  without_seed <$> imap (λ i, with_seed (Z.of_nat i + 1)) l = without_seed <$> l.
Proof.
  apply list_eq. intros i.
  rewrite !list_lookup_fmap, (list_lookup_imap (λ i, with_seed (Z.of_nat i + 1))).
  by destruct (l !! i).
Qed.

Lemma imap_with_seed_rank (l : list RankedPlayer) :
  rank <$> imap (λ i, with_seed (Z.of_nat i + 1)) l = rank <$> l.
Proof.
  apply list_eq. intros i.
  rewrite !list_lookup_fmap, (list_lookup_imap (λ i, with_seed (Z.of_nat i + 1))).
  by destruct (l !! i).
Qed.

Lemma StronglySorted_imap_rank (f : nat → RankedPlayer → RankedPlayer) l :
  (∀ i p, rank (f i p) = rank p) →
  StronglySorted (λ p q, rank_number p ≤ rank_number q)%Z l →
  StronglySorted (λ p q, rank_number p ≤ rank_number q)%Z (imap f l).
Proof.
  intros Hf Hl. revert f Hf.
  induction Hl as [|x l _ IH Hx]; intros f Hf; [constructor|].
  rewrite imap_cons. constructor.
  - apply IH. intros i p. apply Hf.
  - apply Forall_forall. intros q (i & y & -> & Hy)%elem_of_lookup_imap.
    eapply Forall_forall in Hx; [|by eapply list_elem_of_lookup_2].
    unfold rank_number in *. simpl. by rewrite !Hf.
Qed.

(** X13.  When no player has a null rank, auto-seeding returns the same
    players ordered by rank (a player without the key counting as rank
    999999), and the seeds it writes are 1, 2, ..., n in this order,
    whatever seeds the players carried before. *)
Theorem auto_seed_orders_by_rank ps :
  ranked_players ps → seeded_by_rank ps (auto_seed_players_by_ranking ps).
Proof.
  intros Hr. rewrite ranked_players_sorted by done. split; [|split].
  - by rewrite imap_with_seed_without, stable_sort_perm.
  - apply StronglySorted_imap_rank; [done|].
    assert (Forall (λ p, rank p ≠ RankNull) (stable_sort rank_le ps)) as Hr'
      by (by rewrite stable_sort_perm).
    assert (StronglySorted (λ p q, rank_le p q = true) (stable_sort rank_le ps))
      as Hsorted
      by (apply stable_sort_strongly; [apply rank_le_total|apply rank_le_trans]).
    revert Hr'. induction Hsorted as [|x l _ IH Hx]; intros Hr'; [constructor|].
    apply Forall_cons in Hr' as [Hx' Hl']. constructor; [by apply IH|].
    apply Forall_forall. intros q Hq.
    eapply Forall_forall in Hx; [|exact Hq].
    eapply Forall_forall in Hl'; [|exact Hq].
    unfold rank_le in Hx. apply bool_decide_eq_true in Hx.
    by rewrite !rank_key_number in Hx.
  - by rewrite imap_with_seed_seeds, stable_sort_length.
Qed.

(** X13 on four search results: the player without a rank comes last. *)
Lemma auto_seed_orders_by_rank_four :
  seeded_by_rank (found_players 4) (auto_seed_players_by_ranking (found_players 4)).
Proof.
  apply (auto_seed_orders_by_rank (found_players 4)).
  unfold ranked_players, found_players. apply Forall_fmap, Forall_forall.
  intros k _. simpl. by case_bool_decide.
Defined.

Lemma rank_key_with_seed z p : rank_key (with_seed z p) = rank_key p.
Proof. done. Qed.

Lemma imap_with_seed_sorted (f : nat → Z) (l : list RankedPlayer) :
  StronglySorted (λ p q, rank_le p q = true) l →
  StronglySorted (λ p q, rank_le p q = true) (imap (λ i, with_seed (f i)) l).
Proof.
  intros Hl. revert f.
  induction Hl as [|x l _ IH Hx]; intros f; [constructor|].
  rewrite imap_cons. constructor; [apply (IH (f ∘ S))|].
  apply Forall_forall. intros q (i & y & -> & Hy)%elem_of_lookup_imap.
  eapply Forall_forall in Hx; [|by eapply list_elem_of_lookup_2].
  exact Hx.
Qed.

Lemma imap_with_seed_twice (l : list RankedPlayer) :
  imap (λ i, with_seed (Z.of_nat i + 1)) (imap (λ i, with_seed (Z.of_nat i + 1)) l)
  = imap (λ i, with_seed (Z.of_nat i + 1)) l.
Proof.
  apply list_eq. intros i.
  rewrite !(list_lookup_imap (λ i, with_seed (Z.of_nat i + 1))).
  by destruct (l !! i).
Qed.

(** X14.  Auto-seeding is idempotent: seeding the returned list again
    returns it unchanged, whether or not the first call could sort. *)
Theorem auto_seed_idempotent ps :
  auto_seed_players_by_ranking (auto_seed_players_by_ranking ps)
  = auto_seed_players_by_ranking ps.
Proof.
  destruct (decide (2 ≤ length ps ∧ Exists (λ p, rank_key p = None) ps))
    as [Hbad|Hbad].
  { assert (auto_seed_players_by_ranking ps = ps) as Hsame
      by (unfold auto_seed_players_by_ranking; by rewrite bool_decide_eq_true_2).
    by rewrite !Hsame. }
  set (out := imap (λ i, with_seed (Z.of_nat i + 1)) (stable_sort rank_le ps)).
  assert (auto_seed_players_by_ranking ps = out) as ->
    by (unfold auto_seed_players_by_ranking; by rewrite bool_decide_eq_false_2).
  assert (¬ (2 ≤ length out ∧ Exists (λ p, rank_key p = None) out)) as Hgood.
  { intros [Hlen (q & Hq & Hnull)%Exists_exists]. apply Hbad.
    unfold out in Hlen. rewrite length_imap, stable_sort_length in Hlen.
    split; [done|]. apply Exists_exists.
    apply elem_of_lookup_imap in Hq as (i & p & -> & Hp).
    exists p. split; [|done].
    rewrite <- (stable_sort_perm rank_le). by eapply list_elem_of_lookup_2. }
  unfold auto_seed_players_by_ranking. rewrite bool_decide_eq_false_2 by done.
  rewrite (stable_sort_sorted rank_le out).
  - apply imap_with_seed_twice.
  - apply StronglySorted_Sorted, (imap_with_seed_sorted (λ i, Z.of_nat i + 1)%Z).
    apply stable_sort_strongly; [apply rank_le_total|apply rank_le_trans].
Qed.

Lemma Sorted_lookup {A} (R : relation A) (l : list A) :
  (∀ i x y, l !! i = Some x → l !! S i = Some y → R x y) → Sorted R l.
Proof.
  induction l as [|x l IH]; intros HR; constructor.
  - apply IH. intros i. apply (HR (S i)).
  - destruct l as [|y l]; constructor. by apply (HR 0).
Qed.

Lemma auto_seeded_lookup (l : list RankedPlayer) i p :
  (entrant <$> imap (λ i, with_seed (Z.of_nat i + 1)) l) !! i = Some p →
  seed p = Some (Z.of_nat i + 1)%Z.
Proof.
  rewrite list_lookup_fmap, (list_lookup_imap (λ i, with_seed (Z.of_nat i + 1))).
  destruct (l !! i); [|done]. by intros [= <-].
Qed.

(** X15.  A roster that auto-seeding could sort is ready for the bracket
    generator: the generator's own sort by seed leaves the rank order as
    it is, and for a non-empty roster a bracket is generated (no
    [TypeError]); with three or more players its Upper Round 1 is the
    serpentine placement of the players in rank order. *)
Theorem auto_seeded_roster_generates ps :
  ranked_players ps → ps ≠ [] →
  sorted_by_seed (entrant <$> auto_seed_players_by_ranking ps)
  = Ok (entrant <$> auto_seed_players_by_ranking ps) ∧
  ∃ b, generates (entrant <$> auto_seed_players_by_ranking ps) b ∧
       (3 ≤ length ps →
        upper b !! 0
        = Some (first_upper_round 1 (entrant <$> auto_seed_players_by_ranking ps))).
Proof.
  intros Hr Hne. rewrite ranked_players_sorted by done.
  set (roster := entrant <$> imap _ _).
  assert (length roster = length ps) as Hlen
    by (unfold roster; by rewrite length_fmap, length_imap, stable_sort_length).
  assert (seeded roster) as Hs.
  { apply Forall_forall. intros p (i & Hi)%list_elem_of_lookup_1.
    apply auto_seeded_lookup in Hi. by eexists. }
  assert (ascending_by_seed roster) as Ha.
  { apply Sorted_lookup. intros i x y Hx Hy.
    apply auto_seeded_lookup in Hx, Hy. unfold seed_le.
    rewrite Hx, Hy. simpl. apply bool_decide_eq_true_2. lia. }
  assert (roster ≠ []) as Hne'
    by (intros Hnil; rewrite Hnil in Hlen; by destruct ps).
  pose proof (sorted_by_seed_ascending roster Hs Ha) as Hsorted.
  split; [done|].
  destruct (generates_total roster Hs Hne') as [b Hb]. exists b. split; [done|].
  intros Hn. rewrite (generates_upper roster b Hb Hs) by lia.
  by rewrite (stable_sort_sorted seed_le roster Ha).
Qed.

(** X15 on four search results. *)
Lemma auto_seeded_roster_generates_four :
  sorted_by_seed (entrant <$> auto_seed_players_by_ranking (found_players 4))
  = Ok (entrant <$> auto_seed_players_by_ranking (found_players 4)) ∧
  ∃ b, generates (entrant <$> auto_seed_players_by_ranking (found_players 4)) b ∧
       (3 ≤ length (found_players 4) →
        upper b !! 0
        = Some (first_upper_round 1
                  (entrant <$> auto_seed_players_by_ranking (found_players 4)))).
Proof.
  apply (auto_seeded_roster_generates (found_players 4)).
  - unfold ranked_players, found_players. apply Forall_fmap, Forall_forall.
    intros k _. simpl. by case_bool_decide.
  - discriminate.
Defined.

(** X16.  One null rank among two or more players makes auto-seeding give
    up before it writes any seed; if one of the players comes without a
    seed, as search results do, generating a bracket from the returned
    list then raises [TypeError]. *)
Theorem null_rank_blocks_generation ps :
  2 ≤ length ps →
  Exists (λ p, rank p = RankNull) ps →
  Exists (λ p, seed (entrant p) = None) ps →
  auto_seed_players_by_ranking ps = ps ∧
  generate_double_elim_bracket (entrant <$> auto_seed_players_by_ranking ps)
  = Raise TypeError.
Proof.
  intros Hlen Hnull Hseed.
  assert (auto_seed_players_by_ranking ps = ps) as ->.
  { unfold auto_seed_players_by_ranking. rewrite bool_decide_eq_true_2; [done|].
    split; [done|]. eapply Exists_impl; [exact Hnull|].
    intros p Hp. unfold rank_key. by rewrite Hp. }
  split; [done|]. unfold generate_double_elim_bracket.
  rewrite bool_decide_eq_false_2 by (destruct ps; [simpl in Hlen; lia|done]).
  unfold sorted_by_seed. rewrite bool_decide_eq_true_2; [done|].
  rewrite length_fmap. split; [done|]. apply Exists_fmap.
  eapply Exists_impl; [exact Hseed|]. by intros p Hp.
Qed.

(** X16 on two players found by name: no rank, no seed. *)
Lemma null_rank_blocks_generation_two :
  let ps := [ mkRanked (mkPlayer (Some "tm-ada") "Ada" "Ada" None None None) RankNull;
              mkRanked (mkPlayer (Some "tm-bob") "Bob" "Bob" None None None) RankNull ] in
  auto_seed_players_by_ranking ps = ps ∧
  generate_double_elim_bracket (entrant <$> auto_seed_players_by_ranking ps)
  = Raise TypeError.
Proof.
  apply null_rank_blocks_generation.
  - simpl. lia.
  - by left.
  - by left.
Defined.

(** X17.  The mock rankings hold [min(limit, 32)] players, none for a
    limit of zero or less, and come seeded as auto-seeding would seed
    them: auto-seeding returns them unchanged. *)
Theorem mock_rankings_already_seeded limit :
  length (create_mock_rankings limit) = Z.to_nat (Z.min limit 32) ∧
  length (create_mock_rankings limit) ≤ 32 ∧
  auto_seed_players_by_ranking (create_mock_rankings limit)
  = create_mock_rankings limit.
Proof.
  unfold create_mock_rankings. set (n := Z.to_nat (Z.min limit 32)).
  split; [by rewrite length_fmap, length_seq|].
  split; [rewrite length_fmap, length_seq; lia|].
  rewrite ranked_players_sorted
    by (apply Forall_fmap, Forall_forall; by intros i _).
  assert (∀ i p, (mock_ranked <$> seq 0 n) !! i = Some p → p = mock_ranked i)
    as Hlookup.
  { intros i p. rewrite list_lookup_fmap.
    destruct (seq 0 n !! i) as [k|] eqn:Hk; [|done].
    apply lookup_seq in Hk as [-> _]. by intros [= <-]. }
  rewrite (stable_sort_sorted rank_le).
  - apply list_eq. intros i.
    rewrite (list_lookup_imap (λ i, with_seed (Z.of_nat i + 1))).
    destruct ((mock_ranked <$> seq 0 n) !! i) as [p|] eqn:Hp; [|done].
    by rewrite (Hlookup i p Hp).
  - apply Sorted_lookup. intros i x y Hx Hy.
    rewrite (Hlookup _ _ Hx), (Hlookup _ _ Hy).
    unfold rank_le. simpl. apply bool_decide_eq_true_2. lia.
Qed.

(** ** Reset and the shared default dictionary *)

Lemma serve_all_cons c cs st :
  serve_all (c :: cs) st = serve_all cs (serve c st).1.
Proof. done. Qed.

Lemma on_main_shared h st :
  loaded_config st = None → loaded_config (on_main h st).1 = None.
Proof.
  intros Hst. unfold on_main, set_main_tournament.
  destruct (h (main_tournament st)) as [t rsp]. by rewrite Hst.
Qed.

Lemma serve_shared c st :
  loaded_config st = None → loaded_config (serve c st).1 = None.
Proof.
  intros Hst. destruct c; cbn [serve]; [done|by apply on_main_shared..].
Qed.

Lemma serve_all_shared cs st :
  loaded_config st = None → loaded_config (serve_all cs st) = None.
Proof.
  revert st. induction cs as [|c cs IH]; intros st Hst; [done|].
  rewrite serve_all_cons. by apply IH, serve_shared.
Qed.

(** X18.  Once the tournament has been reset, [db['main_tournament']] is
    the default dictionary itself, so a later reset restores nothing but
    the three keys it clears: the thresholds and the bracket type stay as
    the requests since the first reset left them. *)
Theorem later_reset_keeps_settings st cs :
  settings (reset_tournament (serve_all cs (reset_tournament st).1)).1
  = settings (serve_all cs (reset_tournament st).1).
Proof.
  assert (loaded_config (serve_all cs (reset_tournament st).1) = None) as Hshared
    by (by apply serve_all_shared).
  set (st1 := serve_all cs (reset_tournament st).1) in *.
  unfold settings, main_tournament. rewrite Hshared. reflexivity.
Qed.

Lemma on_main_loaded h st :
  is_Some (loaded_config st) →
  is_Some (loaded_config (on_main h st).1) ∧
  default_main_config (on_main h st).1 = default_main_config st.
Proof.
  intros [t0 Hst]. unfold on_main, set_main_tournament.
  destruct (h (main_tournament st)) as [t rsp]. rewrite Hst. simpl. eauto.
Qed.

Lemma serve_loaded c st :
  c ≠ CallReset → is_Some (loaded_config st) →
  is_Some (loaded_config (serve c st).1) ∧
  default_main_config (serve c st).1 = default_main_config st.
Proof.
  intros Hc Hst. destruct c; cbn [serve]; [done|by apply on_main_loaded..].
Qed.

Lemma serve_all_loaded cs st :
  CallReset ∉ cs → is_Some (loaded_config st) →
  default_main_config (serve_all cs st) = default_main_config st.
Proof.
  revert st. induction cs as [|c cs IH]; intros st Hcs Hst; [done|].
  apply not_elem_of_cons in Hcs as [Hc Hcs].
  destruct (serve_loaded c st) as [Hloaded Hdef]; [done..|].
  rewrite serve_all_cons, IH by done. exact Hdef.
Qed.

(** X19.  After a start-up that read a configuration file, the first
    reset discards everything the file and the requests so far have set
    and leaves the literal default: no bracket, no players, not started,
    thresholds 70 and 100, double elimination. *)
Theorem first_reset_restores_defaults t cs :
  CallReset ∉ cs →
  main_tournament (reset_tournament (serve_all cs (startup (Some t)))).1
  = default_main_literal.
Proof.
  intros Hcs. unfold main_tournament, reset_tournament.
  cbn [fst loaded_config default_main_config default].
  rewrite serve_all_loaded; [done|done|by eexists].
Qed.

(** X19 with a changed threshold and a started tournament. *)
Lemma first_reset_restores_defaults_sample :
  main_tournament
    (reset_tournament
       (serve_all [ CallUpdateConfig (JInt 50) JNull;
                    CallStart (Names ["Ada"; "Bob"; "Cy"]) "double_elimination" ]
                  (startup (Some saved_tournament)))).1
  = default_main_literal.
Proof.
  apply (first_reset_restores_defaults saved_tournament).
  intros [[=]|[[=]|[]%elem_of_nil]%elem_of_cons]%elem_of_cons.
Defined.

(** ** Starting a tournament *)

(** X20.  A Swiss start without exactly sixteen players is answered with
    an error, but it has already replaced the roster and switched
    [bracket_type] to "swiss" while the double-elimination bracket stays
    in place; advancing the Swiss stage on what is left then fails with an
    unhandled [KeyError] instead of the invalid-state answer. *)
Theorem rejected_swiss_start_switches_type players t b :
  bracket (engine t) = Some (DoubleElim b) →
  length (started_players players) ≠ 16 →
  (start_main_tournament players "swiss" t).2
  = BadRequest "Swiss format requires exactly 16 players." ∧
  start_main_tournament players "swiss" t
  = (mkTournament (mkState (Some (DoubleElim b)) "swiss" (config (engine t)))
                  (started_players players) (is_started t),
     (start_main_tournament players "swiss" t).2) ∧
  (advance_swiss_stage (engine (start_main_tournament players "swiss" t).1)).2
  = Unhandled KeyError.
Proof.
  intros Hb Hlen. unfold start_main_tournament.
  change (bool_decide ("swiss" = "double_elimination")) with false.
  change (bool_decide ("swiss" = "swiss")) with true. cbv iota zeta.
  rewrite bool_decide_eq_true_2 by done. rewrite Hb. done.
Qed.

(** X20 on a running tournament of eight and three names. *)
Lemma rejected_swiss_start_switches_type_sample :
  (start_main_tournament (Names ["Ada"; "Bob"; "Cy"]) "swiss" (running_tournament 8)).2
  = BadRequest "Swiss format requires exactly 16 players." ∧
  start_main_tournament (Names ["Ada"; "Bob"; "Cy"]) "swiss" (running_tournament 8)
  = (mkTournament (mkState (Some (DoubleElim (sample_bracket 8))) "swiss"
                           (config (engine (running_tournament 8))))
                  (started_players (Names ["Ada"; "Bob"; "Cy"]))
                  (is_started (running_tournament 8)),
     (start_main_tournament (Names ["Ada"; "Bob"; "Cy"]) "swiss"
                            (running_tournament 8)).2) ∧
  (advance_swiss_stage
     (engine (start_main_tournament (Names ["Ada"; "Bob"; "Cy"]) "swiss"
                                    (running_tournament 8)).1)).2
  = Unhandled KeyError.
Proof.
  apply (rejected_swiss_start_switches_type _ (running_tournament 8) (sample_bracket 8)).
  - reflexivity.
  - simpl. lia.
Defined.

Lemma old_format_lookup names i p :
  imap old_format_player names !! i = Some p → seed p = Some (Z.of_nat i + 1)%Z.
Proof.
  rewrite (list_lookup_imap old_format_player).
  destruct (names !! i); [|done]. by intros [= <-].
Qed.

(** X21.  Starting a double-elimination tournament from a non-empty list
    of names in the old format always succeeds: the names become players
    seeded 1, 2, ... in the order given, the bracket is generated from
    them without error, the tournament is marked started, and with three
    or more names Upper Round 1 is their serpentine placement in the
    order given. *)
Theorem start_with_names names t :
  names ≠ [] →
  ∃ b, start_main_tournament (Names names) "double_elimination" t
       = (mkTournament (mkState (Some (DoubleElim b)) "double_elimination"
                                (config (engine t)))
                       (imap old_format_player names) true, Success) ∧
       seed <$> imap old_format_player names
       = Some <$> seqZ 1 (Z.of_nat (length names)) ∧
       (3 ≤ length names →
        upper b !! 0 = Some (first_upper_round 1 (imap old_format_player names))).
Proof.
  intros Hne. set (roster := imap old_format_player names).
  assert (length roster = length names) as Hlen by apply length_imap.
  assert (seeded roster) as Hs.
  { apply Forall_forall. intros p (i & Hi)%list_elem_of_lookup_1.
    apply old_format_lookup in Hi. by eexists. }
  assert (ascending_by_seed roster) as Ha.
  { apply Sorted_lookup. intros i x y Hx Hy.
    apply old_format_lookup in Hx, Hy. unfold seed_le.
    rewrite Hx, Hy. simpl. apply bool_decide_eq_true_2. lia. }
  assert (roster ≠ []) as Hne'
    by (intros Hnil; rewrite Hnil in Hlen; by destruct names).
  destruct (generates_total roster Hs Hne') as [b Hb]. exists b.
  split; [|split].
  - unfold start_main_tournament. cbn [started_players]. fold roster.
    change (bool_decide ("double_elimination" = "double_elimination")) with true.
    cbv iota zeta. unfold generates in Hb. by rewrite Hb.
  - apply list_eq. intros i. rewrite !list_lookup_fmap.
    unfold roster. rewrite (list_lookup_imap old_format_player).
    destruct (names !! i) as [name|] eqn:Hi.
    + apply lookup_lt_Some in Hi. rewrite lookup_seqZ_lt by lia.
      simpl. do 2 f_equal. lia.
    + apply lookup_ge_None in Hi. by rewrite lookup_seqZ_ge by lia.
  - intros Hn. rewrite (generates_upper roster b Hb Hs) by lia.
    by rewrite (stable_sort_sorted seed_le roster Ha).
Qed.

(** X21 on five names. *)
Lemma start_with_names_five :
  ∃ b, start_main_tournament (Names ["Ada"; "Bob"; "Cy"; "Dee"; "Eve"])
                             "double_elimination" default_main_literal
       = (mkTournament (mkState (Some (DoubleElim b)) "double_elimination"
                                (config (engine default_main_literal)))
                       (imap old_format_player ["Ada"; "Bob"; "Cy"; "Dee"; "Eve"])
                       true, Success) ∧
       seed <$> imap old_format_player ["Ada"; "Bob"; "Cy"; "Dee"; "Eve"]
       = Some <$> seqZ 1 (Z.of_nat (length ["Ada"; "Bob"; "Cy"; "Dee"; "Eve"])) ∧
       (3 ≤ length ["Ada"; "Bob"; "Cy"; "Dee"; "Eve"] →
        upper b !! 0
        = Some (first_upper_round 1
                  (imap old_format_player ["Ada"; "Bob"; "Cy"; "Dee"; "Eve"]))).
Proof.
  apply (start_with_names ["Ada"; "Bob"; "Cy"; "Dee"; "Eve"] default_main_literal).
  discriminate.
Defined.

(** ** Seeding tournament *)

Lemma dict_of_keys_lookup {V} (v : V) keys k :
  dict_of_keys v keys !! k = if bool_decide (k ∈ keys) then Some v else None.
Proof.
  unfold dict_of_keys.
  assert (∀ acc : gmap string V, foldl (λ acc k, <[k:=v]> acc) acc keys !! k
                 = if bool_decide (k ∈ keys) then Some v else acc !! k) as Hgen.
  { induction keys as [|k' keys IH]; intros acc; cbn [foldl].
    - by rewrite bool_decide_eq_false_2 by apply not_elem_of_nil.
    - rewrite IH. destruct (decide (k ∈ keys)) as [Hin|Hin].
      + rewrite (bool_decide_eq_true_2 (k ∈ keys)) by done.
        by rewrite bool_decide_eq_true_2 by (by right).
      + rewrite (bool_decide_eq_false_2 (k ∈ keys)) by done.
        destruct (decide (k = k')) as [->|Hne].
        * rewrite lookup_insert_eq. by rewrite bool_decide_eq_true_2 by left.
        * rewrite lookup_insert_ne by done.
          rewrite bool_decide_eq_false_2; [done|].
          by intros [?|?]%elem_of_cons. }
  rewrite Hgen. by case_bool_decide.
Qed.

Lemma start_seeding_cell players maps t player map_name :
  seeding_cell (start_seeding players maps t) player map_name
  = if bool_decide (player ∈ players ∧ map_name ∈ maps) then Some 0%Z else None.
Proof.
  unfold seeding_cell, start_seeding. cbn [seeding_scores].
  rewrite dict_of_keys_lookup.
  destruct (decide (player ∈ players)) as [Hp|Hp].
  - rewrite bool_decide_eq_true_2 by done. simpl. rewrite dict_of_keys_lookup.
    destruct (decide (map_name ∈ maps)) as [Hm|Hm].
    + by rewrite !bool_decide_eq_true_2.
    + rewrite !bool_decide_eq_false_2; [done|tauto|done].
  - rewrite !bool_decide_eq_false_2; [done|tauto|done].
Qed.

Lemma start_seeding_complete players maps t :
  table_complete (start_seeding players maps t).
Proof.
  split.
  - intros player. cbn [seeding_scores seeding_players start_seeding].
    rewrite dict_of_keys_lookup. case_bool_decide; [by split; [|eexists]|].
    split; [by intros [? [=]]|done].
  - intros player row map_name.
    cbn [seeding_scores seeding_maps start_seeding].
    rewrite dict_of_keys_lookup. case_bool_decide; [|done].
    intros [= <-]. rewrite dict_of_keys_lookup.
    case_bool_decide; [by split; [|eexists]|].
    split; [by intros [? [=]]|done].
Qed.

(** X22.  Starting the seeding tournament builds a complete score table,
    one cell at 0 for each listed player and map and no other cell, and
    splits the players in their given order into group A, the first
    [n // 2], and group B, the rest, which holds the extra player when
    [n] is odd. *)
Theorem start_seeding_table players maps t :
  table_complete (start_seeding players maps t) ∧
  (∀ player map_name, player ∈ players → map_name ∈ maps →
     seeding_cell (start_seeding players maps t) player map_name = Some 0%Z) ∧
  groupA (start_seeding players maps t) ++ groupB (start_seeding players maps t)
  = players ∧
  length (groupA (start_seeding players maps t)) = length players / 2 ∧
  length (groupA (start_seeding players maps t))
  ≤ length (groupB (start_seeding players maps t))
  ≤ length (groupA (start_seeding players maps t)) + 1.
Proof.
  pose proof (Nat.div_mod_eq (length players) 2) as Hdiv.
  pose proof (Nat.mod_upper_bound (length players) 2) as Hmod.
  split; [|split; [|split; [|split]]].
  - apply start_seeding_complete.
  - intros player map_name Hp Hm. rewrite start_seeding_cell.
    by rewrite bool_decide_eq_true_2.
  - apply take_drop.
  - cbn [groupA start_seeding]. rewrite length_take. lia.
  - cbn [groupA groupB start_seeding]. rewrite length_take, length_drop. lia.
Qed.

(** X23.  On a complete score table, a score update with an integer
    succeeds exactly for a listed player and a listed map; it then writes
    that one cell and no other, and the table stays complete.  For any
    other player or map the answer is "not found" and nothing changes. *)
Theorem update_seeding_scores_one_cell player map_name z t :
  table_complete t →
  (player ∈ seeding_players t ∧ map_name ∈ seeding_maps t →
   (update_seeding_scores player map_name (JInt z) t).2 = SeedingSuccess ∧
   seeding_cell (update_seeding_scores player map_name (JInt z) t).1 player map_name
   = Some z) ∧
  (¬ (player ∈ seeding_players t ∧ map_name ∈ seeding_maps t) →
   update_seeding_scores player map_name (JInt z) t = (t, SeedingNotFound)) ∧
  (∀ p m, (p, m) ≠ (player, map_name) →
   seeding_cell (update_seeding_scores player map_name (JInt z) t).1 p m
   = seeding_cell t p m) ∧
  table_complete (update_seeding_scores player map_name (JInt z) t).1.
Proof.
  intros [Hrows Hcells]. unfold update_seeding_scores.
  destruct (seeding_scores t !! player) as [row|] eqn:Hrow.
  - assert (player ∈ seeding_players t) as Hp by (apply Hrows; by eexists).
    destruct (decide (map_name ∈ seeding_maps t)) as [Hm|Hm].
    + rewrite bool_decide_eq_true_2 by done. cbn [fst snd].
      split; [|split; [|split]].
      * intros _. split; [done|]. unfold seeding_cell. cbn [seeding_scores].
        rewrite lookup_insert_eq. simpl. by rewrite lookup_insert_eq.
      * tauto.
      * intros p m Hne. unfold seeding_cell. cbn [seeding_scores].
        destruct (decide (p = player)) as [->|Hp'].
        -- rewrite lookup_insert_eq, Hrow. simpl.
           rewrite lookup_insert_ne; [done|]. congruence.
        -- by rewrite lookup_insert_ne.
      * split.
        -- intros p. cbn [seeding_scores seeding_players].
           destruct (decide (p = player)) as [->|Hp'].
           ++ rewrite lookup_insert_eq. by split; [|eexists].
           ++ rewrite lookup_insert_ne by done. apply Hrows.
        -- intros p row' m. cbn [seeding_scores seeding_maps].
           destruct (decide (p = player)) as [->|Hp'].
           ++ rewrite lookup_insert_eq. intros [= <-].
              destruct (decide (m = map_name)) as [->|Hm'].
              ** rewrite lookup_insert_eq. by split; [|eexists].
              ** rewrite lookup_insert_ne by done. by apply (Hcells player).
           ++ rewrite lookup_insert_ne by done. apply Hcells.
    + rewrite bool_decide_eq_false_2 by done. cbn [fst snd].
      split; [tauto|]. split; [done|]. split; [done|]. by split.
  - assert (player ∉ seeding_players t) as Hp.
    { intros Hp. apply Hrows in Hp as [? Hp]. congruence. }
    cbn [fst snd]. split; [tauto|]. split; [done|]. split; [done|]. by split.
Qed.

(** X23 on a table of four players and two maps. *)
Lemma update_seeding_scores_one_cell_sample :
  let t := start_seeding ["Ada"; "Bob"; "Cy"; "Dee"] ["Map 1"; "Map 2"]
                         default_seeding_literal in
  (("Bob" : string) ∈ seeding_players t ∧ ("Map 2" : string) ∈ seeding_maps t →
   (update_seeding_scores "Bob" "Map 2" (JInt 7) t).2 = SeedingSuccess ∧
   seeding_cell (update_seeding_scores "Bob" "Map 2" (JInt 7) t).1 "Bob" "Map 2"
   = Some 7%Z) ∧
  (¬ (("Bob" : string) ∈ seeding_players t ∧ ("Map 2" : string) ∈ seeding_maps t) →
   update_seeding_scores "Bob" "Map 2" (JInt 7) t = (t, SeedingNotFound)) ∧
  (∀ p m, (p, m) ≠ (("Bob", "Map 2") : string * string) →
   seeding_cell (update_seeding_scores "Bob" "Map 2" (JInt 7) t).1 p m
   = seeding_cell t p m) ∧
  table_complete (update_seeding_scores "Bob" "Map 2" (JInt 7) t).1.
Proof.
  apply update_seeding_scores_one_cell.
  apply start_seeding_complete.
Defined.

Lemma seeding_serve_shared c st :
  loaded_seeding st = None → loaded_seeding (seeding_serve c st) = None.
Proof.
  intros Hst. destruct c; cbn [seeding_serve]; [| |done];
    unfold set_seeding_tournament; by rewrite Hst.
Qed.

Lemma seeding_serve_all_shared cs st :
  loaded_seeding st = None → loaded_seeding (seeding_serve_all cs st) = None.
Proof.
  revert st. induction cs as [|c cs IH]; intros st Hst; [done|].
  apply (IH (seeding_serve c st)). by apply seeding_serve_shared.
Qed.

(** X24.  When [db['seeding_tournament']] is the default dictionary
    itself, as it is after a reset or after a start-up without a
    configuration file, a reset clears nothing but [is_started]: the
    players, maps, scores and groups of the requests before it stay. *)
Theorem seeding_reset_keeps_scores st cs :
  loaded_seeding st = None →
  seeding_tournament (reset_seeding (seeding_serve_all cs st))
  = with_seeding_is_started false (seeding_tournament (seeding_serve_all cs st)).
Proof.
  intros Hst. apply (seeding_serve_all_shared cs) in Hst.
  unfold seeding_tournament at 2. rewrite Hst. reflexivity.
Qed.

(** X24 on a first run: start, one score, reset. *)
Lemma seeding_reset_keeps_scores_sample :
  seeding_tournament
    (reset_seeding
       (seeding_serve_all [ SeedingStart ["Ada"; "Bob"] ["Map 1"];
                            SeedingUpdateScores "Ada" "Map 1" (JInt 9) ]
                          (seeding_startup None)))
  = with_seeding_is_started false
      (seeding_tournament
         (seeding_serve_all [ SeedingStart ["Ada"; "Bob"] ["Map 1"];
                              SeedingUpdateScores "Ada" "Map 1" (JInt 9) ]
                            (seeding_startup None))).
Proof.
  apply (seeding_reset_keeps_scores (seeding_startup None)). reflexivity.
Defined.

(** ** Score correction *)




(** ** The shape of the bracket *)

Lemma set_player_shape slot p mt mt' :
  set_player slot p mt = Some mt' → match_shape mt' = match_shape mt.
Proof.
  unfold set_player, match_shape. intros H.
  destruct (py_set (players mt) slot p) as [ps|] eqn:Hps; simplify_option_eq.
  by rewrite (py_set_length _ _ _ _ Hps).
Qed.

Lemma py_alter_fmap_keep_at {B C} (g : B → C) (f : B → option B) l i l' :
  (∀ x y, py_get l i = Some x → f x = Some y → g y = g x) →
  py_alter f l i = Some l' → g <$> l' = g <$> l.
Proof.
  unfold py_alter, py_get. intros Hf H.
  destruct (py_index l i) as [k|] eqn:Hk; [|done]. simpl in *.
  destruct (l !! k) as [x|] eqn:Hx; [|done]. simpl in *.
  destruct (f x) as [y|] eqn:Hy; [|done]. simpl in *. injection H as <-.
  rewrite list_fmap_insert. apply list_insert_id.
  by rewrite list_lookup_fmap, Hx, (Hf x y eq_refl Hy).
Qed.

Lemma alter_round_shape f m rd rd' :
  (∀ x y, py_get (matches rd) m = Some x → f x = Some y →
          match_shape y = match_shape x) →
  alter_round f m rd = Some rd' → round_shape rd' = round_shape rd.
Proof.
  unfold alter_round, round_shape. intros Hf H.
  destruct (py_alter f (matches rd) m) as [ms|] eqn:Hms; simplify_option_eq.
  by erewrite py_alter_fmap_keep_at.
Qed.

Lemma alter_match_shape sd r m f b b' :
  (∀ x y, get_match sd r m b = Some x → f x = Some y →
          match_shape y = match_shape x) →
  alter_match sd r m f b = Some b' → bracket_shape b' = bracket_shape b.
Proof.
  unfold alter_match, bracket_shape. intros Hf H.
  destruct (py_alter _ (rounds_of sd b) r) as [rs|] eqn:Hrs; simplify_option_eq.
  eapply (py_alter_fmap_keep_at round_shape) in Hrs.
  - destruct sd; simpl in *; by rewrite Hrs.
  - intros rd rd' Hrd. apply alter_round_shape. intros x y Hx.
    apply Hf. unfold get_match. by rewrite Hrd.
Qed.

Lemma alter_final_shape m f b b' :
  (∀ x y, get_final m b = Some x → f x = Some y →
          match_shape y = match_shape x) →
  alter_final m f b = Some b' → bracket_shape b' = bracket_shape b.
Proof.
  unfold alter_final, bracket_shape. intros Hf H.
  destruct (alter_round f m (grand_final b)) as [gf|] eqn:Hgf; simplify_option_eq.
  by erewrite (alter_round_shape f m (grand_final b) gf).
Qed.

Lemma and_then_keeps_shape c1 c2 :
  keeps_shape c1 → keeps_shape c2 → keeps_shape (c1 ;;; c2).
Proof.
  intros H1 H2 b. unfold and_then. specialize (H1 b).
  destruct (c1 b) as [b' [e|]]; [done|]. simpl in H1. by rewrite H2.
Qed.

Lemma assign_keeps_shape loc slot xs k :
  (∀ f b b', (∀ x y, f x = Some y → match_shape y = match_shape x) →
             loc f b = Some b' → bracket_shape b' = bracket_shape b) →
  keeps_shape (assign loc slot xs k).
Proof.
  intros Hloc b. unfold assign.
  destruct (py_get xs k ≫= _) as [b'|] eqn:H; [|done]. simpl.
  destruct (py_get xs k) as [x|]; [|done]. simpl in H.
  eapply Hloc; [|exact H]. intros ??. apply set_player_shape.
Qed.

Lemma assign_final_keeps_shape m slot xs k :
  keeps_shape (assign (alter_final m) slot xs k).
Proof.
  apply assign_keeps_shape. intros f b b' Hf.
  apply alter_final_shape. intros x y _. apply Hf.
Qed.

Lemma assign_pair_match_keeps_shape sd r m slot xs :
  keeps_shape (assign_pair (alter_match sd r m) slot xs).
Proof.
  apply and_then_keeps_shape;
    apply assign_keeps_shape; intros f b b' Hf;
    apply alter_match_shape; intros x y _; apply Hf.
Qed.

Lemma advance_players_keeps_shape ws ls sd r m :
  keeps_shape (advance_players ws ls sd r m).
Proof.
  intros b. unfold advance_players.
  destruct (get_final 0 b); [|done]. destruct sd.
  - apply and_then_keeps_shape.
    + case_bool_decide; [apply and_then_keeps_shape; apply assign_final_keeps_shape|].
      apply assign_pair_match_keeps_shape.
    + intros b1. case_bool_decide; [apply assign_pair_match_keeps_shape|done].
  - case_bool_decide.
    { apply (and_then_keeps_shape _ _ (assign_final_keeps_shape _ _ _ _)
                                  (assign_final_keeps_shape _ _ _ _)). }
    destruct (py_get (lower b) _); [|done].
    case_bool_decide; [apply assign_pair_match_keeps_shape|done].
Qed.

Lemma apply_scores_length ps scores :
  length (apply_scores ps scores) = length ps.
Proof.
  revert scores. induction ps as [|p ps IH]; intros [|v scores]; simpl; auto.
Qed.

Lemma resolved_shape t scores mt :
  match_shape (resolved t scores mt) = match_shape mt.
Proof.
  unfold resolved, match_shape.
  case_bool_decide; cbn [match_id players]; by rewrite apply_scores_length.
Qed.

Lemma update_match_elim_shape rq cfg b :
  bracket_shape (update_match_elim rq cfg b).1 = bracket_shape b.
Proof.
  unfold update_match_elim. case_bool_decide.
  - destruct (get_final (req_match_index rq) b) as [mt|] eqn:Hmt; [|done].
    cbn [mbind option_bind].
    destruct (alter_final _ _ b) as [b'|] eqn:Hb'; [|done]. cbn [fst].
    eapply alter_final_shape; [|exact Hb'].
    intros x y Hx [= <-]. rewrite Hmt in Hx. injection Hx as <-.
    apply resolved_shape.
  - destruct (side_of (req_bracket_type rq)) as [sd|]; [|done].
    destruct (get_match sd _ _ b) as [mt|] eqn:Hmt; [|done]. cbv zeta.
    destruct (alter_match sd _ _ _ b) as [b1|] eqn:Hb1; [|done].
    assert (bracket_shape b1 = bracket_shape b) as Hshape.
    { eapply alter_match_shape; [|exact Hb1].
      intros x y Hx [= <-]. rewrite Hmt in Hx. injection Hx as <-.
      apply resolved_shape. }
    destruct (is_complete _); [|done].
    pose proof (advance_players_keeps_shape
                  (entrant_slot <$> winners (resolved (points_to_advance cfg)
                                                      (req_scores rq) mt))
                  (entrant_slot <$> losers_of
                     (players (resolved (points_to_advance cfg) (req_scores rq) mt))
                     (winners (resolved (points_to_advance cfg) (req_scores rq) mt)))
                  sd (req_round_index rq) (req_match_index rq) b1) as Hadv.
    destruct (advance_players _ _ _ _ _ b1) as [b2 [e|]]; simpl in *; congruence.
Qed.

(** X26.  No request to [update_match] changes the shape of a
    double-elimination bracket: whether it is accepted, rejected or fails
    half-way, the rounds keep their number and names and every match keeps
    its identifier and its number of slots. *)
Theorem update_match_keeps_shape rq s b :
  bracket s = Some (DoubleElim b) →
  ∃ b', bracket (update_match rq s).1 = Some (DoubleElim b') ∧
        bracket_shape b' = bracket_shape b.
Proof.
  intros Hb. destruct (decide (req_bracket_type rq = "swiss")) as [Hsw|Hsw].
  - exists b. unfold update_match. by rewrite bool_decide_eq_true_2, Hb.
  - rewrite (update_match_elim_state rq s b Hb Hsw). eexists. split; [done|].
    apply update_match_elim_shape.
Qed.

(** X26 on a resolve that fails half-way, on the bracket of six. *)
Lemma update_match_keeps_shape_six :
  ∃ b', bracket (update_match (resolve_request "upper" 0 1 [90; 80; 70]%Z)
                              (sample_state 6)).1 = Some (DoubleElim b') ∧
        bracket_shape b' = bracket_shape (sample_bracket 6).
Proof.
  apply (update_match_keeps_shape _ (sample_state 6) (sample_bracket 6)).
  reflexivity.
Defined.

(** ** Matches that cannot be completed *)

Lemma apply_scores_real ps scores :
  length (filter is_real (apply_scores ps scores)) = length (filter is_real ps).
Proof.
  revert scores. induction ps as [|p ps IH]; intros [|v scores]; try done.
  simpl. rewrite !filter_cons.
  change (is_real (set_score v p)) with (is_real p).
  destruct (decide (is_real p)); simpl; by rewrite IH.
Qed.

Lemma resolved_short_handed t scores mt :
  length (filter is_real (players mt)) < 2 →
  is_complete (resolved t scores mt) = false ∧ winners (resolved t scores mt) = [].
Proof.
  intros Hshort. unfold resolved. rewrite bool_decide_eq_false_2; [done|].
  unfold qualified, ranked.
  pose proof (length_filter (λ p, t ≤ get_score p)%Z
                (stable_sort score_desc
                   (filter is_real (apply_scores (players mt) scores)))) as Hle.
  rewrite stable_sort_length, apply_scores_real in Hle. lia.
Qed.

(** X27.  A match with fewer than two real entrants can never be
    completed: whatever scores are submitted and whatever the threshold,
    the resolve succeeds and leaves the match incomplete with no winners,
    so an entrant alone in a match does not advance. *)
Theorem short_handed_match_stays_open rq cfg b mt :
  match_at rq b = Some mt →
  length (filter is_real (players mt)) < 2 →
  (update_match_elim rq cfg b).2 = Success ∧
  ∃ mt', match_at rq (update_match_elim rq cfg b).1 = Some mt' ∧
         is_complete mt' = false ∧ winners mt' = [].
Proof.
  unfold match_at, update_match_elim. intros Hat Hshort.
  case_bool_decide as Hgf.
  - rewrite Hat. cbn [mbind option_bind].
    destruct (alter_final_is_Some (req_match_index rq)
                (λ _, Some (resolved (points_for_finals cfg) (req_scores rq) mt))
                b mt _ Hat eq_refl) as [b' Hb'].
    rewrite Hb'. cbn [fst snd]. split; [done|].
    rewrite (alter_final_get _ _ _ _ Hb'), Hat. cbn [mbind option_bind].
    eexists. split; [done|]. by apply resolved_short_handed.
  - destruct (side_of (req_bracket_type rq)) as [sd|]; [|done].
    cbn [mbind option_bind] in Hat. rewrite Hat. cbv zeta.
    destruct (alter_match_is_Some sd (req_round_index rq) (req_match_index rq)
                (λ _, Some (resolved (points_to_advance cfg) (req_scores rq) mt))
                b mt _ Hat eq_refl) as [b1 Hb1].
    rewrite Hb1.
    destruct (resolved_short_handed (points_to_advance cfg) (req_scores rq) mt Hshort)
      as [Hopen Hnone].
    rewrite Hopen. cbn [fst snd mbind option_bind]. split; [done|].
    rewrite (alter_match_get _ _ _ _ _ _ Hb1), Hat. cbn [mbind option_bind].
    by eexists.
Qed.

(** X27 on the bracket of six, where Lower Round 1 holds placeholders
    only. *)
Lemma short_handed_match_stays_open_six :
  (update_match_elim (resolve_request "lower" 0 0 [90; 80; 75; 70]%Z)
                     default_config (sample_bracket 6)).2 = Success ∧
  ∃ mt', match_at (resolve_request "lower" 0 0 [90; 80; 75; 70]%Z)
           (update_match_elim (resolve_request "lower" 0 0 [90; 80; 75; 70]%Z)
                              default_config (sample_bracket 6)).1 = Some mt' ∧
         is_complete mt' = false ∧ winners mt' = [].
Proof.
  destruct (match_at (resolve_request "lower" 0 0 [90; 80; 75; 70]%Z)
                     (sample_bracket 6)) as [mt|] eqn:Hmt;
    [|by vm_compute in Hmt].
  apply (short_handed_match_stays_open _ default_config (sample_bracket 6) mt).
  - exact Hmt.
  - vm_compute in Hmt. injection Hmt as <-. vm_compute. lia.
Defined.
